(** * The multiplayer room coordinator of keyless-golf

    A shallow embedding of [src/src/roomManager.ts] (class [RoomManager])
    and the properties of its turn and scoring engine.

    Modelling choices, all taken from the source:
    - JS [number]s are IEEE 754 doubles.  Those of the coordinator hold
      scores, counters, indices and timestamps, which are integers; a
      double that holds an integer is written as that integer ([Z]).
      The sums that can leave the 53 bits of a double, [score += score],
      [shotsRemaining--] and [currentPlayerIndex + 1], are rounded as the
      code rounds them ([js_add]).  The other arithmetic is exact:
      [now - lastActivity] is a difference of two values of [Date.now()],
      the sort of [getActiveRooms] only uses the sign of a difference,
      which rounding keeps, and an index below an array length has an
      exact successor.  [Infinity] and [NaN] are outside the model.
    - [Date.now()] is an argument [now] of each operation that reads it.
    - The store is a JS [Map]: it iterates in insertion order, [set] on a
      present key keeps the key's position, [set] on an absent key appends.
      [getActiveRooms] observes that order through a stable sort, so the
      store is an association list with exactly these three operations.
    - Room and player objects are mutated in place by the source.  A room
      object lives under one key only, and player objects are created
      fresh by the coordinator ([{...player}]), so a mutation of the
      stored object is a [rooms_set] on its (present) key.
    - A [TypeError] ([players[i]] is [undefined] and a field of it is
      read or written) is the outcome [Thrown]; the store keeps what was
      mutated before the throw.
    - Event emission has no effect on the store and is left out. *)

From Stdlib Require Import ZArith Lia Sorted Permutation.
From stdpp Require Import base tactics option list strings.

Local Open Scope Z_scope.

(** ** Data model *)

Inductive Status := waiting | playing | completed.

#[global] Instance Status_eq_dec : EqDecision Status.
Proof. solve_decision. Defined.

Module Player.
Record t := mk {
  id : string;
  name : string;
  walletAddress : string;
  score : Z;
  shotsRemaining : Z;
  isConnected : bool;
  isCurrentTurn : bool
}.

Definition set_score (v : Z) (p : t) : t :=
  mk (id p) (name p) (walletAddress p) v (shotsRemaining p)
     (isConnected p) (isCurrentTurn p).
Definition set_shotsRemaining (v : Z) (p : t) : t :=
  mk (id p) (name p) (walletAddress p) (score p) v
     (isConnected p) (isCurrentTurn p).
Definition set_isConnected (v : bool) (p : t) : t :=
  mk (id p) (name p) (walletAddress p) (score p) (shotsRemaining p)
     v (isCurrentTurn p).
Definition set_isCurrentTurn (v : bool) (p : t) : t :=
  mk (id p) (name p) (walletAddress p) (score p) (shotsRemaining p)
     (isConnected p) v.
End Player.

Module GameRoom.
Record t := mk {
  id : string;
  name : string;
  hostId : string;
  players : list Player.t;
  maxPlayers : Z;
  status : Status;
  currentPlayerIndex : Z;
  shotsPerPlayer : Z;
  rewardAmount : Z;
  created : Z;
  lastActivity : Z
}.

Definition set_hostId (v : string) (r : t) : t :=
  mk (id r) (name r) v (players r) (maxPlayers r) (status r)
     (currentPlayerIndex r) (shotsPerPlayer r) (rewardAmount r)
     (created r) (lastActivity r).
Definition set_players (v : list Player.t) (r : t) : t :=
  mk (id r) (name r) (hostId r) v (maxPlayers r) (status r)
     (currentPlayerIndex r) (shotsPerPlayer r) (rewardAmount r)
     (created r) (lastActivity r).
Definition set_status (v : Status) (r : t) : t :=
  mk (id r) (name r) (hostId r) (players r) (maxPlayers r) v
     (currentPlayerIndex r) (shotsPerPlayer r) (rewardAmount r)
     (created r) (lastActivity r).
Definition set_currentPlayerIndex (v : Z) (r : t) : t :=
  mk (id r) (name r) (hostId r) (players r) (maxPlayers r) (status r)
     v (shotsPerPlayer r) (rewardAmount r) (created r) (lastActivity r).
Definition set_lastActivity (v : Z) (r : t) : t :=
  mk (id r) (name r) (hostId r) (players r) (maxPlayers r) (status r)
     (currentPlayerIndex r) (shotsPerPlayer r) (rewardAmount r)
     (created r) v.
End GameRoom.

(** [Partial<GameRoom>]: every field may be absent. *)
Module RoomUpdates.
Record t := mk {
  id : option string;
  name : option string;
  hostId : option string;
  players : option (list Player.t);
  maxPlayers : option Z;
  status : option Status;
  currentPlayerIndex : option Z;
  shotsPerPlayer : option Z;
  rewardAmount : option Z;
  created : option Z;
  lastActivity : option Z
}.
End RoomUpdates.

(** What a call does: it returns a value or throws. *)
Inductive Outcome (A : Type) :=
| Returned (a : A)
| Thrown.
Arguments Returned {A} a.
Arguments Thrown {A}.

(** ** The store: [Map<string, GameRoom>] in insertion order *)

Definition Store := list (string * GameRoom.t).

(** [Map.prototype.get] *)
Fixpoint rooms_get (st : Store) (k : string) : option GameRoom.t :=
  match st with
  | [] => None
  | (k', r) :: st' => if decide (k' = k) then Some r else rooms_get st' k
  end.

(** [Map.prototype.set] *)
Fixpoint rooms_set (st : Store) (k : string) (r : GameRoom.t) : Store :=
  match st with
  | [] => [(k, r)]
  | (k', r') :: st' =>
      if decide (k' = k) then (k, r) :: st'
      else (k', r') :: rooms_set st' k r
  end.

(** [Map.prototype.delete]: no entry under [k] is left. *)
Fixpoint rooms_delete (st : Store) (k : string) : Store :=
  match st with
  | [] => []
  | (k', r') :: st' =>
      if decide (k' = k) then rooms_delete st' k
      else (k', r') :: rooms_delete st' k
  end.

(** [Array.from(this.rooms.values())] *)
Definition rooms_values (st : Store) : list GameRoom.t := snd <$> st.

(** [24 * 60 * 60 * 1000] *)
Definition maxInactiveTime : Z := 24 * 60 * 60 * 1000.

(** ** Numbers

    A double has 53 significant bits: every integer of magnitude up to
    [2^53] is a double, and beyond that only the multiples of a power of
    two that grows with the magnitude.  A sum is rounded to the nearest
    double, and to the one of the two nearest with the even significand
    when it lies half way. *)

(** The double nearest to the integer [z]: [z] itself up to 53 bits;
    beyond, with [u] the weight of the last of the 53 leading bits, the
    nearest multiple of [u]. *)
Definition round_double (z : Z) : Z :=
  let m := Z.abs z in
  let e := Z.log2 m - 52 in
  if e <=? 0 then z
  else
    let u := 2 ^ e in
    let q := m / u in
    let r := m mod u in
    let q' :=
      if 2 * r <? u then q
      else if u <? 2 * r then q + 1
      else if Z.even q then q else q + 1 in
    Z.sgn z * (q' * u).

(** The integers that are doubles; the largest double is below
    [2^1024]. *)
Definition is_double (z : Z) : bool :=
  (round_double z =? z) && (Z.abs z <? 2 ^ 1024).

(** [a + b] on numbers: the rounded sum of two doubles.  An integer that
    is not a double is the value of no number of the program; on those
    the model keeps the plain sum.  A sum of magnitude [2^1024] or more
    is [Infinity] in the program, which the model does not have. *)
Definition js_add (a b : Z) : Z :=
  if is_double a && is_double b then round_double (a + b) else a + b.



(** [players[i]] for a JS number [i] that holds an integer: [undefined]
    ([None]) outside [0 .. length-1]. *)
Definition js_index {A} (l : list A) (i : Z) : option A :=
  if i <? 0 then None else l !! Z.to_nat i.

(** The test of the [do ... while] of [nextTurn] and of its
    [allShotsUsed]: [p.shotsRemaining <= 0 || !p.isConnected]. *)
Definition cannot_play (p : Player.t) : bool :=
  (Player.shotsRemaining p <=? 0) || negb (Player.isConnected p).

(** ** Room lifecycle *)

(** [createRoom].  [roomId] is the value of [generateRoomId()], whose
    [do ... while (this.rooms.has(roomId))] only leaves with an id that is
    not a key of the store; [created_at] and [now] are the two reads of
    [Date.now()]. *)
Definition createRoom (st : Store)
    (roomId hostId hostName walletAddress roomName : string)
    (maxPlayers shotsPerPlayer rewardAmount created_at now : Z)
    : Store * GameRoom.t :=
  let room :=
    GameRoom.mk roomId roomName hostId
      [Player.mk hostId hostName walletAddress 0 shotsPerPlayer true true]
      maxPlayers waiting 0 shotsPerPlayer rewardAmount created_at now in
  (rooms_set st roomId room, room).

(** [getRoom]: a read that refreshes [lastActivity]. *)
Definition getRoom (st : Store) (roomId : string) (now : Z)
    : Store * option GameRoom.t :=
  match rooms_get st roomId with
  | Some room =>
      let room' := GameRoom.set_lastActivity now room in
      (rooms_set st roomId room', Some room')
  | None => (st, None)
  end.

(** The filter of [getActiveRooms]. *)
Definition is_active (now : Z) (room : GameRoom.t) : bool :=
  bool_decide (GameRoom.status room = waiting)
  || (bool_decide (GameRoom.status room = playing)
      && (now - GameRoom.lastActivity room <? maxInactiveTime)).

(** [Array.prototype.sort] with the comparator [(a, b) => b.created -
    a.created].  The sort is stable, so its result is the one of a stable
    insertion sort: an element stays in front of the later elements that
    compare equal to it. *)
Fixpoint insert_newest_first (a : GameRoom.t) (l : list GameRoom.t)
    : list GameRoom.t :=
  match l with
  | [] => [a]
  | b :: l' =>
      if GameRoom.created b <=? GameRoom.created a then a :: b :: l'
      else b :: insert_newest_first a l'
  end.

Fixpoint sort_newest_first (l : list GameRoom.t) : list GameRoom.t :=
  match l with
  | [] => []
  | a :: l' => insert_newest_first a (sort_newest_first l')
  end.

Definition getActiveRooms (st : Store) (now : Z) : list GameRoom.t :=
  sort_newest_first (List.filter (is_active now) (rooms_values st)).

(** [room.players.findIndex(p => p.id === playerId)] and
    [room.players.find(...)]: the first player with that id, with its
    index. *)
Definition find_player (playerId : string) (ps : list Player.t)
    : option (nat * Player.t) :=
  list_find (λ p, Player.id p = playerId) ps.

Definition addPlayerToRoom (st : Store) (roomId : string)
    (player : Player.t) (now : Z) : Store * Outcome bool :=
  match rooms_get st roomId with
  | None => (st, Returned false)
  | Some room =>
      if GameRoom.maxPlayers room <=? Z.of_nat (length (GameRoom.players room))
      then (st, Returned false)
      else if negb (bool_decide (GameRoom.status room = waiting))
      then (st, Returned false)
      else
        let players' :=
          match find_player (Player.id player) (GameRoom.players room) with
          | Some (existingPlayerIndex, _) =>
              <[existingPlayerIndex :=
                  Player.set_isConnected true
                    (Player.set_shotsRemaining
                       (GameRoom.shotsPerPlayer room) player)]>
                (GameRoom.players room)
          | None =>
              GameRoom.players room ++
                [Player.mk (Player.id player) (Player.name player)
                   (Player.walletAddress player) 0
                   (GameRoom.shotsPerPlayer room) true false]
          end in
        (rooms_set st roomId
           (GameRoom.set_lastActivity now
              (GameRoom.set_players players' room)),
         Returned true)
  end.

(** [removeRoom] *)
Definition removeRoom (st : Store) (roomId : string) : Store * Outcome bool :=
  match rooms_get st roomId with
  | None => (st, Returned false)
  | Some _ => (rooms_delete st roomId, Returned true)
  end.

(** [cleanupInactiveRooms]: [forEach] over the entries, [removeRoom] on
    each stale one. *)
Definition cleanupInactiveRooms (st : Store) (now : Z) : Store :=
  fold_left
    (λ acc e,
       if maxInactiveTime <? now - GameRoom.lastActivity e.2
       then (removeRoom acc e.1).1 else acc)
    st st.

Definition updatePlayerInRoom (st : Store) (roomId : string)
    (updatedPlayer : Player.t) (now : Z) : Store * Outcome bool :=
  match rooms_get st roomId with
  | None => (st, Returned false)
  | Some room =>
      match find_player (Player.id updatedPlayer) (GameRoom.players room) with
      | None => (st, Returned false)
      | Some (playerIndex, _) =>
          (rooms_set st roomId
             (GameRoom.set_lastActivity now
                (GameRoom.set_players
                   (<[playerIndex := updatedPlayer]> (GameRoom.players room))
                   room)),
           Returned true)
      end
  end.

(** [updateRoom]: [{ ...room, ...updates, lastActivity: Date.now() }]. *)
Definition updateRoom (st : Store) (roomId : string)
    (updates : RoomUpdates.t) (now : Z) : Store * Outcome bool :=
  match rooms_get st roomId with
  | None => (st, Returned false)
  | Some room =>
      let updatedRoom :=
        GameRoom.mk
          (default (GameRoom.id room) (RoomUpdates.id updates))
          (default (GameRoom.name room) (RoomUpdates.name updates))
          (default (GameRoom.hostId room) (RoomUpdates.hostId updates))
          (default (GameRoom.players room) (RoomUpdates.players updates))
          (default (GameRoom.maxPlayers room) (RoomUpdates.maxPlayers updates))
          (default (GameRoom.status room) (RoomUpdates.status updates))
          (default (GameRoom.currentPlayerIndex room)
             (RoomUpdates.currentPlayerIndex updates))
          (default (GameRoom.shotsPerPlayer room)
             (RoomUpdates.shotsPerPlayer updates))
          (default (GameRoom.rewardAmount room)
             (RoomUpdates.rewardAmount updates))
          (default (GameRoom.created room) (RoomUpdates.created updates))
          now in
      (rooms_set st roomId updatedRoom, Returned true)
  end.

(** ** Turn and scoring engine *)

Definition startGame (st : Store) (roomId : string) (now : Z)
    : Store * Outcome bool :=
  match rooms_get st roomId with
  | None => (st, Returned false)
  | Some room =>
      if Z.of_nat (length (GameRoom.players room)) <? 2
      then (st, Returned false)
      else
        (rooms_set st roomId
           (GameRoom.set_lastActivity now
              (GameRoom.set_players
                 (imap (λ i p, Player.set_isCurrentTurn
                                 (bool_decide (i = 0%nat)) p)
                    (GameRoom.players room))
                 (GameRoom.set_currentPlayerIndex 0
                    (GameRoom.set_status playing room)))),
         Returned true)
  end.

(** The [do ... while] loop of [nextTurn].  An iteration starts with
    [nextPlayerIndex = (nextPlayerIndex + 1) % room.players.length];
    [sum] is the value of that [nextPlayerIndex + 1] and [fullLoopCount]
    the loop variable.  On entry [nextPlayerIndex] is
    [room.currentPlayerIndex], any number, and the sum is rounded (see
    [nextTurn]); in a later iteration [nextPlayerIndex] is an index at
    which [players] was just read, below an array length, and one more
    is exact.  [%] is the JS remainder ([Z.rem]: truncated, sign of the
    dividend), exact on doubles. *)
Inductive Scan :=
| Found (nextPlayerIndex : Z) (nextPlayer : Player.t)
| GameOver
| TypeError
| OutOfFuel.

Fixpoint scan (fuel : nat) (ps : list Player.t)
    (sum fullLoopCount : Z) : Scan :=
  match fuel with
  | O => OutOfFuel
  | S fuel' =>
      let nextPlayerIndex := Z.rem sum (Z.of_nat (length ps)) in
      let fullLoopCount' :=
        if nextPlayerIndex =? 0 then fullLoopCount + 1 else fullLoopCount in
      if 1 <? fullLoopCount' then GameOver
      else
        match js_index ps nextPlayerIndex with
        | None => TypeError
        | Some nextPlayer =>
            if cannot_play nextPlayer
            then scan fuel' ps (nextPlayerIndex + 1) fullLoopCount'
            else Found nextPlayerIndex nextPlayer
        end
  end.

(** Enough iterations for the loop to leave on every input (see
    [scan_terminates]). *)
Definition scan_fuel (ps : list Player.t) : nat := (2 * length ps + 1)%nat.

(** [nextTurn].  With no players the index is [NaN], [players[NaN]] is
    [undefined] and the loop test throws. *)
Definition nextTurn (st : Store) (roomId : string) (now : Z)
    : Store * Outcome bool :=
  match rooms_get st roomId with
  | None => (st, Returned false)
  | Some room =>
      if negb (bool_decide (GameRoom.status room = playing))
      then (st, Returned false)
      else
        match GameRoom.players room with
        | [] => (st, Thrown)
        | _ :: _ =>
            match scan (scan_fuel (GameRoom.players room))
                    (GameRoom.players room)
                    (js_add (GameRoom.currentPlayerIndex room) 1) 0 with
            | GameOver =>
                (rooms_set st roomId
                   (GameRoom.set_lastActivity now
                      (GameRoom.set_status completed room)),
                 Returned true)
            | Found nextPlayerIndex _ =>
                let players' :=
                  alter (Player.set_isCurrentTurn true)
                    (Z.to_nat nextPlayerIndex)
                    (Player.set_isCurrentTurn false <$> GameRoom.players room) in
                let allShotsUsed := forallb cannot_play players' in
                let room1 :=
                  GameRoom.set_currentPlayerIndex nextPlayerIndex
                    (GameRoom.set_players players' room) in
                let room2 :=
                  if allShotsUsed then GameRoom.set_status completed room1
                  else room1 in
                (rooms_set st roomId (GameRoom.set_lastActivity now room2),
                 Returned true)
            | TypeError | OutOfFuel => (st, Thrown)
            end
        end
  end.

Definition updatePlayerScore (st : Store) (roomId playerId : string)
    (score now : Z) : Store * Outcome bool :=
  match rooms_get st roomId with
  | None => (st, Returned false)
  | Some room =>
      match find_player playerId (GameRoom.players room) with
      | None => (st, Returned false)
      | Some (i, player) =>
          if negb (Player.isCurrentTurn player) then (st, Returned false)
          else
            let player' :=
              Player.set_shotsRemaining
                (js_add (Player.shotsRemaining player) (-1))
                (Player.set_score (js_add (Player.score player) score)
                   player) in
            (rooms_set st roomId
               (GameRoom.set_lastActivity now
                  (GameRoom.set_players
                     (<[i := player']> (GameRoom.players room)) room)),
             Returned true)
      end
  end.

(** [resetGame].  With no players [room.players[0].isCurrentTurn = true]
    throws after [status] and [currentPlayerIndex] were written. *)
Definition resetGame (st : Store) (roomId : string) (now : Z)
    : Store * Outcome bool :=
  match rooms_get st roomId with
  | None => (st, Returned false)
  | Some room =>
      let players1 :=
        (λ p, Player.set_shotsRemaining (GameRoom.shotsPerPlayer room)
                (Player.set_score 0 p)) <$> GameRoom.players room in
      let room1 :=
        GameRoom.set_currentPlayerIndex 0
          (GameRoom.set_status waiting (GameRoom.set_players players1 room)) in
      match players1 with
      | [] => (rooms_set st roomId room1, Thrown)
      | p0 :: rest =>
          (rooms_set st roomId
             (GameRoom.set_lastActivity now
                (GameRoom.set_players
                   (Player.set_isCurrentTurn true p0
                      :: (Player.set_isCurrentTurn false <$> rest))
                   room1)),
           Returned true)
      end
  end.

(** [removePlayerFromRoom].  In a [playing] room the player object is
    marked in place, so [nextTurn] (which looks the room up again) sees
    the mark, and the rest of the method sees what [nextTurn] wrote: the
    room is read back from the store after the call. *)
Definition removePlayerFromRoom (st : Store) (roomId playerId : string)
    (now : Z) : Store * Outcome bool :=
  match rooms_get st roomId with
  | None => (st, Returned false)
  | Some room =>
      match find_player playerId (GameRoom.players room) with
      | None => (st, Returned false)
      | Some (playerIndex, player) =>
          let '(st1, o) :=
            if bool_decide (GameRoom.status room = playing) then
              let st0 :=
                rooms_set st roomId
                  (GameRoom.set_players
                     (<[playerIndex := Player.set_isConnected false player]>
                        (GameRoom.players room)) room) in
              if Player.isCurrentTurn player then nextTurn st0 roomId now
              else (st0, Returned true)
            else
              (rooms_set st roomId
                 (GameRoom.set_players
                    (delete playerIndex (GameRoom.players room)) room),
               Returned true) in
          match o, rooms_get st1 roomId with
          | Thrown, _ | _, None => (st1, Thrown)
          | Returned _, Some room1 =>
              if bool_decide (length (GameRoom.players room1) = 0%nat)
                 || forallb (λ p, negb (Player.isConnected p))
                      (GameRoom.players room1)
              then ((removeRoom st1 roomId).1, Returned true)
              else
                let room2 :=
                  if bool_decide (playerId = GameRoom.hostId room1)
                     && (0 <? Z.of_nat (length (GameRoom.players room1)))
                  then
                    match list_find (λ p, Player.isConnected p = true)
                            (GameRoom.players room1) with
                    | Some (_, p) => GameRoom.set_hostId (Player.id p) room1
                    | None => room1
                    end
                  else room1 in
                (rooms_set st1 roomId (GameRoom.set_lastActivity now room2),
                 Returned true)
          end
      end
  end.

(** [getWinner]: the loop body, on the pair [(highestScore, winner)]. *)
Definition winner_step (acc : Z * option Player.t) (player : Player.t)
    : Z * option Player.t :=
  let '(highestScore, winner) := acc in
  if highestScore <? Player.score player
  then (Player.score player, Some player)
  else if (Player.score player =? highestScore) && (0 <? highestScore)
  then match winner with
       | None => (highestScore, Some player)
       | Some _ => acc
       end
  else acc.

Definition getWinner (st : Store) (roomId : string) : option Player.t :=
  match rooms_get st roomId with
  | None => None
  | Some room =>
      if negb (bool_decide (GameRoom.status room = completed)) then None
      else (fold_left winner_step (GameRoom.players room) (-1, None)).2
  end.

(** ** Sequences of coordinator calls *)

Inductive Op :=
| OpCreateRoom (roomId hostId hostName walletAddress roomName : string)
    (maxPlayers shotsPerPlayer rewardAmount created_at : Z)
| OpGetRoom (roomId : string)
| OpAddPlayerToRoom (roomId : string) (player : Player.t)
| OpRemovePlayerFromRoom (roomId playerId : string)
| OpUpdatePlayerInRoom (roomId : string) (updatedPlayer : Player.t)
| OpUpdateRoom (roomId : string) (updates : RoomUpdates.t)
| OpStartGame (roomId : string)
| OpNextTurn (roomId : string)
| OpUpdatePlayerScore (roomId playerId : string) (score : Z)
| OpResetGame (roomId : string)
| OpRemoveRoom (roomId : string)
| OpCleanupInactiveRooms.

(** The store after one call made at time [now] (a call that throws
    leaves the store as it was at the throw). *)
Definition run (st : Store) (op : Op) (now : Z) : Store :=
  match op with
  | OpCreateRoom roomId hostId hostName walletAddress roomName
      maxPlayers shotsPerPlayer rewardAmount created_at =>
      (createRoom st roomId hostId hostName walletAddress roomName
         maxPlayers shotsPerPlayer rewardAmount created_at now).1
  | OpGetRoom roomId => (getRoom st roomId now).1
  | OpAddPlayerToRoom roomId player => (addPlayerToRoom st roomId player now).1
  | OpRemovePlayerFromRoom roomId playerId =>
      (removePlayerFromRoom st roomId playerId now).1
  | OpUpdatePlayerInRoom roomId updatedPlayer =>
      (updatePlayerInRoom st roomId updatedPlayer now).1
  | OpUpdateRoom roomId updates => (updateRoom st roomId updates now).1
  | OpStartGame roomId => (startGame st roomId now).1
  | OpNextTurn roomId => (nextTurn st roomId now).1
  | OpUpdatePlayerScore roomId playerId score =>
      (updatePlayerScore st roomId playerId score now).1
  | OpResetGame roomId => (resetGame st roomId now).1
  | OpRemoveRoom roomId => (removeRoom st roomId).1
  | OpCleanupInactiveRooms => cleanupInactiveRooms st now
  end.

(** [generateRoomId] never returns a key of the store. *)
Definition fresh_id (st : Store) (op : Op) : Prop :=
  match op with
  | OpCreateRoom roomId _ _ _ _ _ _ _ _ => rooms_get st roomId = None
  | _ => True
  end.

(** The stores a sequence of calls can produce from the empty store, the
    calls being restricted by [allowed]. *)
Inductive reachable (allowed : Store → Op → Prop) : Store → Prop :=
| reachable_empty : reachable allowed []
| reachable_run st op now :
    reachable allowed st → fresh_id st op → allowed st op →
    reachable allowed (run st op now).

(** A property of every room of the store. *)
Definition store_all (P : GameRoom.t → Prop) (st : Store) : Prop :=
  Forall P (rooms_values st).



(** ** Notions the statements use *)

(** [w], at index [i], has the highest score of [ps] and is the first
    player in list order to have it. *)
Definition first_max (ps : list Player.t) (i : nat) (w : Player.t) : Prop :=
  ps !! i = Some w ∧
  (∀ q, q ∈ ps → Player.score q ≤ Player.score w) ∧
  (∀ j q, ps !! j = Some q → (j < i)%nat → Player.score q < Player.score w).

(** What the loop of [getWinner] has established after the players [ps]. *)
Definition winner_inv (ps : list Player.t) (acc : Z * option Player.t) : Prop :=
  match acc.2 with
  | None => acc.1 = -1 ∧ Forall (λ q, Player.score q ≤ -1) ps
  | Some w => acc.1 = Player.score w ∧ -1 < Player.score w ∧
              ∃ i, first_max ps i w
  end.

(** The order of the result of [getActiveRooms]: newest [created] first. *)
Definition newest_first (a b : GameRoom.t) : Prop :=
  GameRoom.created b ≤ GameRoom.created a.

(** A player [nextTurn] may give the turn to: [shotsRemaining > 0] and
    [isConnected]. *)
Definition eligible (p : Player.t) : Prop :=
  0 < Player.shotsRemaining p ∧ Player.isConnected p = true.

(** The player at position [k] of the circular order that starts just
    after index [c], in a list of [n] players. *)
Definition after (c n k : Z) : nat := Z.to_nat ((c + 1 + k) mod n).


(** A player as a caller of [addPlayerToRoom] describes it. *)
Definition joiner (i : string) : Player.t := Player.mk i i "G" 0 0 false false.


(** *** Shots *)

(** C3 as it is worded: no player of the room has a negative
    [shotsRemaining]. *)
Definition shots_never_negative (r : GameRoom.t) : Prop :=
  Forall (λ p, 0 ≤ Player.shotsRemaining p) (GameRoom.players r).

(** The calls C3 lists. *)
Definition listed_op (st : Store) (op : Op) : Prop :=
  match op with
  | OpCreateRoom _ _ _ _ _ _ _ _ _ | OpAddPlayerToRoom _ _ | OpStartGame _
  | OpUpdatePlayerScore _ _ _ | OpNextTurn _ | OpResetGame _
  | OpRemovePlayerFromRoom _ _ => True
  | _ => False
  end.

(** What the code keeps: [shotsRemaining] between 0 and the room's
    [shotsPerPlayer]. *)
Definition shots_in_range (r : GameRoom.t) : Prop :=
  0 ≤ GameRoom.shotsPerPlayer r ∧
  Forall (λ p, 0 ≤ Player.shotsRemaining p ≤ GameRoom.shotsPerPlayer r)
    (GameRoom.players r).

(** The player that [updatePlayerScore] would accept still has a shot. *)
Definition has_shot_left (st : Store) (roomId playerId : string) : Prop :=
  ∀ room i p,
    rooms_get st roomId = Some room →
    find_player playerId (GameRoom.players room) = Some (i, p) →
    Player.isCurrentTurn p = true →
    1 ≤ Player.shotsRemaining p.

(** The listed calls, with rooms created with [shotsPerPlayer >= 0] and
    scores recorded only for a player who has a shot left. *)
Definition guarded_op (st : Store) (op : Op) : Prop :=
  match op with
  | OpCreateRoom _ _ _ _ _ _ shotsPerPlayer _ _ => 0 ≤ shotsPerPlayer
  | OpUpdatePlayerScore roomId playerId _ => has_shot_left st roomId playerId
  | OpAddPlayerToRoom _ _ | OpStartGame _ | OpNextTurn _ | OpResetGame _
  | OpRemovePlayerFromRoom _ _ => True
  | _ => False
  end.

(** *** Turns *)

(** C4's invariant: in a [playing] room [currentPlayerIndex] is the index
    of a player with [isCurrentTurn], and no other player has it. *)
Definition turn_ok (r : GameRoom.t) : Prop :=
  GameRoom.status r = playing →
  ∃ i p,
    GameRoom.currentPlayerIndex r = Z.of_nat i ∧
    GameRoom.players r !! i = Some p ∧
    Player.isCurrentTurn p = true ∧
    ∀ j q, GameRoom.players r !! j = Some q →
           Player.isCurrentTurn q = true → j = i.

(** Every coordinator call. *)
Definition any_op (st : Store) (op : Op) : Prop := True.

(** Every coordinator call but the two direct replacements,
    [updatePlayerInRoom] and [updateRoom]. *)
Definition turn_rule_op (st : Store) (op : Op) : Prop :=
  match op with
  | OpUpdatePlayerInRoom _ _ | OpUpdateRoom _ _ => False
  | _ => True
  end.

(** *** Concrete stores *)


(** A game of two with one shot each, just started. *)
Definition started_game : Store :=
  let st := run [] (OpCreateRoom "R" "A" "A" "G" "room" 4 1 10000000 1) 1 in
  let st := run st (OpAddPlayerToRoom "R" (joiner "B")) 2 in
  run st (OpStartGame "R") 3.

(** A records a score, *)
Definition scored_game : Store :=
  run started_game (OpUpdatePlayerScore "R" "A" 5) 4.

(** and a second one without passing the turn. *)
Definition overdrawn_game : Store :=
  run scored_game (OpUpdatePlayerScore "R" "A" 5) 5.

(** B is replaced by a copy of itself that claims the turn. *)
Definition two_turn_holders : Store :=
  run started_game
    (OpUpdatePlayerInRoom "R" (Player.mk "B" "B" "G" 0 1 true true)) 4.

(** The game of two played to its end with both shots scoring 0. *)
Definition scoreless_game : Store :=
  let st := run started_game (OpUpdatePlayerScore "R" "A" 0) 4 in
  let st := run st (OpNextTurn "R") 5 in
  let st := run st (OpUpdatePlayerScore "R" "B" 0) 6 in
  run st (OpNextTurn "R") 7.

(** Host A and guest B in a room that has not started. *)
Definition waiting_room : Store :=
  let st := run [] (OpCreateRoom "R" "A" "A" "G" "room" 4 1 10000000 1) 1 in
  run st (OpAddPlayerToRoom "R" (joiner "B")) 2.

(** A store is reachable when the calls that build it are allowed. *)
Ltac by_calls :=
  repeat (apply reachable_run; [|done|done]); apply reachable_empty.

(** The one room of each of these stores, written out. *)
Definition started_room : GameRoom.t :=
  GameRoom.mk "R" "room" "A"
    [Player.mk "A" "A" "G" 0 1 true true; Player.mk "B" "B" "G" 0 1 true false]
    4 playing 0 1 10000000 1 3.

Definition overdrawn_room : GameRoom.t :=
  GameRoom.mk "R" "room" "A"
    [Player.mk "A" "A" "G" 10 (-1) true true; Player.mk "B" "B" "G" 0 1 true false]
    4 playing 0 1 10000000 1 5.

Definition two_turn_room : GameRoom.t :=
  GameRoom.mk "R" "room" "A"
    [Player.mk "A" "A" "G" 0 1 true true; Player.mk "B" "B" "G" 0 1 true true]
    4 playing 0 1 10000000 1 4.

Definition scoreless_room : GameRoom.t :=
  GameRoom.mk "R" "room" "A"
    [Player.mk "A" "A" "G" 0 0 true false; Player.mk "B" "B" "G" 0 0 true true]
    4 completed 1 1 10000000 1 7.

Definition waiting_room_R : GameRoom.t :=
  GameRoom.mk "R" "room" "A"
    [Player.mk "A" "A" "G" 0 1 true true; Player.mk "B" "B" "G" 0 1 true false]
    4 waiting 0 1 10000000 1 2.



(** Updates that only give another [currentPlayerIndex]. *)
Definition index_to (c : Z) : RoomUpdates.t :=
  RoomUpdates.mk None None None None None None (Some c) None None None None.



(** The started game of two after guest B has left and the game has been
    reset: a [waiting] room with the host and the disconnected guest. *)
Definition abandoned_game : Store :=
  let st := run started_game (OpRemovePlayerFromRoom "R" "B") 4 in
  run st (OpResetGame "R") 5.

Definition abandoned_room : GameRoom.t :=
  GameRoom.mk "R" "room" "A"
    [Player.mk "A" "A" "G" 0 1 true true; Player.mk "B" "B" "G" 0 1 false false]
    4 waiting 0 1 10000000 1 5.

(** The started game of two after [updateRoom] has written
    [currentPlayerIndex = 2^53]. *)
Definition far_indexed_game : Store :=
  run started_game (OpUpdateRoom "R" (index_to 9007199254740992)) 4.

(** ** One call seen from one room

    What a call can do to the room it names: the relations below list,
    call by call, the room the store holds afterwards.  They are derived
    from the calls ([run_room_step]); the statements about sequences of
    calls are proved through them. *)

(** The room a call names. *)
Definition op_room (op : Op) : option string :=
  match op with
  | OpCreateRoom roomId _ _ _ _ _ _ _ _ | OpGetRoom roomId
  | OpAddPlayerToRoom roomId _ | OpRemovePlayerFromRoom roomId _
  | OpUpdatePlayerInRoom roomId _ | OpUpdateRoom roomId _
  | OpStartGame roomId | OpNextTurn roomId | OpUpdatePlayerScore roomId _ _
  | OpResetGame roomId | OpRemoveRoom roomId => Some roomId
  | OpCleanupInactiveRooms => None
  end.

(** The room [createRoom] builds. *)
Definition created_by (op : Op) (now : Z) (r' : GameRoom.t) : Prop :=
  match op with
  | OpCreateRoom roomId hostId hostName walletAddress roomName
      maxPlayers shotsPerPlayer rewardAmount created_at =>
      r' = (createRoom [] roomId hostId hostName walletAddress roomName
              maxPlayers shotsPerPlayer rewardAmount created_at now).2
  | _ => False
  end.

(** [room.players[playerIndex].isConnected = false] *)
Definition marked_disconnected (i : nat) (p : Player.t) (r : GameRoom.t)
    : GameRoom.t :=
  GameRoom.set_players
    (<[i := Player.set_isConnected false p]> (GameRoom.players r)) r.

(** The test of [removePlayerFromRoom] for removing the room. *)
Definition room_gone (r : GameRoom.t) : bool :=
  bool_decide (length (GameRoom.players r) = 0%nat)
  || forallb (λ p, negb (Player.isConnected p)) (GameRoom.players r).

(** The host reassignment of [removePlayerFromRoom]. *)
Definition reassign_host (playerId : string) (r : GameRoom.t) : GameRoom.t :=
  if bool_decide (playerId = GameRoom.hostId r)
     && (0 <? Z.of_nat (length (GameRoom.players r)))
  then
    match list_find (λ p, Player.isConnected p = true) (GameRoom.players r) with
    | Some (_, p) => GameRoom.set_hostId (Player.id p) r
    | None => r
    end
  else r.

(** The two ways [nextTurn] writes a room. *)
Inductive turn_step (now : Z) : GameRoom.t → GameRoom.t → Prop :=
| turn_over r :
    GameRoom.status r = playing → GameRoom.players r ≠ [] →
    turn_step now r
      (GameRoom.set_lastActivity now (GameRoom.set_status completed r))
| turn_given r i p :
    GameRoom.status r = playing →
    GameRoom.players r !! i = Some p → eligible p →
    turn_step now r
      (GameRoom.set_lastActivity now
         (GameRoom.set_currentPlayerIndex (Z.of_nat i)
            (GameRoom.set_players
               (alter (Player.set_isCurrentTurn true) i
                  (Player.set_isCurrentTurn false <$> GameRoom.players r))
               r))).

(** The room of [removePlayerFromRoom] before its removal test: the
    player at [i] spliced out, or marked, or marked with the turn passed
    on. *)
Inductive leave_step (now : Z) (r : GameRoom.t) (i : nat) (p : Player.t)
    : GameRoom.t → Prop :=
| leave_splice :
    GameRoom.status r ≠ playing →
    leave_step now r i p
      (GameRoom.set_players (delete i (GameRoom.players r)) r)
| leave_mark :
    GameRoom.status r = playing → Player.isCurrentTurn p = false →
    leave_step now r i p (marked_disconnected i p r)
| leave_mark_turn r1 :
    GameRoom.status r = playing → Player.isCurrentTurn p = true →
    turn_step now (marked_disconnected i p r) r1 →
    leave_step now r i p r1.

(** The room after a call that names it, from the room before. *)
Inductive room_step (now : Z) : Op → GameRoom.t → GameRoom.t → Prop :=
| step_getRoom k r :
    room_step now (OpGetRoom k) r (GameRoom.set_lastActivity now r)
| step_join k player r :
    GameRoom.status r = waiting →
    Z.of_nat (length (GameRoom.players r)) < GameRoom.maxPlayers r →
    find_player (Player.id player) (GameRoom.players r) = None →
    room_step now (OpAddPlayerToRoom k player) r
      (GameRoom.set_lastActivity now
         (GameRoom.set_players
            (GameRoom.players r ++
               [Player.mk (Player.id player) (Player.name player)
                  (Player.walletAddress player) 0
                  (GameRoom.shotsPerPlayer r) true false]) r))
| step_rejoin k player r i q :
    GameRoom.status r = waiting →
    Z.of_nat (length (GameRoom.players r)) < GameRoom.maxPlayers r →
    find_player (Player.id player) (GameRoom.players r) = Some (i, q) →
    room_step now (OpAddPlayerToRoom k player) r
      (GameRoom.set_lastActivity now
         (GameRoom.set_players
            (<[i := Player.set_isConnected true
                      (Player.set_shotsRemaining (GameRoom.shotsPerPlayer r)
                         player)]> (GameRoom.players r)) r))
| step_leave k playerId r i p r1 :
    find_player playerId (GameRoom.players r) = Some (i, p) →
    leave_step now r i p r1 → room_gone r1 = false →
    room_step now (OpRemovePlayerFromRoom k playerId) r
      (GameRoom.set_lastActivity now (reassign_host playerId r1))
| step_leave_thrown k playerId r i p :
    find_player playerId (GameRoom.players r) = Some (i, p) →
    GameRoom.status r = playing → Player.isCurrentTurn p = true →
    room_step now (OpRemovePlayerFromRoom k playerId) r
      (marked_disconnected i p r)
| step_updatePlayer k updatedPlayer r i q :
    find_player (Player.id updatedPlayer) (GameRoom.players r) = Some (i, q) →
    room_step now (OpUpdatePlayerInRoom k updatedPlayer) r
      (GameRoom.set_lastActivity now
         (GameRoom.set_players
            (<[i := updatedPlayer]> (GameRoom.players r)) r))
| step_updateRoom k updates r :
    room_step now (OpUpdateRoom k updates) r
      (GameRoom.mk
         (default (GameRoom.id r) (RoomUpdates.id updates))
         (default (GameRoom.name r) (RoomUpdates.name updates))
         (default (GameRoom.hostId r) (RoomUpdates.hostId updates))
         (default (GameRoom.players r) (RoomUpdates.players updates))
         (default (GameRoom.maxPlayers r) (RoomUpdates.maxPlayers updates))
         (default (GameRoom.status r) (RoomUpdates.status updates))
         (default (GameRoom.currentPlayerIndex r)
            (RoomUpdates.currentPlayerIndex updates))
         (default (GameRoom.shotsPerPlayer r)
            (RoomUpdates.shotsPerPlayer updates))
         (default (GameRoom.rewardAmount r) (RoomUpdates.rewardAmount updates))
         (default (GameRoom.created r) (RoomUpdates.created updates))
         now)
| step_start k r :
    (2 ≤ length (GameRoom.players r))%nat →
    room_step now (OpStartGame k) r
      (GameRoom.set_lastActivity now
         (GameRoom.set_players
            (imap (λ i p, Player.set_isCurrentTurn (bool_decide (i = 0%nat)) p)
               (GameRoom.players r))
            (GameRoom.set_currentPlayerIndex 0
               (GameRoom.set_status playing r))))
| step_nextTurn k r r' :
    turn_step now r r' → room_step now (OpNextTurn k) r r'
| step_score k playerId s r i p :
    find_player playerId (GameRoom.players r) = Some (i, p) →
    Player.isCurrentTurn p = true →
    room_step now (OpUpdatePlayerScore k playerId s) r
      (GameRoom.set_lastActivity now
         (GameRoom.set_players
            (<[i := Player.set_shotsRemaining
                      (js_add (Player.shotsRemaining p) (-1))
                      (Player.set_score (js_add (Player.score p) s) p)]>
               (GameRoom.players r)) r))
| step_reset k r p0 rest :
    GameRoom.players r = p0 :: rest →
    room_step now (OpResetGame k) r
      (GameRoom.set_lastActivity now
         (GameRoom.set_players
            (Player.set_isCurrentTurn true
               (Player.set_shotsRemaining (GameRoom.shotsPerPlayer r)
                  (Player.set_score 0 p0))
             :: (Player.set_isCurrentTurn false <$>
                   ((λ p, Player.set_shotsRemaining (GameRoom.shotsPerPlayer r)
                            (Player.set_score 0 p)) <$> rest)))
            (GameRoom.set_currentPlayerIndex 0
               (GameRoom.set_status waiting r))))
| step_reset_thrown k r :
    GameRoom.players r = [] →
    room_step now (OpResetGame k) r
      (GameRoom.set_currentPlayerIndex 0 (GameRoom.set_status waiting r)).

(** Every call but [updateRoom]. *)
Definition checked_op (st : Store) (op : Op) : Prop :=
  match op with
  | OpUpdateRoom _ _ => False
  | _ => True
  end.

(** The ids of the players of a room, in list order. *)
Definition player_ids (r : GameRoom.t) : list string :=
  Player.id <$> GameRoom.players r.

(** The fields of a room that only [updateRoom] writes after
    [createRoom]. *)
Definition same_settings (r r' : GameRoom.t) : Prop :=
  GameRoom.id r' = GameRoom.id r ∧
  GameRoom.name r' = GameRoom.name r ∧
  GameRoom.maxPlayers r' = GameRoom.maxPlayers r ∧
  GameRoom.shotsPerPlayer r' = GameRoom.shotsPerPlayer r ∧
  GameRoom.rewardAmount r' = GameRoom.rewardAmount r ∧
  GameRoom.created r' = GameRoom.created r.

(** [q'] is the player [q] with the same progress: same id, name, wallet,
    score and [shotsRemaining]. *)
Definition same_seat (q q' : Player.t) : Prop :=
  Player.id q' = Player.id q ∧
  Player.name q' = Player.name q ∧
  Player.walletAddress q' = Player.walletAddress q ∧
  Player.score q' = Player.score q ∧
  Player.shotsRemaining q' = Player.shotsRemaining q.

(** A room that its host has just created, and that room written out. *)
Definition created_room : Store :=
  run [] (OpCreateRoom "R" "A" "A" "G" "room" 4 1 10000000 1) 1.

Definition created_room_R : GameRoom.t :=
  GameRoom.mk "R" "room" "A" [Player.mk "A" "A" "G" 0 1 true true]
    4 waiting 0 1 10000000 1 1.

(** Updates that only give another id. *)
Definition rename_to (i : string) : RoomUpdates.t :=
  RoomUpdates.mk (Some i) None None None None None None None None None None.

(** ** The HTTP routes of [RoomAPI.registerRoutes]

    A route reads its request, calls the coordinator and answers with
    [res.status(code).json(...)], [{ success: true, data }] or
    [{ success: false, error }]; [res.json] alone answers 200.  The
    coordinator is the one store of the process, so a route is a function
    of the store.  A field of the request body is a string (a number for
    [score]) or absent.  Each coordinator call reads the clock itself:
    [t1], [t2], [t3] are those reads in order.  A throw inside the [try]
    is answered 500 with the message of the error, [message]. *)

Inductive Response (A : Type) :=
| Success (code : Z) (data : A)
| Failure (code : Z) (error : string).
Arguments Success {A} code data.
Arguments Failure {A} code error.

(** A string field that passes the test [!field] of the validations:
    present and not empty. *)
Definition given (field : option string) : option string :=
  match field with
  | Some s => if bool_decide (s = EmptyString) then None else Some s
  | None => None
  end.

(** [POST /api/rooms/:roomId/join] *)
Definition joinRoute (st : Store) (roomId : string)
    (playerId playerName walletAddress : option string)
    (t1 t2 t3 : Z) (message : string)
    : Store * Response (option GameRoom.t) :=
  match given playerId, given playerName, given walletAddress with
  | Some playerId, Some playerName, Some walletAddress =>
      match getRoom st roomId t1 with
      | (st1, None) => (st1, Failure 404 "Room not found")
      | (st1, Some room) =>
          let player :=
            Player.mk playerId playerName walletAddress 0
              (GameRoom.shotsPerPlayer room) true false in
          match addPlayerToRoom st1 roomId player t2 with
          | (st2, Returned true) =>
              let '(st3, updatedRoom) := getRoom st2 roomId t3 in
              (st3, Success 200 updatedRoom)
          | (st2, Returned false) => (st2, Failure 400 "Failed to join room")
          | (st2, Thrown) => (st2, Failure 500 message)
          end
      end
  | _, _, _ => (st, Failure 400 "Missing required fields")
  end.

(** [POST /api/rooms/:roomId/leave] *)
Definition leaveRoute (st : Store) (roomId : string)
    (playerId : option string) (t1 t2 : Z) (message : string)
    : Store * Response (option GameRoom.t) :=
  match given playerId with
  | Some playerId =>
      match removePlayerFromRoom st roomId playerId t1 with
      | (st1, Returned true) =>
          let '(st2, updatedRoom) := getRoom st1 roomId t2 in
          (st2, Success 200 updatedRoom)
      | (st1, Returned false) => (st1, Failure 404 "Room or player not found")
      | (st1, Thrown) => (st1, Failure 500 message)
      end
  | None => (st, Failure 400 "Missing player ID")
  end.

(** [POST /api/rooms/:roomId/score] *)
Definition scoreRoute (st : Store) (roomId : string)
    (playerId : option string) (score : option Z) (t1 t2 : Z)
    (message : string) : Store * Response (option GameRoom.t) :=
  match given playerId, score with
  | Some playerId, Some score =>
      match updatePlayerScore st roomId playerId score t1 with
      | (st1, Returned true) =>
          let '(st2, updatedRoom) := getRoom st1 roomId t2 in
          (st2, Success 200 updatedRoom)
      | (st1, Returned false) => (st1, Failure 404 "Failed to update score")
      | (st1, Thrown) => (st1, Failure 500 message)
      end
  | _, _ => (st, Failure 400 "Missing required fields")
  end.

(** ** Sums of doubles *)


Lemma round_double_nonneg z : 0 ≤ z → 0 ≤ round_double z.
Proof.
  intros Hz. unfold round_double. cbv zeta.
  destruct (_ <=? 0); [done|].
  rewrite Z.abs_eq by done.
  set (u := 2 ^ _).
  assert (0 ≤ u) by (apply Z.pow_nonneg; lia).
  assert (0 ≤ z / u) by (apply Z_div_nonneg_nonneg; lia).
  assert (0 ≤ Z.sgn z) by lia.
  repeat case_match; nia.
Qed.

(** Beyond 53 bits [round_double z] is a multiple of the weight [u] of
    the last leading bit, the one below [z] or the one above. *)
Lemma round_double_large z :
  0 ≤ z → 0 < Z.log2 z - 52 →
  let u := 2 ^ (Z.log2 z - 52) in
  ∃ q', round_double z = q' * u ∧
        z / u ≤ q' ≤ z / u + 1 ∧ (z mod u = 0 → q' = z / u).
Proof.
  intros Hz He u. unfold round_double. cbv zeta.
  rewrite Z.abs_eq by done. fold u.
  rewrite (proj2 (Z.leb_gt _ _)) by lia.
  assert (0 < z) as Hpos.
  { destruct (decide (0 < z)); [done|]. rewrite Z.log2_nonpos in He by lia. lia. }
  assert (0 < u) as Hu by (apply Z.pow_pos_nonneg; lia).
  rewrite Z.sgn_pos by done.
  eexists. split; [apply Z.mul_1_l|].
  destruct (2 * (z mod u) <? u) eqn:Hlow; [split; [lia|done]|].
  apply Z.ltb_ge in Hlow.
  assert (z mod u ≠ 0) by lia.
  repeat case_match; split; lia.
Qed.

(** Rounding does not pass a double. *)
Lemma round_double_le_double z a :
  0 ≤ z ≤ a → round_double a = a → round_double z ≤ a.
Proof.
  intros Hz Ha.
  destruct (decide (Z.log2 z - 52 ≤ 0)) as [He|He].
  { unfold round_double. cbv zeta. rewrite Z.abs_eq by lia.
    rewrite (proj2 (Z.leb_le _ _)) by done. lia. }
  destruct (round_double_large z ltac:(lia) ltac:(lia))
    as (q' & -> & Hq' & Hexact).
  pose proof (Z.log2_le_mono z a ltac:(lia)) as Hlog.
  destruct (round_double_large a ltac:(lia) ltac:(lia)) as (k & Hk & _).
  rewrite Ha in Hk.
  set (e := Z.log2 z - 52) in *. set (ea := Z.log2 a - 52) in *.
  assert (2 ^ ea = 2 ^ (ea - e) * 2 ^ e) as Hpow
    by (rewrite <- Z.pow_add_r by lia; f_equal; lia).
  set (u := 2 ^ e) in *.
  assert (0 < u) as Hu by (apply Z.pow_pos_nonneg; lia).
  set (k' := k * 2 ^ (ea - e)).
  assert (a = k' * u) as Hak by (unfold k'; rewrite Hk, Hpow; lia).
  pose proof (Z.div_mod z u ltac:(lia)) as Hdm.
  pose proof (Z.mod_pos_bound z u Hu) as Hr.
  destruct (decide (z mod u = 0)) as [H0|H0].
  - rewrite (Hexact H0). nia.
  - assert (z / u < k') by nia. nia.
Qed.

Lemma is_double_round z : is_double z = true → round_double z = z.
Proof. unfold is_double. intros [H _]%andb_true_iff. by apply Z.eqb_eq. Qed.




Lemma js_add_nonneg a b : 0 ≤ a + b → 0 ≤ js_add a b.
Proof.
  intros H. unfold js_add. destruct (_ && _); [|done].
  by apply round_double_nonneg.
Qed.

(** [x--] on a number that is at least 1 gives a number from 0 to [x]. *)
Lemma js_decrement_bounds a : 1 ≤ a → 0 ≤ js_add a (-1) ≤ a.
Proof.
  intros Ha. split; [apply js_add_nonneg; lia|].
  unfold js_add. destruct (is_double a && is_double (-1)) eqn:Hd; [|lia].
  apply andb_true_iff in Hd as [Hd _].
  apply round_double_le_double; [lia|]. by apply is_double_round.
Qed.

(** [x + 1] on a number that is not negative is at least 1. *)
Lemma js_increment_pos c : 0 ≤ c → 1 ≤ js_add c 1.
Proof.
  intros Hc. unfold js_add. destruct (_ && _); [|lia].
  destruct (decide (Z.log2 (c + 1) - 52 ≤ 0)) as [He|He].
  { unfold round_double. cbv zeta. rewrite Z.abs_eq by lia.
    rewrite (proj2 (Z.leb_le _ _)) by done. lia. }
  destruct (round_double_large (c + 1) ltac:(lia) ltac:(lia))
    as (q' & -> & Hq' & _).
  set (u := 2 ^ _) in *.
  assert (0 < u) as Hu by (apply Z.pow_pos_nonneg; lia).
  assert (u ≤ c + 1).
  { unfold u. etransitivity; [|apply (proj1 (Z.log2_spec (c + 1) ltac:(lia)))].
    apply Z.pow_le_mono_r; lia. }
  assert (1 ≤ (c + 1) / u) by (apply Z.div_le_lower_bound; lia).
  nia.
Qed.
(** ** The store operations *)

Section StoreLemmas.
Implicit Types (st : Store) (k : string) (r : GameRoom.t).

Lemma rooms_get_set_eq st k r : rooms_get (rooms_set st k r) k = Some r.
Proof.
  induction st as [|[k' r'] st IH]; simpl.
  - by rewrite decide_True.
  - destruct (decide (k' = k)) as [->|Hne]; simpl.
    + by rewrite decide_True.
    + by rewrite decide_False.
Qed.

Lemma rooms_get_set_ne st k k' r :
  k ≠ k' → rooms_get (rooms_set st k r) k' = rooms_get st k'.
Proof.
  intros Hne. induction st as [|[k0 r0] st IH]; simpl.
  - by rewrite decide_False.
  - destruct (decide (k0 = k)) as [->|Hk0]; simpl.
    + by rewrite !decide_False.
    + by rewrite IH.
Qed.

Lemma rooms_get_values st k r : rooms_get st k = Some r → r ∈ rooms_values st.
Proof.
  induction st as [|[k0 r0] st IH]; simpl; [done|].
  destruct (decide (k0 = k)).
  - intros [= ->]. apply list_elem_of_here.
  - intros H. apply list_elem_of_further. by apply IH.
Qed.

Lemma store_all_get P st k r : store_all P st → rooms_get st k = Some r → P r.
Proof.
  intros Hall Hget. eapply Forall_forall in Hall; [done|].
  by eapply rooms_get_values.
Qed.

Lemma store_all_set P st k r :
  store_all P st → P r → store_all P (rooms_set st k r).
Proof.
  unfold store_all, rooms_values. intros Hall Hr.
  induction st as [|[k0 r0] st IH]; simpl.
  - by constructor.
  - apply Forall_cons in Hall as [H0 Hall].
    destruct (decide (k0 = k)); simpl; constructor; auto.
Qed.

Lemma rooms_get_delete_eq st k : rooms_get (rooms_delete st k) k = None.
Proof.
  induction st as [|[k0 r0] st IH]; simpl; [done|].
  destruct (decide (k0 = k)); simpl; [done|]. by rewrite decide_False.
Qed.

Lemma rooms_get_delete_ne st k k' :
  k ≠ k' → rooms_get (rooms_delete st k) k' = rooms_get st k'.
Proof.
  intros Hne. induction st as [|[k0 r0] st IH]; simpl; [done|].
  destruct (decide (k0 = k)) as [->|]; simpl.
  - by rewrite decide_False.
  - by rewrite IH.
Qed.

Lemma rooms_delete_set st k r :
  rooms_delete (rooms_set st k r) k = rooms_delete st k.
Proof.
  induction st as [|[k0 r0] st IH]; simpl.
  - by rewrite decide_True.
  - destruct (decide (k0 = k)) as [->|Hne]; simpl.
    + by rewrite decide_True.
    + by rewrite decide_False, IH.
Qed.

Lemma store_all_delete P st k : store_all P st → store_all P (rooms_delete st k).
Proof.
  unfold store_all, rooms_values. intros Hall.
  induction st as [|[k0 r0] st IH]; simpl; [done|].
  apply Forall_cons in Hall as [H0 Hall].
  destruct (decide (k0 = k)); simpl; [auto|]. constructor; auto.
Qed.

Lemma store_all_removeRoom P st k :
  store_all P st → store_all P (removeRoom st k).1.
Proof.
  intros Hall. unfold removeRoom.
  destruct (rooms_get st k); simpl; [by apply store_all_delete|done].
Qed.

Lemma store_all_cleanup P st now :
  store_all P st → store_all P (cleanupInactiveRooms st now).
Proof.
  unfold cleanupInactiveRooms. generalize st at 2.
  intros entries. revert st.
  induction entries as [|e entries IH]; intros st Hall; simpl; [done|].
  apply IH. case_match; [by apply store_all_removeRoom|done].
Qed.
End StoreLemmas.

(** The player that [find_player] returns. *)
Lemma find_player_Some playerId ps i p :
  find_player playerId ps = Some (i, p) →
  ps !! i = Some p ∧ Player.id p = playerId ∧
  ∀ j q, ps !! j = Some q → (j < i)%nat → Player.id q ≠ playerId.
Proof. unfold find_player. intros H. by apply list_find_Some in H. Qed.

Lemma find_player_None playerId ps :
  find_player playerId ps = None ↔ ∀ p, p ∈ ps → Player.id p ≠ playerId.
Proof.
  unfold find_player. rewrite list_find_None, Forall_forall. done.
Qed.


(** ** Recording a score: [updatePlayerScore] *)


Lemma updatePlayerScore_inv st roomId playerId s now st' b :
  updatePlayerScore st roomId playerId s now = (st', Returned b) →
  (b = false ∧ st' = st) ∨
  (b = true ∧ ∃ room i p,
     rooms_get st roomId = Some room ∧
     find_player playerId (GameRoom.players room) = Some (i, p) ∧
     Player.isCurrentTurn p = true).
Proof.
  unfold updatePlayerScore.
  destruct (rooms_get st roomId) as [room|] eqn:Hget;
    [|intros [= <- <-]; by left].
  destruct (find_player playerId (GameRoom.players room)) as [[i p]|] eqn:Hfind;
    [|intros [= <- <-]; by left].
  destruct (Player.isCurrentTurn p) eqn:Hturn; simpl;
    [|intros [= <- <-]; by left].
  intros [= <- <-]. right. split; [done|]. by exists room, i, p.
Qed.


(** C7: [updatePlayerScore] for an unknown room, for a player id that no
    player of the room has, or for a player whose [isCurrentTurn] is
    false returns [false] and leaves the whole store as it was
    ([lastActivity] included). *)
Theorem updatePlayerScore_failure_mutates_nothing st roomId playerId s now :
  (rooms_get st roomId = None ∨
   (∃ room, rooms_get st roomId = Some room ∧
      ∀ p, p ∈ GameRoom.players room → Player.id p ≠ playerId) ∨
   (∃ room i p, rooms_get st roomId = Some room ∧
      find_player playerId (GameRoom.players room) = Some (i, p) ∧
      Player.isCurrentTurn p = false)) →
  updatePlayerScore st roomId playerId s now = (st, Returned false).
Proof.
  unfold updatePlayerScore.
  intros [Hget|[(room & Hget & Hnone)|(room & i & p & Hget & Hfind & Hturn)]].
  - by rewrite Hget.
  - apply find_player_None in Hnone. by rewrite Hget, Hnone.
  - by rewrite Hget, Hfind, Hturn.
Qed.



(** ** [resetGame] *)

(** C9: [resetGame] on a room of the store, whatever its status, leaves
    every player with score 0 and [shotsRemaining] equal to the room's
    [shotsPerPlayer], the room [waiting] with [currentPlayerIndex] 0, and
    [isCurrentTurn] set for the player at index 0 and for no other; with
    at least one player the call returns [true]. *)
Theorem resetGame_restores st roomId now room :
  rooms_get st roomId = Some room →
  ∃ room',
    rooms_get (resetGame st roomId now).1 roomId = Some room' ∧
    Forall (λ p, Player.score p = 0 ∧
                 Player.shotsRemaining p = GameRoom.shotsPerPlayer room)
      (GameRoom.players room') ∧
    GameRoom.status room' = waiting ∧
    GameRoom.currentPlayerIndex room' = 0 ∧
    (∀ i p, GameRoom.players room' !! i = Some p →
            Player.isCurrentTurn p = bool_decide (i = 0%nat)) ∧
    GameRoom.shotsPerPlayer room' = GameRoom.shotsPerPlayer room ∧
    length (GameRoom.players room') = length (GameRoom.players room) ∧
    (GameRoom.players room ≠ [] →
     (resetGame st roomId now).2 = Returned true).
Proof.
  intros Hget. unfold resetGame. rewrite Hget.
  destruct (GameRoom.players room) as [|p0 rest] eqn:Hps; simpl.
  - eexists. split; [apply rooms_get_set_eq|]. simpl.
    split_and!; done.
  - eexists. split; [apply rooms_get_set_eq|]. simpl.
    split_and!; try done.
    + constructor; [done|]. rewrite <- !list_fmap_compose.
      apply Forall_fmap, Forall_true. done.
    + intros [|i] p; simpl.
      * by intros [= <-].
      * rewrite <- list_fmap_compose, list_lookup_fmap.
        destruct (rest !! i); simpl; [|done]. by intros [= <-].
    + by rewrite !length_fmap.
Qed.

(** ** [removePlayerFromRoom] *)

Lemma forallb_disconnected ps :
  forallb (λ p, negb (Player.isConnected p)) ps = true ↔
  Forall (λ q, Player.isConnected q = false) ps.
Proof.
  rewrite forallb_forall, Forall_forall. split; intros H q Hq.
  - apply list_elem_of_In, H in Hq. by destruct (Player.isConnected q).
  - apply list_elem_of_In, H in Hq. by rewrite Hq.
Qed.

Lemma removed_id_gone playerId ps i p :
  NoDup (Player.id <$> ps) → find_player playerId ps = Some (i, p) →
  ∀ q, q ∈ delete i ps → Player.id q = playerId → False.
Proof.
  intros Hnodup (Hi & Hid & _)%find_player_Some q [j Hj]%list_elem_of_lookup_1 Hq.
  assert (∃ j', j' ≠ i ∧ ps !! j' = Some q) as (j' & Hne & Hj').
  { destruct (decide (j < i)%nat).
    - exists j. split; [lia|]. by rewrite list_lookup_delete_lt in Hj.
    - exists (S j). split; [lia|]. by rewrite list_lookup_delete_ge in Hj by lia. }
  apply Hne. eapply (NoDup_lookup _ _ _ _ Hnodup).
  - by rewrite list_lookup_fmap, Hj'; simpl; rewrite Hq.
  - by rewrite list_lookup_fmap, Hi; simpl; rewrite Hid.
Qed.

(** C8: on a room that is not [playing], [removePlayerFromRoom] takes the
    named player (the first with that id) out of [players]; with player
    ids unique in the room, no player with that id is left.  If nobody is
    left, or nobody left is connected, the room is deleted from the
    store (no room is left under that id).  Otherwise the room stays with the remaining players, and when
    the leaver was the host [hostId] becomes the id of the first
    remaining connected player (it is unchanged when the leaver was not
    the host).  When host [H] leaves a room with players [H; P], the
    outcome depends on [P]: with [P] connected the room keeps [P] alone
    and [P] is the host; with [P] disconnected (a player who left during
    a game that was then reset) the room is deleted. *)
Theorem removePlayerFromRoom_not_playing :
  (∀ st roomId playerId now room i p,
     rooms_get st roomId = Some room →
     GameRoom.status room ≠ playing →
     find_player playerId (GameRoom.players room) = Some (i, p) →
     let rest := delete i (GameRoom.players room) in
     ∃ st',
       removePlayerFromRoom st roomId playerId now = (st', Returned true) ∧
       (NoDup (Player.id <$> GameRoom.players room) →
        ∀ q, q ∈ rest → Player.id q ≠ playerId) ∧
       (rest = [] ∨ Forall (λ q, Player.isConnected q = false) rest →
        st' = rooms_delete st roomId ∧ rooms_get st' roomId = None) ∧
       (Exists (λ q, Player.isConnected q = true) rest →
        ∃ room',
          rooms_get st' roomId = Some room' ∧
          GameRoom.players room' = rest ∧
          GameRoom.status room' = GameRoom.status room ∧
          (playerId ≠ GameRoom.hostId room →
           GameRoom.hostId room' = GameRoom.hostId room) ∧
          (playerId = GameRoom.hostId room →
           ∃ j q, rest !! j = Some q ∧ Player.isConnected q = true ∧
                  (∀ j' q', rest !! j' = Some q' → (j' < j)%nat →
                            Player.isConnected q' = false) ∧
                  GameRoom.hostId room' = Player.id q))) ∧
  (∀ st roomId now room H P,
     rooms_get st roomId = Some room →
     GameRoom.status room ≠ playing →
     GameRoom.players room = [H; P] →
     GameRoom.hostId room = Player.id H →
     Player.isConnected P = true →
     ∃ st' room',
       removePlayerFromRoom st roomId (Player.id H) now = (st', Returned true) ∧
       rooms_get st' roomId = Some room' ∧
       GameRoom.players room' = [P] ∧
       GameRoom.hostId room' = Player.id P) ∧
  (∀ st roomId now room H P,
     rooms_get st roomId = Some room →
     GameRoom.status room ≠ playing →
     GameRoom.players room = [H; P] →
     GameRoom.hostId room = Player.id H →
     Player.isConnected P = false →
     removePlayerFromRoom st roomId (Player.id H) now =
       (rooms_delete st roomId, Returned true) ∧
     rooms_get (rooms_delete st roomId) roomId = None).
Proof.
  split_and!.
  - intros st roomId playerId now room i p Hget Hstatus Hfind rest.
    unfold removePlayerFromRoom. rewrite Hget, Hfind.
    rewrite bool_decide_eq_false_2 by done.
    rewrite rooms_get_set_eq. simpl. fold rest.
    assert (NoDup (Player.id <$> GameRoom.players room) →
            ∀ q, q ∈ rest → Player.id q ≠ playerId) as Hgone'.
    { intros Hnodup q Hq Hid. by apply (removed_id_gone _ _ _ _ Hnodup Hfind q). }
    destruct (bool_decide (length rest = 0%nat)
              || forallb (λ p, negb (Player.isConnected p)) rest) eqn:Hgone.
    + eexists. split; [done|]. split; [done|]. split.
      * intros _. unfold removeRoom. rewrite rooms_get_set_eq. simpl.
        split; [apply rooms_delete_set|]. apply rooms_get_delete_eq.
      * intros Hex. exfalso. apply orb_true_iff in Hgone as [Hlen|Hall].
        -- apply bool_decide_eq_true_1, nil_length_inv in Hlen.
           rewrite Hlen in Hex. by apply Exists_nil in Hex.
        -- apply forallb_disconnected in Hall.
           apply Exists_exists in Hex as (q & Hq & Hcon).
           eapply Forall_forall in Hall; [|done]. congruence.
    + apply orb_false_iff in Hgone as [Hlen Hall].
      apply bool_decide_eq_false_1 in Hlen.
      eexists. split; [done|]. split; [done|]. split.
      * intros [Hnil|Hdis]; exfalso.
        -- by rewrite Hnil in Hlen.
        -- apply forallb_disconnected in Hdis. congruence.
      * intros _. eexists. split; [apply rooms_get_set_eq|].
        destruct (decide (playerId = GameRoom.hostId room)) as [Hhost|Hhost].
        -- rewrite bool_decide_eq_true_2 by done.
           assert ((0 <? Z.of_nat (length rest)) = true) as ->
             by (apply Z.ltb_lt; lia).
           simpl.
           destruct (list_find (λ p, Player.isConnected p = true) rest)
             as [[j q]|] eqn:Hfirst.
           ++ apply list_find_Some in Hfirst as (Hj & Hq & Hbefore).
              split_and!; try done.
              intros _. exists j, q. split_and!; try done.
              intros j' q' Hj' Hlt. specialize (Hbefore j' q' Hj' Hlt).
              by destruct (Player.isConnected q').
           ++ exfalso. apply list_find_None in Hfirst.
              assert (forallb (λ p, negb (Player.isConnected p)) rest = true);
                [|congruence].
              apply forallb_disconnected.
              eapply Forall_impl; [done|]. simpl. intros q Hq.
              by destruct (Player.isConnected q).
        -- rewrite bool_decide_eq_false_2 by done. simpl.
           split_and!; done.
  - intros st roomId now room H P Hget Hstatus Hps Hhost HP.
    unfold removePlayerFromRoom. rewrite Hget, Hps.
    unfold find_player. simpl. rewrite decide_True by done. simpl.
    rewrite bool_decide_eq_false_2 by done.
    rewrite rooms_get_set_eq. simpl. rewrite HP. simpl.
    rewrite bool_decide_eq_true_2 by done. simpl.
    eexists _, _. split; [done|]. split; [apply rooms_get_set_eq|]. done.
  - intros st roomId now room H P Hget Hstatus Hps Hhost HP.
    unfold removePlayerFromRoom. rewrite Hget, Hps.
    unfold find_player. simpl. rewrite decide_True by done. simpl.
    rewrite bool_decide_eq_false_2 by done.
    rewrite rooms_get_set_eq. simpl. rewrite HP. simpl.
    unfold removeRoom. rewrite rooms_get_set_eq. simpl.
    rewrite rooms_delete_set. split; [done|]. apply rooms_get_delete_eq.
Qed.

(** ** [getWinner] *)

Lemma winner_inv_step ps acc x :
  winner_inv ps acc → winner_inv (ps ++ [x]) (winner_step acc x).
Proof.
  destruct acc as [h w]. unfold winner_inv, winner_step. simpl.
  intros Hinv.
  assert (Forall (λ q, Player.score q ≤ h) ps) as Hle.
  { destruct w as [w|].
    - destruct Hinv as (-> & _ & i & _ & Hmax & _).
      apply Forall_forall. auto.
    - destruct Hinv as (-> & Hall). done. }
  destruct (h <? Player.score x) eqn:Hlt.
  - apply Z.ltb_lt in Hlt. simpl. split; [done|]. split.
    + destruct w as [w|]; [destruct Hinv as (-> & ? & _)|destruct Hinv as (-> & _)]; lia.
    + exists (length ps). split_and!.
      * by rewrite lookup_app_r, Nat.sub_diag by lia.
      * intros q [Hq|Hq%list_elem_of_singleton]%elem_of_app.
        -- eapply Forall_forall in Hle; [|done]. simpl in Hle. lia.
        -- subst q. lia.
      * intros j q Hj Hjlt. rewrite lookup_app_l in Hj by done.
        apply list_elem_of_lookup_2 in Hj.
        eapply Forall_forall in Hle; [|done]. simpl in Hle. lia.
  - apply Z.ltb_ge in Hlt.
    assert (winner_inv (ps ++ [x]) (h, w)) as Hkeep.
    { unfold winner_inv. simpl. destruct w as [w|].
      - destruct Hinv as (-> & Hpos & i & Hi & Hmax & Hfirst).
        split; [done|]. split; [done|]. exists i. split_and!.
        + apply lookup_app_l_Some. done.
        + intros q [Hq|Hq%list_elem_of_singleton]%elem_of_app; [auto|by subst q].
        + intros j q Hj Hjlt. apply Hfirst with j; [|done].
          rewrite lookup_app_l in Hj; [done|].
          apply lookup_lt_Some in Hi. lia.
      - destruct Hinv as (-> & Hall). split; [done|].
        apply Forall_app. split; [done|]. by constructor. }
    destruct ((Player.score x =? h) && (0 <? h)) eqn:Htie; [|done].
    destruct w as [w|]; [done|].
    exfalso. destruct Hinv as (-> & _).
    by apply andb_true_iff in Htie as [_ ?].
Qed.

Lemma winner_inv_fold ps : ∀ done_ acc,
  winner_inv done_ acc →
  winner_inv (done_ ++ ps) (fold_left winner_step ps acc).
Proof.
  induction ps as [|x ps IH]; intros done_ acc Hinv; simpl.
  - by rewrite app_nil_r.
  - replace (done_ ++ x :: ps) with ((done_ ++ [x]) ++ ps)
      by (by rewrite <- app_assoc).
    apply IH. by apply winner_inv_step.
Qed.

Lemma getWinner_completed st roomId room :
  rooms_get st roomId = Some room → GameRoom.status room = completed →
  winner_inv (GameRoom.players room)
    (fold_left winner_step (GameRoom.players room) (-1, None)) ∧
  getWinner st roomId =
    (fold_left winner_step (GameRoom.players room) (-1, None)).2.
Proof.
  intros Hget Hst. split.
  - apply (winner_inv_fold (GameRoom.players room) [] (-1, None)).
    unfold winner_inv. simpl. split; [done|constructor].
  - unfold getWinner. rewrite Hget, Hst. done.
Qed.

(** C1, as the code has it: [getWinner] returns no winner when the room
    is unknown or its status is not [completed].  On a completed room it
    returns the player with the highest score, the first in list order
    among those who have it, provided that score is above -1; a highest
    score of 0 is such a score, so with every score at 0 the first
    player is returned.  It returns no winner only when every score is
    -1 or less (or there is no player).  A(30), B(30), C(10) gives A. *)
Theorem getWinner_first_highest :
  (∀ st roomId,
     (rooms_get st roomId = None ∨
      ∃ room, rooms_get st roomId = Some room ∧
              GameRoom.status room ≠ completed) →
     getWinner st roomId = None) ∧
  (∀ st roomId room,
     rooms_get st roomId = Some room → GameRoom.status room = completed →
     match getWinner st roomId with
     | Some w => -1 < Player.score w ∧ ∃ i, first_max (GameRoom.players room) i w
     | None => Forall (λ q, Player.score q ≤ -1) (GameRoom.players room)
     end) ∧
  (∀ st roomId room p0 rest,
     rooms_get st roomId = Some room → GameRoom.status room = completed →
     GameRoom.players room = p0 :: rest →
     Forall (λ q, Player.score q = 0) (p0 :: rest) →
     getWinner st roomId = Some p0) ∧
  (∀ st roomId room A B C,
     rooms_get st roomId = Some room → GameRoom.status room = completed →
     GameRoom.players room = [A; B; C] →
     Player.score A = 30 → Player.score B = 30 → Player.score C = 10 →
     getWinner st roomId = Some A).
Proof.
  split_and!.
  - intros st roomId [Hget|(room & Hget & Hst)]; unfold getWinner; rewrite Hget.
    + done.
    + by rewrite bool_decide_eq_false_2.
  - intros st roomId room Hget Hst.
    destruct (getWinner_completed _ _ _ Hget Hst) as [Hinv ->].
    unfold winner_inv in Hinv.
    destruct (fold_left winner_step (GameRoom.players room) (-1, None)).2.
    + by destruct Hinv as (_ & ? & ?).
    + by destruct Hinv.
  - intros st roomId room p0 rest Hget Hst Hps Hzero.
    destruct (getWinner_completed _ _ _ Hget Hst) as [Hinv ->].
    unfold winner_inv in Hinv. rewrite Hps in Hinv |- *.
    destruct (fold_left winner_step (p0 :: rest) (-1, None)).2 as [w|].
    + destruct Hinv as (_ & _ & i & Hi & _ & Hfirst).
      destruct i as [|i]; [simpl in Hi; congruence|].
      exfalso. specialize (Hfirst 0%nat p0 eq_refl ltac:(lia)).
      apply list_elem_of_lookup_2 in Hi.
      eapply Forall_forall in Hi; [|exact Hzero].
      apply Forall_cons in Hzero as [H0 _]. simpl in *. lia.
    + destruct Hinv as (_ & Hall). apply Forall_cons in Hall as [Hneg _].
      apply Forall_cons in Hzero as [H0 _]. lia.
  - intros st roomId room A B C Hget Hst Hps HA HB HC.
    unfold getWinner. rewrite Hget, Hst, Hps. simpl.
    unfold winner_step. rewrite HA. simpl. rewrite HB. simpl. rewrite HC. done.
Qed.

(** ** [getActiveRooms] *)

Lemma insert_newest_first_perm a l : insert_newest_first a l ≡ₚ a :: l.
Proof.
  induction l as [|b l IH]; simpl; [done|].
  case_match; [done|]. rewrite IH. apply Permutation_swap.
Qed.

Lemma sort_newest_first_perm l : sort_newest_first l ≡ₚ l.
Proof.
  induction l as [|a l IH]; simpl; [done|].
  by rewrite insert_newest_first_perm, IH.
Qed.

Lemma insert_newest_first_sorted a l :
  StronglySorted newest_first l →
  StronglySorted newest_first (insert_newest_first a l).
Proof.
  induction 1 as [|b l Hl IH Hb]; simpl.
  - repeat constructor.
  - destruct (GameRoom.created b <=? GameRoom.created a) eqn:Hle.
    + apply Z.leb_le in Hle. constructor; [by constructor|].
      constructor; [done|].
      eapply Forall_impl; [exact Hb|]. unfold newest_first. simpl. lia.
    + apply Z.leb_gt in Hle. constructor; [done|].
      rewrite insert_newest_first_perm. constructor; [|done].
      unfold newest_first. lia.
Qed.

Lemma sort_newest_first_sorted l :
  StronglySorted newest_first (sort_newest_first l).
Proof.
  induction l as [|a l IH]; simpl; [constructor|].
  by apply insert_newest_first_sorted.
Qed.

Lemma is_active_spec now r :
  is_active now r = true ↔
  GameRoom.status r = waiting ∨
  (GameRoom.status r = playing ∧
   now - GameRoom.lastActivity r < maxInactiveTime).
Proof.
  unfold is_active.
  rewrite orb_true_iff, andb_true_iff, !bool_decide_eq_true, Z.ltb_lt. done.
Qed.

(** C2, as the code has it: [getActiveRooms] returns exactly the rooms
    whose status is [waiting], plus those whose status is [playing] and
    whose [lastActivity] is less than 24 hours in the past, each as often
    as the store holds it, newest [created] first.  A [completed] room is
    never returned. *)
Theorem getActiveRooms_waiting_or_recent_playing st now :
  (∀ r, r ∈ getActiveRooms st now ↔
        r ∈ rooms_values st ∧
        (GameRoom.status r = waiting ∨
         (GameRoom.status r = playing ∧
          now - GameRoom.lastActivity r < maxInactiveTime))) ∧
  getActiveRooms st now ≡ₚ List.filter (is_active now) (rooms_values st) ∧
  StronglySorted newest_first (getActiveRooms st now) ∧
  (∀ r, r ∈ getActiveRooms st now → GameRoom.status r ≠ completed).
Proof.
  assert (∀ r, r ∈ getActiveRooms st now ↔
               r ∈ rooms_values st ∧ is_active now r = true) as Hmem.
  { intros r. unfold getActiveRooms.
    rewrite sort_newest_first_perm.
    rewrite !list_elem_of_In, filter_In. done. }
  split_and!.
  - intros r. rewrite Hmem, is_active_spec. done.
  - apply sort_newest_first_perm.
  - apply sort_newest_first_sorted.
  - intros r [_ Hact]%Hmem. apply is_active_spec in Hact.
    destruct Hact as [->|[-> _]]; done.
Qed.

(** ** [nextTurn] *)

Lemma cannot_play_false p : cannot_play p = false ↔ eligible p.
Proof.
  unfold cannot_play, eligible.
  rewrite orb_false_iff, Z.leb_gt, negb_false_iff. done.
Qed.

Lemma cannot_play_true p : cannot_play p = true ↔ ¬ eligible p.
Proof.
  rewrite <- cannot_play_false. by destruct (cannot_play p).
Qed.

(** The loop variables after [t - currentPlayerIndex] iterations are
    [t mod n] and [t / n], when the first sum [currentPlayerIndex + 1]
    was exact. *)
Lemma scan_step_index n t :
  0 < n → 0 ≤ t →
  Z.rem (t mod n + 1) n = (t + 1) mod n ∧
  (if (t + 1) mod n =? 0 then t / n + 1 else t / n) = (t + 1) / n.
Proof.
  intros Hn Ht. split.
  - rewrite Z.rem_mod_nonneg; [|pose proof (Z.mod_pos_bound t n Hn); lia|done].
    by rewrite Zplus_mod_idemp_l.
  - destruct ((t + 1) mod n =? 0) eqn:Hz.
    + apply Z.eqb_eq in Hz. revert Hz.
      Z.div_mod_to_equations. nia.
    + apply Z.eqb_neq in Hz. revert Hz.
      Z.div_mod_to_equations. nia.
Qed.

Lemma scan_S fuel ps sum l :
  scan (S fuel) ps sum l =
    let i' := Z.rem sum (Z.of_nat (length ps)) in
    let l' := if i' =? 0 then l + 1 else l in
    if 1 <? l' then GameOver
    else match js_index ps i' with
         | None => TypeError
         | Some p =>
             if cannot_play p then scan fuel ps (i' + 1) l' else Found i' p
         end.
Proof. reflexivity. Qed.

Lemma js_index_in_range {A} (l : list A) i :
  0 ≤ i < Z.of_nat (length l) → ∃ x, js_index l i = Some x ∧ l !! Z.to_nat i = Some x.
Proof.
  intros Hi. unfold js_index.
  assert ((i <? 0) = false) as -> by (apply Z.ltb_ge; lia).
  destruct (lookup_lt_is_Some_2 l (Z.to_nat i)) as [x Hx]; [lia|].
  by exists x.
Qed.

Lemma scan_by_time ps fuel : ∀ t,
  let n := Z.of_nat (length ps) in
  0 ≤ t < 2 * n → 2 * n - t ≤ Z.of_nat fuel →
  match scan fuel ps (t mod n + 1) (t / n) with
  | Found i p =>
      ∃ t', t < t' < 2 * n ∧ i = t' mod n ∧
            ps !! Z.to_nat i = Some p ∧ eligible p ∧
            ∀ s q, t < s < t' → ps !! Z.to_nat (s mod n) = Some q → ¬ eligible q
  | GameOver =>
      ∀ s q, t < s < 2 * n → ps !! Z.to_nat (s mod n) = Some q → ¬ eligible q
  | TypeError | OutOfFuel => False
  end.
Proof.
  induction fuel as [|fuel IH]; intros t n Ht Hfuel; [lia|].
  assert (0 < n) as Hn by lia.
  simpl. fold n.
  destruct (scan_step_index n t Hn ltac:(lia)) as [-> ->].
  destruct (1 <? (t + 1) / n) eqn:Hover.
  - apply Z.ltb_lt in Hover. intros s q Hs. exfalso.
    assert ((t + 1) / n < 2); [|lia].
    apply Z.div_lt_upper_bound; lia.
  - apply Z.ltb_ge in Hover.
    assert (t + 1 < 2 * n) as Hnext.
    { destruct (decide (t + 1 < 2 * n)); [done|].
      assert (2 ≤ (t + 1) / n); [|lia].
      apply Z.div_le_lower_bound; lia. }
    destruct (js_index_in_range ps ((t + 1) mod n)) as (p & -> & Hp).
    { apply Z.mod_pos_bound. lia. }
    destruct (cannot_play p) eqn:Hplay.
    + specialize (IH (t + 1) ltac:(lia) ltac:(lia)). cbv zeta in IH. fold n in IH.
      apply cannot_play_true in Hplay.
      destruct (scan fuel ps ((t + 1) mod n + 1) ((t + 1) / n)) as [i p'| | |];
        [ | | done | done ].
      * destruct IH as (t' & Ht' & Hi & Hp' & Hel & Hskip).
        exists t'. split_and!; [lia|lia|done|done|done|].
        intros s q Hs Hq. destruct (decide (s = t + 1)) as [->|].
        -- congruence.
        -- apply (Hskip s q); [lia|done].
      * intros s q Hs Hq. destruct (decide (s = t + 1)) as [->|].
        -- congruence.
        -- apply (IH s q); [lia|done].
    + apply cannot_play_false in Hplay.
      exists (t + 1). split_and!; [lia|lia|done|done|done|].
      intros s q Hs. lia.
Qed.

(** The loop of [nextTurn] leaves within [scan_fuel] iterations, on
    every room with a player and whatever [currentPlayerIndex] holds. *)
Lemma scan_terminates ps sum :
  ps ≠ [] → scan (scan_fuel ps) ps sum 0 ≠ OutOfFuel.
Proof.
  intros Hps. set (n := Z.of_nat (length ps)).
  assert (0 < n) as Hn by (destruct ps; [done|simpl in n; lia]).
  unfold scan_fuel. replace (2 * length ps + 1)%nat with (S (2 * length ps)) by lia.
  rewrite scan_S. cbv zeta. fold n.
  set (i := Z.rem sum n).
  destruct (i =? 0) eqn:Hi0.
  - change (1 <? 0 + 1) with false. cbv iota.
    apply Z.eqb_eq in Hi0. rewrite Hi0.
    destruct (js_index ps 0) as [p|]; [|done].
    destruct (cannot_play p); [|done].
    pose proof (scan_by_time ps (2 * length ps) n) as H.
    cbv zeta in H. fold n in H.
    rewrite Z_mod_same_full, Z_div_same_full in H by lia.
    intros Hout. change (0 + 1) with 1 in Hout, H.
    rewrite Hout in H. apply H; lia.
  - change (1 <? 0) with false. cbv iota.
    apply Z.eqb_neq in Hi0.
    destruct (js_index ps i) as [p|] eqn:Hp; [|done].
    destruct (cannot_play p); [|done].
    assert (0 ≤ i < n) as Hi.
    { unfold js_index in Hp. destruct (i <? 0) eqn:Hneg; [done|].
      apply Z.ltb_ge in Hneg. apply lookup_lt_Some in Hp. lia. }
    pose proof (scan_by_time ps (2 * length ps) i) as H.
    cbv zeta in H. fold n in H.
    rewrite Z.mod_small, Z.div_small in H by lia.
    intros Hout. rewrite Hout in H. apply H; lia.
Qed.

Lemma scan_in_range ps c :
  let n := Z.of_nat (length ps) in
  0 ≤ c < n →
  match scan (scan_fuel ps) ps (c + 1) 0 with
  | Found i p =>
      ∃ k, 0 ≤ k < n ∧ i = Z.of_nat (after c n k) ∧
           ps !! after c n k = Some p ∧ eligible p ∧
           ∀ j q, 0 ≤ j < k → ps !! after c n j = Some q → ¬ eligible q
  | GameOver => ∀ q, q ∈ ps → ¬ eligible q
  | TypeError | OutOfFuel => False
  end.
Proof.
  intros n Hc.
  pose proof (scan_by_time ps (scan_fuel ps) c) as H. cbv zeta in H. fold n in H.
  rewrite Z.mod_small, Z.div_small in H by lia.
  specialize (H ltac:(lia) ltac:(unfold scan_fuel; lia)).
  destruct (scan (scan_fuel ps) ps (c + 1) 0) as [i p| | |]; [| |done|done].
  - destruct H as (t' & Ht' & Hi & Hp & Hel & Hskip).
    assert (0 ≤ i < n) as Hirange by (subst i; apply Z.mod_pos_bound; lia).
    assert (t' - c - 1 < n) as Hk.
    { destruct (decide (t' - c - 1 < n)); [done|]. exfalso.
      apply (Hskip (t' - n) p); [lia| |done].
      replace (t' - n) with (t' + (-1) * n) by lia.
      rewrite Z_mod_plus_full. by rewrite <- Hi. }
    exists (t' - c - 1). unfold after.
    replace (c + 1 + (t' - c - 1)) with t' by lia. rewrite <- Hi.
    split_and!; [lia|lia|lia|done|done|].
    intros j q Hj Hq. apply (Hskip (c + 1 + j) q); [lia|done].
  - intros q [j Hj]%list_elem_of_lookup_1.
    pose proof (lookup_lt_Some _ _ _ Hj) as Hlt.
    apply (H (n + Z.of_nat j) q); [lia|].
    replace (n + Z.of_nat j) with (Z.of_nat j + 1 * n) by lia.
    rewrite Z_mod_plus_full, Z.mod_small by lia.
    by rewrite Nat2Z.id.
Qed.

(** Only [currentPlayerIndex mod n] matters to the loop. *)
Lemma scan_from_mod fuel ps c :
  ps ≠ [] → 0 ≤ c →
  scan fuel ps (c + 1) 0 = scan fuel ps (c mod Z.of_nat (length ps) + 1) 0.
Proof.
  intros Hps Hc. set (n := Z.of_nat (length ps)).
  assert (0 < n) as Hn by (destruct ps; [done|simpl in n; lia]).
  destruct fuel as [|fuel]; [done|]. rewrite !scan_S. cbv zeta. fold n.
  assert (Z.rem (c mod n + 1) n = Z.rem (c + 1) n) as ->; [|done].
  pose proof (Z.mod_pos_bound c n Hn).
  rewrite !Z.rem_mod_nonneg by lia. by rewrite Zplus_mod_idemp_l.
Qed.

Lemma after_mod c n k : after (c mod n) n k = after c n k.
Proof.
  unfold after. f_equal.
  replace (c mod n + 1 + k) with (c mod n + (1 + k)) by lia.
  replace (c + 1 + k) with (c + (1 + k)) by lia.
  by rewrite Zplus_mod_idemp_l.
Qed.

Lemma scan_from ps c :
  let n := Z.of_nat (length ps) in
  ps ≠ [] → 0 ≤ c →
  match scan (scan_fuel ps) ps (c + 1) 0 with
  | Found i p =>
      ∃ k, 0 ≤ k < n ∧ i = Z.of_nat (after c n k) ∧
           ps !! after c n k = Some p ∧ eligible p ∧
           ∀ j q, 0 ≤ j < k → ps !! after c n j = Some q → ¬ eligible q
  | GameOver => ∀ q, q ∈ ps → ¬ eligible q
  | TypeError | OutOfFuel => False
  end.
Proof.
  intros n Hps Hc.
  assert (0 < n) as Hn by (destruct ps; [done|simpl in n; lia]).
  rewrite scan_from_mod by done. fold n.
  pose proof (scan_in_range ps (c mod n) (Z.mod_pos_bound c n Hn)) as H.
  cbv zeta in H. fold n in H.
  destruct (scan (scan_fuel ps) ps (c mod n + 1) 0) as [i p| | |];
    [|done|done|done].
  destruct H as (k & Hk & Hi & Hp & Hel & Hskip). exists k.
  rewrite after_mod in Hi, Hp. split_and!; [lia|lia|done|done|done|].
  intros j q Hj Hq. apply (Hskip j q Hj). by rewrite after_mod.
Qed.

Lemma forallb_cannot_play_false ps i p :
  ps !! i = Some p → eligible p → forallb cannot_play ps = false.
Proof.
  intros Hi Hel. destruct (forallb cannot_play ps) eqn:Hall; [|done].
  exfalso. rewrite forallb_forall in Hall.
  apply list_elem_of_lookup_2, list_elem_of_In, Hall in Hi.
  by apply cannot_play_true in Hi.
Qed.

(** The players after the turn went to index [i]. *)
Lemma lookup_turn_given (ps : list Player.t) (i j : nat) :
  alter (Player.set_isCurrentTurn true) i
    (Player.set_isCurrentTurn false <$> ps) !! j =
  Player.set_isCurrentTurn (bool_decide (j = i)) <$> ps !! j.
Proof.
  destruct (decide (j = i)) as [->|Hne].
  - rewrite list_lookup_alter_eq, list_lookup_fmap, bool_decide_eq_true_2 by done.
    by destruct (ps !! i).
  - rewrite list_lookup_alter_ne, list_lookup_fmap, bool_decide_eq_false_2 by done.
    done.
Qed.

Lemma nextTurn_playing st roomId now room :
  rooms_get st roomId = Some room →
  GameRoom.status room = playing →
  GameRoom.players room ≠ [] →
  nextTurn st roomId now =
    match scan (scan_fuel (GameRoom.players room)) (GameRoom.players room)
            (js_add (GameRoom.currentPlayerIndex room) 1) 0 with
    | GameOver =>
        (rooms_set st roomId
           (GameRoom.set_lastActivity now (GameRoom.set_status completed room)),
         Returned true)
    | Found nextPlayerIndex _ =>
        let players' :=
          alter (Player.set_isCurrentTurn true) (Z.to_nat nextPlayerIndex)
            (Player.set_isCurrentTurn false <$> GameRoom.players room) in
        let room1 :=
          GameRoom.set_currentPlayerIndex nextPlayerIndex
            (GameRoom.set_players players' room) in
        (rooms_set st roomId
           (GameRoom.set_lastActivity now
              (if forallb cannot_play players'
               then GameRoom.set_status completed room1 else room1)),
         Returned true)
    | TypeError | OutOfFuel => (st, Thrown)
    end.
Proof.
  intros Hget Hst Hps. unfold nextTurn. rewrite Hget, Hst. simpl.
  destruct (GameRoom.players room); [done|reflexivity].
Qed.



(** ** Room properties that the calls preserve

    Each lemma of this section says what has to hold of the room a call
    writes, for a property [P] of rooms to go from every room of the store
    before the call to every room after it. *)

Lemma scan_Found fuel ps : ∀ i0 l i p,
  scan fuel ps i0 l = Found i p →
  0 ≤ i ∧ ps !! Z.to_nat i = Some p ∧ eligible p.
Proof.
  induction fuel as [|fuel IH]; intros i0 l i p; [done|].
  rewrite scan_S. cbv zeta.
  destruct (1 <? _); [done|].
  destruct (js_index ps _) as [q|] eqn:Hq; [|done].
  destruct (cannot_play q) eqn:Hplay.
  - apply IH.
  - intros [= <- <-]. unfold js_index in Hq.
    destruct (_ <? 0) eqn:Hneg; [done|]. apply Z.ltb_ge in Hneg.
    split_and!; [done|done|]. by apply cannot_play_false.
Qed.

Section Preservation.
Variable P : GameRoom.t → Prop.
Hypothesis P_lastActivity : ∀ r v, P r → P (GameRoom.set_lastActivity v r).

Lemma getRoom_preserves st roomId now :
  store_all P st → store_all P (getRoom st roomId now).1.
Proof using P_lastActivity.
  intros Hall. unfold getRoom.
  destruct (rooms_get st roomId) as [room|] eqn:Hget; simpl; [|done].
  apply store_all_set; [done|]. apply P_lastActivity. by eapply store_all_get.
Qed.

Lemma createRoom_preserves st roomId hostId hostName walletAddress roomName
    maxPlayers shotsPerPlayer rewardAmount created_at now :
  P (createRoom st roomId hostId hostName walletAddress roomName
       maxPlayers shotsPerPlayer rewardAmount created_at now).2 →
  store_all P st →
  store_all P (createRoom st roomId hostId hostName walletAddress roomName
                 maxPlayers shotsPerPlayer rewardAmount created_at now).1.
Proof. intros Hnew Hall. simpl. by apply store_all_set. Qed.

Lemma addPlayerToRoom_preserves st roomId player now :
  (∀ r i, P r → GameRoom.status r = waiting →
     P (GameRoom.set_players
          (<[i := Player.set_isConnected true
                    (Player.set_shotsRemaining (GameRoom.shotsPerPlayer r)
                       player)]> (GameRoom.players r)) r)) →
  (∀ r, P r → GameRoom.status r = waiting →
     P (GameRoom.set_players
          (GameRoom.players r ++
             [Player.mk (Player.id player) (Player.name player)
                (Player.walletAddress player) 0
                (GameRoom.shotsPerPlayer r) true false]) r)) →
  store_all P st → store_all P (addPlayerToRoom st roomId player now).1.
Proof using P_lastActivity.
  intros Hre Hnew Hall. unfold addPlayerToRoom.
  destruct (rooms_get st roomId) as [room|] eqn:Hget; [|done].
  destruct (_ <=? _); [done|].
  destruct (bool_decide (GameRoom.status room = waiting)) eqn:Hst; [|done].
  apply bool_decide_eq_true_1 in Hst. simpl.
  pose proof (store_all_get _ _ _ _ Hall Hget) as Hroom.
  apply store_all_set; [done|]. apply P_lastActivity.
  destruct (find_player _ _) as [[i q]|]; auto.
Qed.

Lemma startGame_preserves st roomId now :
  (∀ r, P r → (2 ≤ length (GameRoom.players r))%nat →
     P (GameRoom.set_players
          (imap (λ i p, Player.set_isCurrentTurn (bool_decide (i = 0%nat)) p)
             (GameRoom.players r))
          (GameRoom.set_currentPlayerIndex 0
             (GameRoom.set_status playing r)))) →
  store_all P st → store_all P (startGame st roomId now).1.
Proof using P_lastActivity.
  intros Hstart Hall. unfold startGame.
  destruct (rooms_get st roomId) as [room|] eqn:Hget; [|done].
  destruct (_ <? 2) eqn:Hlen; [done|]. apply Z.ltb_ge in Hlen. simpl.
  apply store_all_set; [done|]. apply P_lastActivity, Hstart; [|lia].
  by eapply store_all_get.
Qed.

Lemma nextTurn_preserves st roomId now :
  (∀ r, P r → GameRoom.status r = playing →
     P (GameRoom.set_status completed r)) →
  (∀ r i p, P r → GameRoom.status r = playing →
     GameRoom.players r !! i = Some p → eligible p →
     P (GameRoom.set_currentPlayerIndex (Z.of_nat i)
          (GameRoom.set_players
             (alter (Player.set_isCurrentTurn true) i
                (Player.set_isCurrentTurn false <$> GameRoom.players r))
             r))) →
  store_all P st → store_all P (nextTurn st roomId now).1.
Proof using P_lastActivity.
  intros Hover Hfound Hall. unfold nextTurn.
  destruct (rooms_get st roomId) as [room|] eqn:Hget; [|done].
  destruct (bool_decide (GameRoom.status room = playing)) eqn:Hst; [|done].
  apply bool_decide_eq_true_1 in Hst. simpl.
  pose proof (store_all_get _ _ _ _ Hall Hget) as Hroom.
  destruct (GameRoom.players room) as [|p0 ps0] eqn:Hps; [done|].
  rewrite <- Hps.
  destruct (scan _ _ _ _) as [i p| | |] eqn:Hscan; simpl; [| |done|done].
  - apply scan_Found in Hscan as (Hi & Hp & Hel).
    apply store_all_set; [done|]. apply P_lastActivity.
    remember (Z.to_nat i) as k eqn:Hk.
    assert (i = Z.of_nat k) as -> by lia.
    rewrite (forallb_cannot_play_false _ k (Player.set_isCurrentTurn true p)).
    + by eapply Hfound.
    + by rewrite lookup_turn_given, Hp, bool_decide_eq_true_2.
    + done.
  - apply store_all_set; [done|]. apply P_lastActivity. auto.
Qed.

Lemma updatePlayerScore_preserves st roomId playerId s now :
  (∀ r i p, rooms_get st roomId = Some r → P r →
     find_player playerId (GameRoom.players r) = Some (i, p) →
     Player.isCurrentTurn p = true →
     P (GameRoom.set_players
          (<[i := Player.set_shotsRemaining
                    (js_add (Player.shotsRemaining p) (-1))
                    (Player.set_score (js_add (Player.score p) s) p)]>
             (GameRoom.players r)) r)) →
  store_all P st → store_all P (updatePlayerScore st roomId playerId s now).1.
Proof using P_lastActivity.
  intros Hscore Hall. unfold updatePlayerScore.
  destruct (rooms_get st roomId) as [room|] eqn:Hget; [|done].
  destruct (find_player _ _) as [[i p]|] eqn:Hfind; [|done].
  destruct (Player.isCurrentTurn p) eqn:Hturn; [|done]. simpl.
  apply store_all_set; [done|]. apply P_lastActivity.
  apply Hscore; try done. by eapply store_all_get.
Qed.

Lemma resetGame_preserves st roomId now :
  (∀ r, P r →
     P (GameRoom.set_currentPlayerIndex 0
          (GameRoom.set_status waiting
             (GameRoom.set_players
                ((λ p, Player.set_shotsRemaining (GameRoom.shotsPerPlayer r)
                         (Player.set_score 0 p)) <$> GameRoom.players r)
                r)))) →
  (∀ r p0 rest, P r → GameRoom.status r = waiting →
     GameRoom.players r = p0 :: rest →
     P (GameRoom.set_players
          (Player.set_isCurrentTurn true p0
             :: (Player.set_isCurrentTurn false <$> rest)) r)) →
  store_all P st → store_all P (resetGame st roomId now).1.
Proof using P_lastActivity.
  intros Hreset Hflags Hall. unfold resetGame.
  destruct (rooms_get st roomId) as [room|] eqn:Hget; [|done].
  pose proof (store_all_get _ _ _ _ Hall Hget) as Hroom.
  specialize (Hreset room Hroom).
  destruct (_ <$> GameRoom.players room) as [|p0 rest] eqn:Hps; simpl.
  - by apply store_all_set.
  - apply store_all_set; [done|]. apply P_lastActivity.
    by apply (Hflags _ p0 rest) in Hreset.
Qed.

Lemma removePlayerFromRoom_preserves st roomId playerId now :
  (∀ r v, P r → P (GameRoom.set_hostId v r)) →
  (∀ r i p, P r → GameRoom.status r = playing →
     GameRoom.players r !! i = Some p →
     P (GameRoom.set_players
          (<[i := Player.set_isConnected false p]> (GameRoom.players r)) r)) →
  (∀ r i, P r → GameRoom.status r ≠ playing →
     P (GameRoom.set_players (delete i (GameRoom.players r)) r)) →
  (∀ st, store_all P st → store_all P (nextTurn st roomId now).1) →
  store_all P st → store_all P (removePlayerFromRoom st roomId playerId now).1.
Proof using P_lastActivity.
  intros Hhost Hmark Hsplice Hnext Hall. unfold removePlayerFromRoom.
  destruct (rooms_get st roomId) as [room|] eqn:Hget; [|done].
  destruct (find_player _ _) as [[i p]|] eqn:Hfind; [|done].
  pose proof (store_all_get _ _ _ _ Hall Hget) as Hroom.
  destruct (find_player_Some _ _ _ _ Hfind) as (Hi & _ & _).
  match goal with
  | |- context [let '(st1, o) := ?e in _] =>
      assert (store_all P e.1) as Hall1; [|destruct e as [st1 o]]
  end.
  { destruct (bool_decide (GameRoom.status room = playing)) eqn:Hst.
    - apply bool_decide_eq_true_1 in Hst.
      assert (store_all P
                (rooms_set st roomId
                   (GameRoom.set_players
                      (<[i := Player.set_isConnected false p]>
                         (GameRoom.players room)) room)))
        by (apply store_all_set; auto).
      destruct (Player.isCurrentTurn p); simpl; auto.
    - apply bool_decide_eq_false_1 in Hst. simpl.
      apply store_all_set; auto. }
  simpl in Hall1.
  destruct o as [b|]; [|done].
  destruct (rooms_get st1 roomId) as [room1|] eqn:Hget1; [|done].
  pose proof (store_all_get _ _ _ _ Hall1 Hget1) as Hroom1.
  destruct (_ || _); simpl.
  - by apply store_all_removeRoom.
  - apply store_all_set; [done|]. apply P_lastActivity.
    destruct (_ && _); [|done].
    destruct (list_find _ _) as [[j q]|]; auto.
Qed.
End Preservation.

(** ** [shotsRemaining] over sequences of calls *)

Lemma Forall_turn_given (Q : Player.t → Prop) ps i :
  (∀ p b, Q p → Q (Player.set_isCurrentTurn b p)) →
  Forall Q ps →
  Forall Q (alter (Player.set_isCurrentTurn true) i
              (Player.set_isCurrentTurn false <$> ps)).
Proof.
  intros HQ Hall. apply Forall_lookup. intros j q.
  rewrite lookup_turn_given.
  destruct (ps !! j) as [p|] eqn:Hj; simpl; [|done]. intros [= <-].
  apply HQ. by eapply Forall_lookup_1.
Qed.

Lemma Forall_imap_flag (Q : Player.t → Prop) ps (f : nat → bool) :
  (∀ p b, Q p → Q (Player.set_isCurrentTurn b p)) →
  Forall Q ps →
  Forall Q (imap (λ i p, Player.set_isCurrentTurn (f i) p) ps).
Proof.
  intros HQ Hall. apply Forall_lookup. intros j q.
  rewrite list_lookup_imap.
  destruct (ps !! j) as [p|] eqn:Hj; simpl; [|done]. intros [= <-].
  apply HQ. by eapply Forall_lookup_1.
Qed.

Lemma run_guarded_shots st op now :
  guarded_op st op → store_all shots_in_range st →
  store_all shots_in_range (run st op now).
Proof.
  assert (∀ r v, shots_in_range r →
                 shots_in_range (GameRoom.set_lastActivity v r)) as Hact by done.
  assert (∀ st roomId now, store_all shots_in_range st →
            store_all shots_in_range (nextTurn st roomId now).1) as Hnext.
  { intros st0 roomId now0. apply nextTurn_preserves; [done|done|].
    intros r i p [Hspp Hall] _ _ _. split; [done|]. simpl.
    by apply Forall_turn_given. }
  intros Hop Hall. destruct op; simpl in Hop |- *; try done.
  - apply createRoom_preserves; [|done]. simpl. split; simpl; [done|].
    constructor; [simpl; lia|constructor].
  - apply addPlayerToRoom_preserves; [done| | |done].
    + intros r i [Hspp Hps] _. split; [done|]. simpl.
      apply Forall_insert; [done|]. simpl. lia.
    + intros r [Hspp Hps] _. split; [done|]. simpl.
      apply Forall_app. split; [done|]. constructor; [simpl; lia|constructor].
  - apply removePlayerFromRoom_preserves; [done|done| | |by auto|done].
    + intros r i p [Hspp Hps] _ Hi. split; [done|]. simpl.
      apply Forall_insert; [done|]. simpl.
      by eapply (Forall_lookup_1 _ _ _ _ Hps).
    + intros r i [Hspp Hps] _. split; [done|]. simpl.
      by apply Forall_delete.
  - apply startGame_preserves; [done| |done].
    intros r [Hspp Hps] _. split; [done|]. simpl.
    by apply Forall_imap_flag.
  - by apply Hnext.
  - apply updatePlayerScore_preserves; [done| |done].
    intros r i p Hget [Hspp Hps] Hfind Hturn. split; [done|]. simpl.
    specialize (Hop r i p Hget Hfind Hturn).
    destruct (find_player_Some _ _ _ _ Hfind) as (Hi & _ & _).
    pose proof (Forall_lookup_1 _ _ _ _ Hps Hi) as Hp. simpl in Hp.
    apply Forall_insert; [done|]. simpl.
    pose proof (js_decrement_bounds _ Hop). lia.
  - apply resetGame_preserves; [done| | |done].
    + intros r [Hspp Hps]. split; [done|]. simpl.
      apply Forall_fmap, Forall_true. simpl. lia.
    + intros r p0 rest [Hspp Hps] _ Heq. split; [done|]. simpl.
      rewrite Heq in Hps. apply Forall_cons in Hps as [Hp0 Hrest].
      constructor; [done|]. apply Forall_fmap.
      eapply Forall_impl; [done|]. done.
Qed.

(** C3, as the code has it: a room's first player starts with
    [shotsRemaining] equal to [shotsPerPlayer], and over every sequence of
    [createRoom], [addPlayerToRoom], [startGame], [updatePlayerScore],
    [nextTurn], [resetGame] and [removePlayerFromRoom] calls in which
    rooms are created with [shotsPerPlayer >= 0] and a score is recorded
    only for a player who has a shot left, every player of every room has
    [0 <= shotsRemaining <= shotsPerPlayer].  ([updatePlayerScore] itself
    takes one shot whatever is left.) *)
Theorem shots_stay_in_range :
  (∀ st roomId hostId hostName walletAddress roomName maxPlayers
       shotsPerPlayer rewardAmount created_at now,
     ∃ host,
       GameRoom.players
         (createRoom st roomId hostId hostName walletAddress roomName
            maxPlayers shotsPerPlayer rewardAmount created_at now).2 = [host] ∧
       Player.shotsRemaining host = shotsPerPlayer) ∧
  (∀ st, reachable guarded_op st → store_all shots_in_range st).
Proof.
  split.
  - intros. eexists. split; [done|done].
  - induction 1 as [|st op now Hreach IH Hfresh Hop].
    + constructor.
    + by apply run_guarded_shots.
Qed.

(** ** The turn holder over sequences of calls *)

Lemma turn_ok_insert r i p p' :
  turn_ok r → GameRoom.players r !! i = Some p →
  Player.isCurrentTurn p' = Player.isCurrentTurn p →
  turn_ok (GameRoom.set_players (<[i := p']> (GameRoom.players r)) r).
Proof.
  intros Hok Hi Hflag Hst. destruct (Hok Hst) as (c & pc & Hc & Hpc & Hturn & Huniq).
  pose proof (lookup_lt_Some _ _ _ Hi) as Hlt. simpl.
  destruct (decide (i = c)) as [->|Hne].
  - exists c, p'. split_and!; [done| | |].
    + by apply list_lookup_insert_eq.
    + rewrite Hflag. congruence.
    + intros j q Hj Hq. destruct (decide (j = c)) as [|Hjc]; [done|].
      rewrite list_lookup_insert_ne in Hj by done. eauto.
  - exists c, pc. split_and!; [done| |done|].
    + by rewrite list_lookup_insert_ne.
    + intros j q Hj Hq. destruct (decide (j = i)) as [->|Hji].
      * rewrite list_lookup_insert_eq in Hj by done.
        injection Hj as <-. apply (Huniq i p); [done|congruence].
      * rewrite list_lookup_insert_ne in Hj by done. eauto.
Qed.

Lemma turn_ok_not_playing r :
  GameRoom.status r ≠ playing → turn_ok r.
Proof. intros Hst Hplaying. done. Qed.

Lemma run_turn_ok st op now :
  turn_rule_op st op → store_all turn_ok st → store_all turn_ok (run st op now).
Proof.
  assert (∀ r v, turn_ok r → turn_ok (GameRoom.set_lastActivity v r)) as Hact
    by done.
  assert (∀ st roomId now, store_all turn_ok st →
            store_all turn_ok (nextTurn st roomId now).1) as Hnext.
  { intros st0 roomId now0. apply nextTurn_preserves; [done| |].
    - intros r _ _. by apply turn_ok_not_playing.
    - intros r i p _ Hst Hi Hel _. simpl. exists i, (Player.set_isCurrentTurn true p).
      split_and!; [done| |done|].
      + by rewrite lookup_turn_given, Hi, bool_decide_eq_true_2.
      + intros j q. rewrite lookup_turn_given.
        destruct (GameRoom.players r !! j); simpl; [|done].
        intros [= <-]. simpl. by intros ?%bool_decide_eq_true_1. }
  intros Hop Hall. destruct op; simpl in Hop |- *; try done.
  - apply createRoom_preserves; [|done]. by apply turn_ok_not_playing.
  - by apply getRoom_preserves.
  - apply addPlayerToRoom_preserves; [done| | |done].
    + intros r i _ Hst. apply turn_ok_not_playing. simpl. by rewrite Hst.
    + intros r _ Hst. apply turn_ok_not_playing. simpl. by rewrite Hst.
  - apply removePlayerFromRoom_preserves; [done|done| | |by auto|done].
    + intros r i p Hok _ Hi. by apply (turn_ok_insert r i p).
    + intros r i _ Hst. by apply turn_ok_not_playing.
  - apply startGame_preserves; [done| |done].
    intros r _ Hlen _. simpl.
    destruct (GameRoom.players r) as [|p0 rest] eqn:Hps; [simpl in Hlen; lia|].
    exists 0%nat, (Player.set_isCurrentTurn true p0). split_and!; [done|done|done|].
    intros j q. rewrite list_lookup_imap.
    destruct ((p0 :: rest) !! j); simpl; [|done].
    intros [= <-]. simpl. by intros ?%bool_decide_eq_true_1.
  - by apply Hnext.
  - apply updatePlayerScore_preserves; [done| |done].
    intros r i p _ Hok Hfind _.
    destruct (find_player_Some _ _ _ _ Hfind) as (Hi & _ & _).
    by apply (turn_ok_insert r i p).
  - apply resetGame_preserves; [done| | |done].
    + intros r _. by apply turn_ok_not_playing.
    + intros r p0 rest _ Hst _. apply turn_ok_not_playing. simpl. by rewrite Hst.
  - by apply store_all_removeRoom.
  - by apply store_all_cleanup.
Qed.

(** C4, as the code has it: in every room with status [playing] of a
    store that the coordinator calls other than [updatePlayerInRoom] and
    [updateRoom] can produce, [currentPlayerIndex] is the index of a
    player whose [isCurrentTurn] is true and no other player has
    [isCurrentTurn] true; each of those calls keeps it so.
    ([updatePlayerInRoom] and [updateRoom] write what they are given.) *)
Theorem one_turn_holder_while_playing st :
  reachable turn_rule_op st → store_all turn_ok st.
Proof.
  induction 1 as [|st op now Hreach IH Hfresh Hop].
  - constructor.
  - by apply run_turn_ok.
Qed.

(** ** The claims on concrete games *)

Lemma started_game_store : started_game = [("R", started_room)].
Proof. by vm_compute. Qed.

Lemma overdrawn_game_store : overdrawn_game = [("R", overdrawn_room)].
Proof. by vm_compute. Qed.

Lemma two_turn_holders_store : two_turn_holders = [("R", two_turn_room)].
Proof. by vm_compute. Qed.

Lemma scoreless_game_store : scoreless_game = [("R", scoreless_room)].
Proof. by vm_compute. Qed.

Lemma waiting_room_store : waiting_room = [("R", waiting_room_R)].
Proof. by vm_compute. Qed.



Lemma abandoned_game_store : abandoned_game = [("R", abandoned_room)].
Proof. by vm_compute. Qed.

(** C1 as worded fails: in a completed game where every score is 0 (the
    highest score is 0) [getWinner] returns the first player. *)
Lemma getWinner_zero_tie_has_winner :
  ∃ room A,
    rooms_get scoreless_game "R" = Some room ∧
    GameRoom.status room = completed ∧
    Forall (λ p, Player.score p = 0) (GameRoom.players room) ∧
    GameRoom.players room !! 0%nat = Some A ∧
    getWinner scoreless_game "R" = Some A ∧
    getWinner scoreless_game "R" ≠ None.
Proof.
  rewrite scoreless_game_store.
  exists scoreless_room, (Player.mk "A" "A" "G" 0 0 true false).
  split; [by vm_compute|]. split; [done|].
  split; [by repeat constructor|]. split; [done|].
  split; [by vm_compute|]. by vm_compute.
Qed.

Lemma getWinner_first_highest_witness :
  rooms_get scoreless_game "R" = Some scoreless_room ∧
  GameRoom.status scoreless_room = completed ∧
  ∃ w, getWinner scoreless_game "R" = Some w ∧ -1 < Player.score w.
Proof.
  rewrite scoreless_game_store.
  assert (rooms_get [("R", scoreless_room)] "R" = Some scoreless_room) as Hget
    by (by vm_compute).
  split; [done|]. split; [done|].
  destruct getWinner_first_highest as (_ & Hmax & _).
  specialize (Hmax _ "R" scoreless_room Hget eq_refl).
  destruct (getWinner [("R", scoreless_room)] "R") as [w|] eqn:Hw.
  - exists w. split; [done|]. by destruct Hmax.
  - exfalso. vm_compute in Hw. discriminate.
Defined.

(** C2 as worded fails: a [completed] room that was active three
    milliseconds ago is not returned. *)
Lemma getActiveRooms_skips_completed :
  ∃ room,
    room ∈ rooms_values scoreless_game ∧
    GameRoom.status room = completed ∧
    10 - GameRoom.lastActivity room < maxInactiveTime ∧
    room ∉ getActiveRooms scoreless_game 10.
Proof.
  rewrite scoreless_game_store. exists scoreless_room.
  split; [apply list_elem_of_here|].
  split; [done|]. split; [done|].
  assert (getActiveRooms [("R", scoreless_room)] 10 = []) as ->
    by (by vm_compute).
  apply not_elem_of_nil.
Qed.

Lemma getActiveRooms_waiting_or_recent_playing_witness :
  started_room ∈ getActiveRooms started_game 10 ∧
  StronglySorted newest_first (getActiveRooms started_game 10).
Proof.
  destruct (getActiveRooms_waiting_or_recent_playing started_game 10)
    as (Hmem & _ & Hsorted & _).
  split; [|done]. apply Hmem. rewrite started_game_store.
  split; [apply list_elem_of_here|]. right. by vm_compute.
Defined.

(** C3 as worded fails: A records two scores in a row in a started game
    with one shot per player and is left with [shotsRemaining = -1]. *)
Lemma shots_go_negative :
  reachable listed_op overdrawn_game ∧
  (∃ room A, rooms_get overdrawn_game "R" = Some room ∧
             GameRoom.players room !! 0%nat = Some A ∧
             Player.shotsRemaining A = -1) ∧
  ¬ store_all shots_never_negative overdrawn_game.
Proof.
  split; [unfold overdrawn_game, scored_game, started_game; cbv zeta; by_calls|].
  rewrite overdrawn_game_store. split.
  - exists overdrawn_room, (Player.mk "A" "A" "G" 10 (-1) true true).
    split; [by vm_compute|done].
  - unfold store_all. intros Hall.
    apply Forall_cons in Hall as [Hroom _].
    apply Forall_cons in Hroom as [HA _]. simpl in HA. lia.
Qed.

Lemma shots_stay_in_range_witness :
  reachable guarded_op scored_game ∧ store_all shots_in_range scored_game.
Proof.
  assert (reachable guarded_op started_game) as Hstart.
  { unfold started_game; cbv zeta.
    repeat (apply reachable_run; [|done|]); [apply reachable_empty| | |];
      simpl; done. }
  assert (reachable guarded_op scored_game) as Hreach.
  { apply reachable_run; [done|done|]. simpl.
    rewrite started_game_store. intros room i p Hget Hfind _.
    vm_compute in Hget. injection Hget as <-.
    vm_compute in Hfind. injection Hfind as <- <-. simpl. lia. }
  split; [done|]. by apply (proj2 shots_stay_in_range).
Defined.

(** C4 as worded fails: after [updatePlayerInRoom] has replaced B by a
    copy with [isCurrentTurn] set, the [playing] room has two players
    with [isCurrentTurn]. *)
Lemma updatePlayerInRoom_breaks_turn :
  reachable any_op two_turn_holders ∧
  (∃ room A B, rooms_get two_turn_holders "R" = Some room ∧
               GameRoom.status room = playing ∧
               GameRoom.players room = [A; B] ∧
               Player.isCurrentTurn A = true ∧
               Player.isCurrentTurn B = true) ∧
  ¬ store_all turn_ok two_turn_holders.
Proof.
  split; [unfold two_turn_holders, started_game; cbv zeta; by_calls|].
  rewrite two_turn_holders_store. split.
  - exists two_turn_room, (Player.mk "A" "A" "G" 0 1 true true),
      (Player.mk "B" "B" "G" 0 1 true true).
    split; [by vm_compute|done].
  - unfold store_all. intros Hall.
    apply Forall_cons in Hall as [Hroom _].
    destruct (Hroom eq_refl) as (i & p & _ & _ & _ & Huniq).
    pose proof (Huniq 0%nat _ eq_refl eq_refl).
    pose proof (Huniq 1%nat _ eq_refl eq_refl). lia.
Qed.

Lemma one_turn_holder_while_playing_witness :
  reachable turn_rule_op overdrawn_game ∧ store_all turn_ok overdrawn_game.
Proof.
  assert (reachable turn_rule_op overdrawn_game) as Hreach
    by (unfold overdrawn_game, scored_game, started_game; cbv zeta; by_calls).
  split; [done|]. by apply one_turn_holder_while_playing.
Defined.


(** The first sum of the scan is a sum of doubles: from
    [currentPlayerIndex = 2^53] in the game of two, [2^53 + 1] is rounded
    to [2^53] and the turn goes to index 0, where the exact sum would
    give index 1. *)
Lemma nextTurn_rounds_the_first_sum :
  ∃ st' room',
    nextTurn far_indexed_game "R" 5 = (st', Returned true) ∧
    rooms_get st' "R" = Some room' ∧
    GameRoom.currentPlayerIndex room' = 0 ∧
    (2 ^ 53 + 1) mod 2 = 1.
Proof.
  assert (nextTurn far_indexed_game "R" 5 =
            ([("R", GameRoom.mk "R" "room" "A"
                      [Player.mk "A" "A" "G" 0 1 true true;
                       Player.mk "B" "B" "G" 0 1 true false]
                      4 playing 0 1 10000000 1 5)], Returned true)) as ->
    by (by vm_compute).
  eexists _, _. split; [done|]. split; [by vm_compute|]. done.
Qed.




Lemma updatePlayerScore_failure_mutates_nothing_witness :
  updatePlayerScore started_game "R" "B" 5 4 = (started_game, Returned false).
Proof.
  apply updatePlayerScore_failure_mutates_nothing.
  right. right. rewrite started_game_store.
  exists started_room, 1%nat, (Player.mk "B" "B" "G" 0 1 true false).
  split_and!; by vm_compute.
Defined.

(** C8's scenario as worded fails: guest B left while the game was
    [playing] (it stays in the list, disconnected) and the game was
    reset; host A then leaves the [waiting] room that holds A and B, and
    the room is deleted instead of going to B. *)
Lemma host_leaves_disconnected_guest :
  reachable listed_op abandoned_game ∧
  (∃ room H P,
     rooms_get abandoned_game "R" = Some room ∧
     GameRoom.status room = waiting ∧
     GameRoom.players room = [H; P] ∧
     GameRoom.hostId room = Player.id H ∧ Player.id H = "A") ∧
  ∃ st',
    removePlayerFromRoom abandoned_game "R" "A" 6 = (st', Returned true) ∧
    rooms_get st' "R" = None.
Proof.
  split; [unfold abandoned_game, started_game; cbv zeta; by_calls|].
  rewrite abandoned_game_store. split.
  - exists abandoned_room, (Player.mk "A" "A" "G" 0 1 true true),
      (Player.mk "B" "B" "G" 0 1 false false).
    split; [by vm_compute|done].
  - exists []. split; by vm_compute.
Qed.

Lemma removePlayerFromRoom_not_playing_witness :
  ∃ st' room',
    removePlayerFromRoom waiting_room "R" "A" 3 = (st', Returned true) ∧
    rooms_get st' "R" = Some room' ∧
    GameRoom.players room' = [Player.mk "B" "B" "G" 0 1 true false] ∧
    GameRoom.hostId room' = "B".
Proof.
  rewrite waiting_room_store.
  assert (rooms_get [("R", waiting_room_R)] "R" = Some waiting_room_R) as Hget
    by (by vm_compute).
  destruct removePlayerFromRoom_not_playing as (_ & Hscenario & _).
  apply (Hscenario _ "R" 3 waiting_room_R (Player.mk "A" "A" "G" 0 1 true true)
           (Player.mk "B" "B" "G" 0 1 true false) Hget); done.
Defined.

Lemma resetGame_restores_witness :
  ∃ room',
    rooms_get (resetGame scoreless_game "R" 8).1 "R" = Some room' ∧
    GameRoom.status room' = waiting ∧
    (resetGame scoreless_game "R" 8).2 = Returned true.
Proof.
  rewrite scoreless_game_store.
  assert (rooms_get [("R", scoreless_room)] "R" = Some scoreless_room) as Hget
    by (by vm_compute).
  destruct (resetGame_restores _ "R" 8 scoreless_room Hget)
    as (room' & Hget' & _ & Hst & _ & _ & _ & _ & Hret).
  exists room'. split_and!; [done|done|]. by apply Hret.
Defined.


(** ** From the calls to the steps of one room *)

Lemma rooms_get_set_cases st a X k r' :
  rooms_get (rooms_set st a X) k = Some r' →
  (a = k ∧ r' = X) ∨ (a ≠ k ∧ rooms_get st k = Some r').
Proof.
  destruct (decide (a = k)) as [->|Hne].
  - rewrite rooms_get_set_eq. intros [= <-]. by left.
  - rewrite rooms_get_set_ne by done. by right.
Qed.

Lemma rooms_get_delete_Some st a k r' :
  rooms_get (rooms_delete st a) k = Some r' → rooms_get st k = Some r'.
Proof.
  destruct (decide (a = k)) as [->|Hne].
  - by rewrite rooms_get_delete_eq.
  - by rewrite rooms_get_delete_ne.
Qed.

Lemma rooms_get_cleanup_Some st now k r' :
  rooms_get (cleanupInactiveRooms st now) k = Some r' →
  rooms_get st k = Some r'.
Proof.
  unfold cleanupInactiveRooms. generalize st at 1. intros entries. revert st.
  induction entries as [|e entries IH]; intros st; simpl; [done|].
  intros H%IH. destruct (_ <? _); [|done].
  unfold removeRoom in H. destruct (rooms_get st e.1); simpl in H; [|done].
  by eapply rooms_get_delete_Some.
Qed.

Lemma rooms_set_twice st k r r' :
  rooms_set (rooms_set st k r) k r' = rooms_set st k r'.
Proof.
  induction st as [|[k0 r0] st IH]; simpl.
  - by rewrite decide_True.
  - destruct (decide (k0 = k)) as [->|]; simpl.
    + by rewrite decide_True.
    + by rewrite decide_False, IH.
Qed.

(** What [nextTurn] returns. *)
Lemma nextTurn_cases st roomId now :
  (nextTurn st roomId now = (st, Returned false) ∧
   (rooms_get st roomId = None ∨
    ∃ r, rooms_get st roomId = Some r ∧ GameRoom.status r ≠ playing)) ∨
  nextTurn st roomId now = (st, Thrown) ∨
  ∃ r r', rooms_get st roomId = Some r ∧ turn_step now r r' ∧
          nextTurn st roomId now = (rooms_set st roomId r', Returned true).
Proof.
  unfold nextTurn.
  destruct (rooms_get st roomId) as [room|] eqn:Hget; [|left; auto].
  destruct (bool_decide (GameRoom.status room = playing)) eqn:Hst; simpl.
  2:{ apply bool_decide_eq_false_1 in Hst. left. split; [done|]. right. eauto. }
  apply bool_decide_eq_true_1 in Hst.
  destruct (GameRoom.players room) as [|p0 ps0] eqn:Hps; [right; by left|].
  rewrite <- Hps.
  destruct (scan _ _ _ _) as [i p| | |] eqn:Hscan; [| |right; by left..].
  - apply scan_Found in Hscan as (Hi & Hp & Hel).
    remember (Z.to_nat i) as j eqn:Hj.
    assert (i = Z.of_nat j) as -> by lia.
    rewrite (forallb_cannot_play_false _ j (Player.set_isCurrentTurn true p));
      [|by rewrite lookup_turn_given, Hp, bool_decide_eq_true_2|done].
    right. right. exists room. eexists. split; [done|].
    split; [|done]. by apply (turn_given now room j p).
  - right. right. exists room. eexists. split; [done|].
    split; [|done]. apply turn_over; [done|]. by rewrite Hps.
Qed.

Lemma removePlayerFromRoom_cases st roomId playerId now :
  (removePlayerFromRoom st roomId playerId now = (st, Returned false) ∧
   (rooms_get st roomId = None ∨
    ∃ r, rooms_get st roomId = Some r ∧
         find_player playerId (GameRoom.players r) = None)) ∨
  ∃ r i p,
    rooms_get st roomId = Some r ∧
    find_player playerId (GameRoom.players r) = Some (i, p) ∧
    ((GameRoom.status r = playing ∧ Player.isCurrentTurn p = true ∧
      nextTurn (rooms_set st roomId (marked_disconnected i p r)) roomId now =
        (rooms_set st roomId (marked_disconnected i p r), Thrown) ∧
      removePlayerFromRoom st roomId playerId now =
        (rooms_set st roomId (marked_disconnected i p r), Thrown)) ∨
     ∃ r1, leave_step now r i p r1 ∧
           removePlayerFromRoom st roomId playerId now =
             (if room_gone r1 then rooms_delete st roomId
              else rooms_set st roomId
                     (GameRoom.set_lastActivity now (reassign_host playerId r1)),
              Returned true)).
Proof.
  unfold removePlayerFromRoom.
  destruct (rooms_get st roomId) as [room|] eqn:Hget; [|left; auto].
  destruct (find_player _ _) as [[i p]|] eqn:Hfind; [|left; eauto].
  right. exists room, i, p. split; [done|]. split; [done|].
  assert (∀ r1,
    match rooms_get (rooms_set st roomId r1) roomId with
    | Some room1 =>
        if bool_decide (length (GameRoom.players room1) = 0%nat)
           || forallb (λ p, negb (Player.isConnected p)) (GameRoom.players room1)
        then ((removeRoom (rooms_set st roomId r1) roomId).1, Returned true)
        else
          (rooms_set (rooms_set st roomId r1) roomId
             (GameRoom.set_lastActivity now
                (if bool_decide (playerId = GameRoom.hostId room1)
                    && (0 <? Z.of_nat (length (GameRoom.players room1)))
                 then
                   match list_find (λ p, Player.isConnected p = true)
                           (GameRoom.players room1) with
                   | Some (_, p) => GameRoom.set_hostId (Player.id p) room1
                   | None => room1
                   end
                 else room1)), Returned true)
    | None => (rooms_set st roomId r1, Thrown)
    end =
    (if room_gone r1 then rooms_delete st roomId
     else rooms_set st roomId
            (GameRoom.set_lastActivity now (reassign_host playerId r1)),
     Returned true)) as Hfinish.
  { intros r1. rewrite rooms_get_set_eq. unfold room_gone, reassign_host.
    destruct (_ || _).
    - unfold removeRoom. rewrite rooms_get_set_eq. simpl.
      by rewrite rooms_delete_set.
    - by rewrite rooms_set_twice. }
  destruct (bool_decide (GameRoom.status room = playing)) eqn:Hst.
  - apply bool_decide_eq_true_1 in Hst.
    fold (marked_disconnected i p room).
    destruct (Player.isCurrentTurn p) eqn:Hturn.
    + destruct (nextTurn_cases
                  (rooms_set st roomId (marked_disconnected i p room)) roomId now)
        as [[_ [Hnone|(r & Hr & Hnot)]]|[Hthrown|(r & r1 & Hr & Hstep & ->)]].
      * by rewrite rooms_get_set_eq in Hnone.
      * rewrite rooms_get_set_eq in Hr. injection Hr as <-. done.
      * left. rewrite Hthrown. done.
      * rewrite rooms_get_set_eq in Hr. injection Hr as <-.
        right. exists r1. split; [by apply leave_mark_turn|].
        rewrite rooms_set_twice. apply Hfinish.
    + right. exists (marked_disconnected i p room).
      split; [by apply leave_mark|]. apply Hfinish.
  - apply bool_decide_eq_false_1 in Hst.
    right. eexists. split; [by apply leave_splice|]. apply Hfinish.
Qed.

Ltac on_written_room H room :=
  apply rooms_get_set_cases in H as [[-> ->]|[_ H]];
  [right; split; [done|]; left; exists room; split; [done|] | by left].

(** Every room of the store after a call is a room of the store before
    it, or the room the call made from the one it names, or the room
    [createRoom] built. *)
Lemma run_room_step st op now k r' :
  fresh_id st op →
  rooms_get (run st op now) k = Some r' →
  rooms_get st k = Some r' ∨
  (op_room op = Some k ∧
   ((∃ r, rooms_get st k = Some r ∧ room_step now op r r') ∨
    (rooms_get st k = None ∧ created_by op now r'))).
Proof.
  intros Hfresh H. destruct op; simpl in Hfresh, H |- *.
  - apply rooms_get_set_cases in H as [[-> ->]|[_ H]]; [|by left].
    right. split; [done|]. by right.
  - unfold getRoom in H.
    destruct (rooms_get st roomId) as [room|] eqn:Hget; simpl in H; [|by left].
    on_written_room H room. constructor.
  - unfold addPlayerToRoom in H.
    destruct (rooms_get st roomId) as [room|] eqn:Hget; simpl in H; [|by left].
    destruct (_ <=? _) eqn:Hfull; [by left|]. apply Z.leb_gt in Hfull.
    destruct (bool_decide (GameRoom.status room = waiting)) eqn:Hst;
      simpl in H; [|by left].
    apply bool_decide_eq_true_1 in Hst.
    on_written_room H room.
    destruct (find_player _ _) as [[i q]|] eqn:Hfind.
    + by eapply step_rejoin.
    + by apply step_join.
  - destruct (removePlayerFromRoom_cases st roomId playerId now)
      as [[Hno _]|(r & i & p & Hget & Hfind
                    & [(Hst & Hturn & _ & Hrun)|(r1 & Hleave & Hrun)])];
      rewrite ?Hno, ?Hrun in H; simpl in H.
    + by left.
    + on_written_room H r. by eapply step_leave_thrown.
    + destruct (room_gone r1) eqn:Hgone.
      * left. by eapply rooms_get_delete_Some.
      * on_written_room H r. by eapply step_leave.
  - unfold updatePlayerInRoom in H.
    destruct (rooms_get st roomId) as [room|] eqn:Hget; simpl in H; [|by left].
    destruct (find_player _ _) as [[i q]|] eqn:Hfind; simpl in H; [|by left].
    on_written_room H room. by eapply step_updatePlayer.
  - unfold updateRoom in H.
    destruct (rooms_get st roomId) as [room|] eqn:Hget; simpl in H; [|by left].
    on_written_room H room. constructor.
  - unfold startGame in H.
    destruct (rooms_get st roomId) as [room|] eqn:Hget; simpl in H; [|by left].
    destruct (_ <? 2) eqn:Hlen; simpl in H; [by left|]. apply Z.ltb_ge in Hlen.
    on_written_room H room. constructor. lia.
  - destruct (nextTurn_cases st roomId now)
      as [[Hrun _]|[Hrun|(r & r1 & Hget & Hstep & Hrun)]];
      rewrite Hrun in H; simpl in H; [by left|by left|].
    on_written_room H r. by constructor.
  - unfold updatePlayerScore in H.
    destruct (rooms_get st roomId) as [room|] eqn:Hget; simpl in H; [|by left].
    destruct (find_player _ _) as [[i p]|] eqn:Hfind; simpl in H; [|by left].
    destruct (Player.isCurrentTurn p) eqn:Hturn; simpl in H; [|by left].
    on_written_room H room. by eapply step_score.
  - unfold resetGame in H.
    destruct (rooms_get st roomId) as [room|] eqn:Hget; simpl in H; [|by left].
    destruct (GameRoom.players room) as [|p0 rest] eqn:Hps; simpl in H.
    + on_written_room H room.
      replace (GameRoom.set_players [] room) with room
        by (destruct room; simpl in *; by subst).
      by apply step_reset_thrown.
    + on_written_room H room.
      replace (GameRoom.set_players _ room) with
        (GameRoom.set_players
           ((λ p, Player.set_shotsRemaining (GameRoom.shotsPerPlayer room)
                    (Player.set_score 0 p)) <$> (p0 :: rest)) room) by done.
      by apply (step_reset now k room p0 rest).
  - unfold removeRoom in H.
    destruct (rooms_get st roomId); simpl in H; [|by left].
    left. by eapply rooms_get_delete_Some.
  - left. by eapply rooms_get_cleanup_Some.
Qed.

(** ** What a step keeps *)

Lemma run_same_room st op now k r r' :
  fresh_id st op →
  rooms_get st k = Some r → rooms_get (run st op now) k = Some r' →
  r' = r ∨ (op_room op = Some k ∧ room_step now op r r').
Proof.
  intros Hfresh Hget Hget'.
  destruct (run_room_step _ _ _ _ _ Hfresh Hget')
    as [Hsame|[Hk [(r0 & Hr0 & Hstep)|[Hnone _]]]].
  - left. congruence.
  - right. split; [done|]. congruence.
  - congruence.
Qed.

Lemma player_ids_insert r i p p' :
  GameRoom.players r !! i = Some p → Player.id p' = Player.id p →
  Player.id <$> <[i := p']> (GameRoom.players r) = player_ids r.
Proof.
  intros Hi Hid. unfold player_ids. rewrite list_fmap_insert, Hid.
  apply list_insert_id. by rewrite list_lookup_fmap, Hi.
Qed.

Lemma player_ids_turn_given (ps : list Player.t) (i : nat) :
  Player.id <$> alter (Player.set_isCurrentTurn true) i
                  (Player.set_isCurrentTurn false <$> ps) =
  Player.id <$> ps.
Proof.
  apply list_eq. intros j.
  rewrite !list_lookup_fmap, lookup_turn_given. by destruct (ps !! j).
Qed.

Lemma turn_step_keeps now r r' :
  turn_step now r r' →
  GameRoom.status r = playing ∧
  (GameRoom.status r' = playing ∨ GameRoom.status r' = completed) ∧
  player_ids r' = player_ids r ∧
  GameRoom.hostId r' = GameRoom.hostId r ∧
  same_settings r r'.
Proof.
  unfold player_ids, same_settings.
  destruct 1 as [r Hst Hps|r i p Hst Hi Hel]; simpl.
  - split_and!; auto.
  - rewrite player_ids_turn_given. split_and!; auto.
Qed.

Lemma leave_step_keeps now r i p r1 :
  GameRoom.players r !! i = Some p →
  leave_step now r i p r1 →
  (GameRoom.status r1 = GameRoom.status r ∨
   (GameRoom.status r = playing ∧ GameRoom.status r1 = completed)) ∧
  ((GameRoom.status r ≠ playing ∧
    GameRoom.players r1 = delete i (GameRoom.players r)) ∨
   (GameRoom.status r = playing ∧ player_ids r1 = player_ids r)) ∧
  GameRoom.hostId r1 = GameRoom.hostId r ∧
  same_settings r r1.
Proof.
  intros Hi. unfold same_settings.
  destruct 1 as [Hst|Hst Hturn|r1 Hst Hturn Hstep]; simpl.
  - split_and!; auto.
  - split_and!; auto. right. split; [done|]. by apply (player_ids_insert r i p).
  - destruct (turn_step_keeps _ _ _ Hstep)
      as (_ & Hst1 & Hids & Hhost & Hid & Hname & Hmax & Hspp & Hrew & Hcre).
    unfold marked_disconnected in *. simpl in *.
    split_and!; auto.
    + destruct Hst1 as [->| ->]; auto.
    + right. split; [done|]. rewrite Hids. by apply (player_ids_insert r i p).
Qed.

Lemma reassign_host_keeps playerId r :
  GameRoom.players (reassign_host playerId r) = GameRoom.players r ∧
  GameRoom.status (reassign_host playerId r) = GameRoom.status r ∧
  GameRoom.currentPlayerIndex (reassign_host playerId r) =
    GameRoom.currentPlayerIndex r ∧
  same_settings r (reassign_host playerId r).
Proof.
  unfold reassign_host, same_settings.
  destruct (_ && _); [|done].
  by destruct (list_find _ _) as [[j q]|].
Qed.

Lemma room_gone_false r :
  room_gone r = false →
  ∃ j q, list_find (λ p, Player.isConnected p = true) (GameRoom.players r)
         = Some (j, q).
Proof.
  unfold room_gone. intros [_ Hall]%orb_false_iff.
  destruct (list_find _ _) as [[j q]|] eqn:Hfind; [eauto|].
  exfalso. apply list_find_None in Hfind.
  assert (forallb (λ p, negb (Player.isConnected p)) (GameRoom.players r) = true);
    [|congruence].
  apply forallb_disconnected. eapply Forall_impl; [done|]. simpl.
  intros q Hq. by destruct (Player.isConnected q).
Qed.

(** The settings of a room are the same after every step that is not an
    [updateRoom]. *)
Lemma room_step_settings now op r r' :
  checked_op [] op → room_step now op r r' → same_settings r r'.
Proof.
  intros Hop Hstep. unfold same_settings.
  destruct Hstep; simpl in *; try done.
  - pose proof (find_player_Some _ _ _ _ H) as (Hi & _ & _).
    destruct (leave_step_keeps _ _ _ _ _ Hi H0) as (_ & _ & _ & Hs).
    destruct (reassign_host_keeps playerId r1) as (_ & _ & _ & Hs').
    unfold same_settings in *. intuition congruence.
  - by destruct (turn_step_keeps _ _ _ H) as (_ & _ & _ & _ & Hs).
Qed.

(** The status of a room changes in a step only as follows. *)
Lemma room_step_status now op r r' :
  room_step now op r r' →
  GameRoom.status r' = GameRoom.status r ∨
  (∃ k, op = OpStartGame k ∧ GameRoom.status r' = playing) ∨
  (((∃ k, op = OpNextTurn k) ∨ (∃ k playerId, op = OpRemovePlayerFromRoom k playerId))
   ∧ GameRoom.status r = playing ∧ GameRoom.status r' = completed) ∨
  (∃ k, op = OpResetGame k ∧ GameRoom.status r' = waiting) ∨
  (∃ k updates, op = OpUpdateRoom k updates ∧
     RoomUpdates.status updates = Some (GameRoom.status r')).
Proof.
  destruct 1; simpl; auto.
  - pose proof (find_player_Some _ _ _ _ H) as (Hi & _ & _).
    destruct (leave_step_keeps _ _ _ _ _ Hi H0) as (Hst & _).
    destruct (reassign_host_keeps playerId r1) as (_ & -> & _).
    destruct Hst as [->|[Hp Hc]]; [by left|].
    right. right. left. split_and!; eauto.
  - destruct (RoomUpdates.status updates) as [s|] eqn:Hs; simpl; [|by left].
    do 4 right. eauto.
  - right. left. eauto.
  - destruct (turn_step_keeps _ _ _ H) as (Hp & [Hst|Hst] & _).
    + left. congruence.
    + right. right. left. split_and!; eauto.
  - do 3 right. left. eauto.
  - do 3 right. left. eauto.
Qed.

(** The ids of the players change in a step only by a join or by a leave
    of a room that is not [playing]. *)
Lemma room_step_ids now op r r' :
  checked_op [] op → room_step now op r r' →
  player_ids r' = player_ids r ∨
  (∃ k player, op = OpAddPlayerToRoom k player ∧
     GameRoom.status r = waiting ∧
     Z.of_nat (length (GameRoom.players r)) < GameRoom.maxPlayers r ∧
     (Player.id player ∉ player_ids r) ∧
     player_ids r' = player_ids r ++ [Player.id player]) ∨
  (∃ k playerId i, op = OpRemovePlayerFromRoom k playerId ∧
     GameRoom.status r ≠ playing ∧
     player_ids r !! i = Some playerId ∧
     (∀ j, (j < i)%nat → (player_ids r !! j) ≠ Some playerId) ∧
     player_ids r' = delete i (player_ids r)).
Proof.
  intros Hop Hstep. unfold player_ids.
  destruct Hstep; simpl in *; try done; auto.
  - right. left. exists k, player. split_and!; try done.
    + pose proof (proj1 (find_player_None _ _) H1) as Hnone.
      intros (q & Hq & Hin)%list_elem_of_fmap. by apply (Hnone q).
    + by rewrite fmap_app.
  - left. destruct (find_player_Some _ _ _ _ H1) as (Hi & Hid & _).
    by apply (player_ids_insert r i q).
  - destruct (find_player_Some _ _ _ _ H) as (Hi & Hid & Hfirst).
    destruct (leave_step_keeps _ _ _ _ _ Hi H0) as (_ & Hps & _).
    destruct (reassign_host_keeps playerId r1) as (-> & _).
    destruct Hps as [[Hst ->]|[_ Hids]]; [|by left].
    right. right. exists k, playerId, i. split_and!; try done.
    + by rewrite list_lookup_fmap, Hi; simpl; rewrite Hid.
    + intros j Hj. rewrite list_lookup_fmap.
      destruct (GameRoom.players r !! j) as [q|] eqn:Hq; simpl; [|done].
      intros [= Heq]. by apply (Hfirst j q).
    + by rewrite list_fmap_delete.
  - left. destruct (find_player_Some _ _ _ _ H) as (Hi & _ & _).
    by apply (player_ids_insert r i p).
  - left. destruct (find_player_Some _ _ _ _ H) as (Hi & Hid & _).
    by apply (player_ids_insert r i q).
  - left. apply list_eq. intros j.
    rewrite !list_lookup_fmap, list_lookup_imap.
    by destruct (GameRoom.players r !! j).
  - left. by destruct (turn_step_keeps _ _ _ H) as (_ & _ & Hids & _).
  - left. destruct (find_player_Some _ _ _ _ H) as (Hi & _ & _).
    by apply (player_ids_insert r i p).
  - left. rewrite H. simpl. f_equal.
    rewrite <- !list_fmap_compose. done.
Qed.

(** ** What sequences of calls keep, room by room *)

Lemma reachable_rooms_ind (allowed : Store → Op → Prop)
    (P : string → GameRoom.t → Prop) :
  (∀ st op now k r', allowed st op → op_room op = Some k →
                     created_by op now r' → P k r') →
  (∀ st op now k r r', allowed st op → P k r → room_step now op r r' →
                       P k r') →
  ∀ st, reachable allowed st → ∀ k r, rooms_get st k = Some r → P k r.
Proof.
  intros Hnew Hstep st Hreach.
  induction Hreach as [|st op now Hreach IH Hfresh Hop]; intros k r' Hget.
  - done.
  - destruct (run_room_step _ _ _ _ _ Hfresh Hget)
      as [Hsame|[Hk [(r & Hr & Hs)|[_ Hcreated]]]]; eauto.
Qed.

Lemma elem_of_delete_other {A} (l : list A) i x y :
  x ∈ l → l !! i = Some y → x ≠ y → x ∈ delete i l.
Proof.
  intros [j Hj]%list_elem_of_lookup_1 Hi Hne.
  assert (j ≠ i) by (intros ->; congruence).
  destruct (decide (j < i)%nat).
  - apply (list_elem_of_lookup_2 _ j). by rewrite list_lookup_delete_lt.
  - apply (list_elem_of_lookup_2 _ (j - 1)).
    rewrite list_lookup_delete_ge by lia.
    by replace (S (j - 1)) with j by lia.
Qed.

Lemma room_step_host now op r r' :
  checked_op [] op → room_step now op r r' →
  GameRoom.hostId r ∈ player_ids r → GameRoom.hostId r' ∈ player_ids r'.
Proof.
  intros Hop Hstep Hhost.
  assert ((∃ k playerId, op = OpRemovePlayerFromRoom k playerId) ∨
          ∀ k playerId, op ≠ OpRemovePlayerFromRoom k playerId)
    as [(k & playerId & ->)|Hother]
    by (destruct op; eauto; right; intros; discriminate).
  - inversion Hstep as [| | |? ? ? i p r1 Hfind Hleave Hgone|? ? ? i p Hfind Hst Hturn
                        | | | | | | |]; subst.
    + destruct (find_player_Some _ _ _ _ Hfind) as (Hi & Hid & _).
      destruct (leave_step_keeps _ _ _ _ _ Hi Hleave) as (_ & Hps & Hh & _).
      destruct (room_gone_false _ Hgone) as (j & q & Hfirst).
      assert (GameRoom.hostId r ∈ player_ids r1 ∨ playerId = GameRoom.hostId r)
        as Hin.
      { destruct Hps as [[_ Hdel]|[_ ->]]; [|by left].
        destruct (decide (playerId = GameRoom.hostId r)); [by right|left].
        unfold player_ids. rewrite Hdel, list_fmap_delete.
        apply (elem_of_delete_other _ _ _ playerId); [done| |congruence].
        by rewrite list_lookup_fmap, Hi; simpl; rewrite Hid. }
      unfold reassign_host. rewrite Hfirst, Hh.
      apply list_find_Some in Hfirst as (Hj & _ & _).
      assert ((0 <? Z.of_nat (length (GameRoom.players r1))) = true) as ->
        by (apply Z.ltb_lt; apply lookup_lt_Some in Hj; lia).
      destruct (bool_decide (playerId = GameRoom.hostId r)) eqn:Hp; simpl.
      * unfold player_ids. simpl. apply list_elem_of_fmap. exists q.
        split; [done|]. by eapply list_elem_of_lookup_2.
      * apply bool_decide_eq_false_1 in Hp. simpl. rewrite Hh.
        by destruct Hin.
    + destruct (find_player_Some _ _ _ _ Hfind) as (Hi & _ & _).
      unfold marked_disconnected, player_ids. simpl.
      by rewrite (player_ids_insert r i p).
  - assert (GameRoom.hostId r' = GameRoom.hostId r) as ->.
    { destruct Hstep; simpl in *; try done.
      - by destruct (Hother k playerId).
      - by destruct (turn_step_keeps _ _ _ H) as (_ & _ & _ & ? & _). }
    destruct (room_step_ids _ _ _ _ Hop Hstep)
      as [->|[(k & player & _ & _ & _ & _ & ->)|(k & pid & i & -> & _)]].
    + done.
    + apply elem_of_app. by left.
    + by destruct (Hother k pid).
Qed.

Lemma room_step_ids_NoDup now op r r' :
  checked_op [] op → room_step now op r r' →
  NoDup (player_ids r) → NoDup (player_ids r').
Proof.
  intros Hop Hstep Hnodup.
  destruct (room_step_ids _ _ _ _ Hop Hstep)
    as [->|[(k & player & _ & _ & _ & Hnew & ->)|(k & pid & i & _ & _ & _ & _ & ->)]].
  - done.
  - apply NoDup_app. split_and!; [done| |apply NoDup_singleton].
    intros x Hx ->%list_elem_of_singleton. done.
  - eapply sublist_NoDup; [done|apply sublist_delete].
Qed.

Lemma room_step_length now op r r' :
  checked_op [] op → room_step now op r r' →
  Z.of_nat (length (GameRoom.players r)) ≤ Z.max 1 (GameRoom.maxPlayers r) →
  Z.of_nat (length (GameRoom.players r')) ≤ Z.max 1 (GameRoom.maxPlayers r').
Proof.
  intros Hop Hstep Hlen.
  destruct (room_step_settings _ _ _ _ Hop Hstep) as (_ & _ & -> & _).
  assert (length (GameRoom.players r) = length (player_ids r)) as Hl
    by (unfold player_ids; by rewrite length_fmap).
  assert (length (GameRoom.players r') = length (player_ids r')) as ->
    by (unfold player_ids; by rewrite length_fmap).
  destruct (room_step_ids _ _ _ _ Hop Hstep)
    as [->|[(k & player & _ & _ & Hroom & _ & ->)|(k & pid & i & _ & _ & _ & _ & ->)]].
  - lia.
  - rewrite length_app. simpl. lia.
  - pose proof (sublist_length _ _ (sublist_delete (player_ids r) i)). lia.
Qed.

(** X1: a room's status only changes in these ways: [startGame] makes it
    [playing]; [nextTurn], or [removePlayerFromRoom] through its
    [nextTurn], takes it from [playing] to [completed]; [resetGame] makes
    it [waiting]; [updateRoom] writes the status it is given.  No other
    call changes the status of a room. *)
Theorem status_changes_only_by st op now k r r' :
  fresh_id st op →
  rooms_get st k = Some r → rooms_get (run st op now) k = Some r' →
  GameRoom.status r' ≠ GameRoom.status r →
  (op = OpStartGame k ∧ GameRoom.status r' = playing) ∨
  ((op = OpNextTurn k ∨ ∃ playerId, op = OpRemovePlayerFromRoom k playerId) ∧
   GameRoom.status r = playing ∧ GameRoom.status r' = completed) ∨
  (op = OpResetGame k ∧ GameRoom.status r' = waiting) ∨
  (∃ updates, op = OpUpdateRoom k updates ∧
     RoomUpdates.status updates = Some (GameRoom.status r')).
Proof.
  intros Hfresh Hget Hget' Hne.
  destruct (run_same_room _ _ _ _ _ _ Hfresh Hget Hget') as [->|[Hk Hstep]];
    [done|].
  destruct (room_step_status _ _ _ _ Hstep)
    as [Hsame|[(k0 & -> & Hp)|[([(k0 & ->)|(k0 & pid & ->)] & Hp & Hc)
       |[(k0 & -> & Hw)|(k0 & u & -> & Hu)]]]];
    try done; simpl in Hk; injection Hk as ->.
  - by left.
  - right. left. split_and!; auto.
  - right. left. split_and!; eauto.
  - do 2 right. left. done.
  - do 3 right. eauto.
Qed.

(** X2: no call other than [updateRoom] changes the [id], [name],
    [maxPlayers], [shotsPerPlayer], [rewardAmount] or [created] of a
    room. *)
Theorem settings_written_only_by_updateRoom st op now k r r' :
  fresh_id st op → checked_op st op →
  rooms_get st k = Some r → rooms_get (run st op now) k = Some r' →
  same_settings r r'.
Proof.
  intros Hfresh Hop Hget Hget'.
  destruct (run_same_room _ _ _ _ _ _ Hfresh Hget Hget') as [->|[Hk Hstep]].
  - by unfold same_settings.
  - apply (room_step_settings now op); [by destruct op|done].
Qed.

(** X3: [updateRoom] aside, the list of player ids of a room changes in
    two ways only: [addPlayerToRoom] appends an id that the room (which
    is [waiting] and not full) does not have yet, and
    [removePlayerFromRoom] takes the first occurrence of the leaver's id
    out of a room that is not [playing].  In particular no player ever
    leaves the list of a [playing] room. *)
Theorem player_ids_change_only_by_join_and_leave st op now k r r' :
  fresh_id st op → checked_op st op →
  rooms_get st k = Some r → rooms_get (run st op now) k = Some r' →
  player_ids r' = player_ids r ∨
  (∃ player, op = OpAddPlayerToRoom k player ∧
     GameRoom.status r = waiting ∧
     Z.of_nat (length (GameRoom.players r)) < GameRoom.maxPlayers r ∧
     (Player.id player ∉ player_ids r) ∧
     player_ids r' = player_ids r ++ [Player.id player]) ∨
  (∃ playerId i, op = OpRemovePlayerFromRoom k playerId ∧
     GameRoom.status r ≠ playing ∧
     player_ids r !! i = Some playerId ∧
     (∀ j, (j < i)%nat → (player_ids r !! j) ≠ Some playerId) ∧
     player_ids r' = delete i (player_ids r)).
Proof.
  intros Hfresh Hop Hget Hget'.
  destruct (run_same_room _ _ _ _ _ _ Hfresh Hget Hget') as [->|[Hk Hstep]];
    [by left|].
  destruct (room_step_ids now op r r' ltac:(by destruct op) Hstep)
    as [?|[(k0 & player & -> & ?)|(k0 & pid & i & -> & ?)]];
    [by left| |]; simpl in Hk; injection Hk as ->.
  - right. left. eauto.
  - right. right. eauto.
Qed.

(** X4: in every store that calls other than [updateRoom] can produce,
    every room has at least one player and its [hostId] is the id of one
    of its players. *)
Theorem host_is_a_player st :
  reachable checked_op st →
  ∀ k r, rooms_get st k = Some r →
    GameRoom.players r ≠ [] ∧
    ∃ p, p ∈ GameRoom.players r ∧ Player.id p = GameRoom.hostId r.
Proof.
  intros Hreach k r Hget.
  assert (GameRoom.hostId r ∈ player_ids r) as Hhost.
  { revert k r Hget.
    apply (reachable_rooms_ind checked_op
             (λ _ r, GameRoom.hostId r ∈ player_ids r)); [| |done].
    - intros st0 op now k r' _ _ Hnew. destruct op; try done.
      simpl in Hnew. subst r'. apply list_elem_of_here.
    - intros st0 op now k r r' Hop Hr Hstep.
      apply (room_step_host now op r); [by destruct op|done|done]. }
  apply list_elem_of_fmap in Hhost as (p & Hid & Hp).
  split; [|eauto]. intros Hnil. rewrite Hnil in Hp. by apply elem_of_nil in Hp.
Qed.

(** X5: in every store that calls other than [updateRoom] can produce, no
    two players of a room have the same id. *)
Theorem player_ids_are_unique st :
  reachable checked_op st →
  ∀ k r, rooms_get st k = Some r → NoDup (player_ids r).
Proof.
  apply (reachable_rooms_ind checked_op (λ _ r, NoDup (player_ids r))).
  - intros st0 op now k r' _ _ Hnew. destruct op; try done.
    simpl in Hnew. subst r'. apply NoDup_singleton.
  - intros st0 op now k r r' Hop Hr Hstep.
    apply (room_step_ids_NoDup now op r); [by destruct op|done|done].
Qed.

(** X6: in every store that calls other than [updateRoom] can produce, a
    room has at most [maxPlayers] players, the host alone being allowed
    in a room created with [maxPlayers] below 1. *)
Theorem players_within_maxPlayers st :
  reachable checked_op st →
  ∀ k r, rooms_get st k = Some r →
    Z.of_nat (length (GameRoom.players r)) ≤ Z.max 1 (GameRoom.maxPlayers r).
Proof.
  apply (reachable_rooms_ind checked_op
           (λ _ r, Z.of_nat (length (GameRoom.players r))
                   ≤ Z.max 1 (GameRoom.maxPlayers r))).
  - intros st0 op now k r' _ _ Hnew. destruct op; try done.
    simpl in Hnew. subst r'. simpl. lia.
  - intros st0 op now k r r' Hop Hr Hstep.
    apply (room_step_length now op r); [by destruct op|done|done].
Qed.

(** X7: in every store that calls other than [updateRoom] can produce,
    each room is stored under its own [id]. *)
Theorem room_is_stored_under_its_id st :
  reachable checked_op st →
  ∀ k r, rooms_get st k = Some r → GameRoom.id r = k.
Proof.
  apply (reachable_rooms_ind checked_op (λ k r, GameRoom.id r = k)).
  - intros st0 op now k r' _ Hk Hnew. destruct op; try done.
    simpl in Hnew, Hk. subst r'. simpl. congruence.
  - intros st0 op now k r r' Hop Hr Hstep.
    destruct (room_step_settings now op r r' ltac:(by destruct op) Hstep)
      as (-> & _). done.
Qed.

(** ** The ids under which rooms are stored *)

Lemma rooms_get_None_keys (st : Store) k : rooms_get st k = None ↔ k ∉ st.*1.
Proof.
  induction st as [|[k0 r0] st IH]; simpl.
  - split; [intros _; apply not_elem_of_nil|done].
  - rewrite not_elem_of_cons. destruct (decide (k0 = k)) as [->|Hne].
    + split; [done|]. by intros [? _].
    + rewrite IH. split; [|by intros [_ ?]]. intros ?. split; [congruence|done].
Qed.

Lemma keys_set_present (st : Store) k r r0 :
  rooms_get st k = Some r0 → (rooms_set st k r).*1 = st.*1.
Proof.
  induction st as [|[k0 r1] st IH]; simpl; [done|].
  destruct (decide (k0 = k)) as [->|Hne]; simpl; [done|].
  intros H. f_equal. by apply IH.
Qed.

Lemma keys_set_absent (st : Store) k r :
  rooms_get st k = None → (rooms_set st k r).*1 = st.*1 ++ [k].
Proof.
  induction st as [|[k0 r1] st IH]; simpl; [done|].
  destruct (decide (k0 = k)) as [->|Hne]; simpl; [done|].
  intros H. f_equal. by apply IH.
Qed.

Lemma NoDup_keys_set (st : Store) k r :
  NoDup st.*1 → NoDup (rooms_set st k r).*1.
Proof.
  intros Hnodup. destruct (rooms_get st k) as [r0|] eqn:Hget.
  - by rewrite (keys_set_present _ _ _ r0).
  - rewrite keys_set_absent by done. apply NoDup_app. split_and!; [done| |].
    + intros x Hx ->%list_elem_of_singleton. by apply rooms_get_None_keys in Hget.
    + apply NoDup_singleton.
Qed.

Lemma elem_of_rooms_delete (st : Store) a e :
  e ∈ rooms_delete st a ↔ e ∈ st ∧ e.1 ≠ a.
Proof.
  induction st as [|[k0 r0] st IH]; simpl.
  - split; [by intros ?%elem_of_nil|by intros [?%elem_of_nil _]].
  - destruct (decide (k0 = a)) as [->|Hne].
    + rewrite IH, elem_of_cons. split.
      * intros [? ?]. auto.
      * intros [[->|?] ?]; [done|done].
    + rewrite !elem_of_cons, IH. split.
      * intros [->|[? ?]]; [|by auto]. split; [by left|done].
      * intros [[->|?] ?]; auto.
Qed.

Lemma keys_delete_sublist (st : Store) a :
  (rooms_delete st a).*1 `sublist_of` st.*1.
Proof.
  induction st as [|[k0 r0] st IH]; simpl; [done|].
  destruct (decide (k0 = a)); simpl.
  - by apply sublist_cons.
  - by apply sublist_skip.
Qed.

Lemma NoDup_keys_delete (st : Store) a :
  NoDup st.*1 → NoDup (rooms_delete st a).*1.
Proof. intros H. eapply sublist_NoDup; [done|apply keys_delete_sublist]. Qed.

Lemma NoDup_keys_removeRoom (st : Store) a :
  NoDup st.*1 → NoDup (removeRoom st a).1.*1.
Proof.
  intros H. unfold removeRoom.
  destruct (rooms_get st a); simpl; [by apply NoDup_keys_delete|done].
Qed.

Lemma NoDup_keys_cleanup (st : Store) now :
  NoDup st.*1 → NoDup (cleanupInactiveRooms st now).*1.
Proof.
  unfold cleanupInactiveRooms. generalize st at 2. intros entries. revert st.
  induction entries as [|e entries IH]; intros st H; simpl; [done|].
  apply IH. destruct (_ <? _); [by apply NoDup_keys_removeRoom|done].
Qed.

Lemma NoDup_keys_run st op now : NoDup st.*1 → NoDup (run st op now).*1.
Proof.
  intros H. destruct op; simpl.
  - by apply NoDup_keys_set.
  - unfold getRoom. destruct (rooms_get st roomId); simpl;
      [by apply NoDup_keys_set|done].
  - unfold addPlayerToRoom. destruct (rooms_get st roomId); [|done].
    destruct (_ <=? _); [done|]. destruct (negb _); [done|].
    by apply NoDup_keys_set.
  - destruct (removePlayerFromRoom_cases st roomId playerId now)
      as [[-> _]|(r & i & p & _ & _ & [(_ & _ & _ & ->)|(r1 & _ & ->)])]; simpl.
    + done.
    + by apply NoDup_keys_set.
    + destruct (room_gone r1);
        [by apply NoDup_keys_delete|by apply NoDup_keys_set].
  - unfold updatePlayerInRoom. destruct (rooms_get st roomId); [|done].
    destruct (find_player _ _) as [[i q]|]; [|done]. by apply NoDup_keys_set.
  - unfold updateRoom. destruct (rooms_get st roomId); [|done].
    by apply NoDup_keys_set.
  - unfold startGame. destruct (rooms_get st roomId); [|done].
    destruct (_ <? 2); [done|]. by apply NoDup_keys_set.
  - destruct (nextTurn_cases st roomId now)
      as [[-> _]|[->|(r & r1 & _ & _ & ->)]]; simpl; [done|done|].
    by apply NoDup_keys_set.
  - unfold updatePlayerScore. destruct (rooms_get st roomId); [|done].
    destruct (find_player _ _) as [[i q]|]; [|done].
    destruct (negb _); [done|]. by apply NoDup_keys_set.
  - unfold resetGame. destruct (rooms_get st roomId) as [room|]; [|done].
    destruct (GameRoom.players room); simpl; by apply NoDup_keys_set.
  - by apply NoDup_keys_removeRoom.
  - by apply NoDup_keys_cleanup.
Qed.

(** The store holds each id once, as a [Map] does. *)
Lemma reachable_keys_NoDup allowed st : reachable allowed st → NoDup st.*1.
Proof.
  induction 1; [apply NoDup_nil_2|by apply NoDup_keys_run].
Qed.

Lemma rooms_get_elem_of (st : Store) k r :
  rooms_get st k = Some r → (k, r) ∈ st.
Proof.
  induction st as [|[k0 r0] st IH]; simpl; [done|].
  destruct (decide (k0 = k)) as [->|Hne].
  - intros [= ->]. apply list_elem_of_here.
  - intros H. apply list_elem_of_further. auto.
Qed.

Lemma elem_of_rooms_get (st : Store) k r :
  NoDup st.*1 → (k, r) ∈ st → rooms_get st k = Some r.
Proof.
  induction st as [|[k0 r0] st IH]; simpl; [by intros _ ?%elem_of_nil|].
  intros [Hk0 Hnodup]%NoDup_cons [[= -> ->]|Hin]%elem_of_cons.
  - by rewrite decide_True.
  - rewrite decide_False; [auto|]. intros ->. apply Hk0.
    apply list_elem_of_fmap. by exists (k, r).
Qed.

(** ** [removeRoom] and [cleanupInactiveRooms] *)

Lemma elem_of_cleanup_fold now (entries : Store) : ∀ (acc : Store) e,
  e ∈ fold_left
        (λ acc e, if maxInactiveTime <? now - GameRoom.lastActivity e.2
                  then (removeRoom acc e.1).1 else acc) entries acc ↔
  e ∈ acc ∧
  ∀ e', e' ∈ entries →
        maxInactiveTime < now - GameRoom.lastActivity e'.2 → e'.1 ≠ e.1.
Proof.
  induction entries as [|e0 entries IH]; intros acc e; simpl.
  - split; [|by intros [? _]]. intros ?. split; [done|]. by intros ? ?%elem_of_nil.
  - rewrite IH. clear IH.
    assert (e ∈ (if maxInactiveTime <? now - GameRoom.lastActivity e0.2
                 then (removeRoom acc e0.1).1 else acc) ↔
            e ∈ acc ∧ (maxInactiveTime < now - GameRoom.lastActivity e0.2 →
                       e0.1 ≠ e.1)) as ->.
    { destruct (_ <? _) eqn:Hstale.
      - apply Z.ltb_lt in Hstale. unfold removeRoom.
        destruct (rooms_get acc e0.1) eqn:Hget; simpl.
        + rewrite elem_of_rooms_delete. split.
          * intros [? Hne]. split; [done|]. intros _ Heq. by apply Hne.
          * intros [? Hne]. split; [done|]. intros Heq. by apply Hne.
        + split; [|by intros [? _]]. intros He. split; [done|]. intros _ Heq.
          apply rooms_get_None_keys in Hget. apply Hget.
          rewrite Heq. apply list_elem_of_fmap. by exists e.
      - apply Z.ltb_ge in Hstale. split; [|by intros [? _]].
        intros ?. split; [done|lia]. }
    split.
    + intros [[He H0] Hrest]. split; [done|].
      intros e' [->|?]%elem_of_cons; auto.
    + intros [He Hall]. split; [split; [done|]|].
      * apply Hall. apply list_elem_of_here.
      * intros e' He'. apply Hall. by apply list_elem_of_further.
Qed.

Lemma cleanup_lookup (st : Store) now k r :
  NoDup st.*1 →
  rooms_get (cleanupInactiveRooms st now) k = Some r ↔
  rooms_get st k = Some r ∧ now - GameRoom.lastActivity r ≤ maxInactiveTime.
Proof.
  intros Hnodup. split.
  - intros Hget. pose proof (rooms_get_cleanup_Some _ _ _ _ Hget) as Hst.
    split; [done|].
    apply rooms_get_elem_of, elem_of_cleanup_fold in Hget as [Hin Hall].
    destruct (decide (now - GameRoom.lastActivity r ≤ maxInactiveTime));
      [done|].
    exfalso. apply (Hall (k, r)); [done|simpl; lia|done].
  - intros [Hget Hfresh].
    apply elem_of_rooms_get; [by apply NoDup_keys_cleanup|].
    apply elem_of_cleanup_fold. split; [by apply rooms_get_elem_of|].
    intros [k' r'] Hin Hstale Heq. simpl in *. subst k'.
    apply (elem_of_rooms_get _ _ _ Hnodup) in Hin. 
    assert (r' = r) as -> by congruence. lia.
Qed.

(** X8: [removeRoom] returns [true] exactly when the store has a room
    under the id; afterwards there is none, every other room is as
    before, and a second [removeRoom] returns [false] and changes
    nothing. *)
Theorem removeRoom_deletes st roomId :
  (removeRoom st roomId).2 =
    Returned (bool_decide (is_Some (rooms_get st roomId))) ∧
  rooms_get (removeRoom st roomId).1 roomId = None ∧
  (∀ k, k ≠ roomId →
        rooms_get (removeRoom st roomId).1 k = rooms_get st k) ∧
  removeRoom (removeRoom st roomId).1 roomId =
    ((removeRoom st roomId).1, Returned false).
Proof.
  destruct (rooms_get st roomId) as [r|] eqn:Hget.
  - assert (removeRoom st roomId = (rooms_delete st roomId, Returned true))
      as -> by (unfold removeRoom; by rewrite Hget).
    simpl. split_and!.
    + done.
    + apply rooms_get_delete_eq.
    + intros k Hk. by apply rooms_get_delete_ne.
    + unfold removeRoom. by rewrite rooms_get_delete_eq.
  - assert (removeRoom st roomId = (st, Returned false))
      as -> by (unfold removeRoom; by rewrite Hget).
    simpl. split_and!; try done.
    unfold removeRoom. by rewrite Hget.
Qed.

(** X9: on a store the coordinator can be in, [cleanupInactiveRooms]
    removes exactly the rooms whose [lastActivity] is more than 24 hours
    before [now], whatever their status: a room is in the store
    afterwards exactly when it was there before and has
    [now - lastActivity <= 24 h]. *)
Theorem cleanupInactiveRooms_removes_exactly_stale st now :
  reachable any_op st →
  ∀ k r,
    rooms_get (cleanupInactiveRooms st now) k = Some r ↔
    rooms_get st k = Some r ∧
    now - GameRoom.lastActivity r ≤ maxInactiveTime.
Proof.
  intros Hreach k r. apply cleanup_lookup. by eapply reachable_keys_NoDup.
Qed.

(** X10: reading a room with [getRoom] at time [t] keeps it in the store
    through every [cleanupInactiveRooms] run up to 24 hours after [t],
    however old the room was. *)
Theorem getRoom_postpones_cleanup st roomId t now room :
  reachable any_op st →
  rooms_get st roomId = Some room →
  now - t ≤ maxInactiveTime →
  rooms_get (cleanupInactiveRooms (getRoom st roomId t).1 now) roomId =
    Some (GameRoom.set_lastActivity t room).
Proof.
  intros Hreach Hget Hnow. unfold getRoom. rewrite Hget. simpl.
  apply cleanup_lookup.
  - apply NoDup_keys_set. by eapply reachable_keys_NoDup.
  - split; [apply rooms_get_set_eq|done].
Qed.

(** X11: right after [cleanupInactiveRooms], [getActiveRooms] lists no
    stale room: every room it returns at the same instant was active at
    most 24 hours ago, and less than 24 hours ago if it is [playing]. *)
Theorem getActiveRooms_after_cleanup_is_fresh st now r :
  r ∈ getActiveRooms (cleanupInactiveRooms st now) now →
  now - GameRoom.lastActivity r ≤ maxInactiveTime ∧
  (GameRoom.status r = waiting ∨
   (GameRoom.status r = playing ∧
    now - GameRoom.lastActivity r < maxInactiveTime)).
Proof.
  unfold getActiveRooms. rewrite sort_newest_first_perm.
  rewrite list_elem_of_In, filter_In, <- list_elem_of_In, is_active_spec.
  intros [Hin Hact]. split; [|done].
  unfold rooms_values in Hin.
  apply list_elem_of_fmap in Hin as ([k r0] & -> & Hin). simpl.
  apply elem_of_cleanup_fold in Hin as [Hin Hall].
  destruct (decide (now - GameRoom.lastActivity r0 ≤ maxInactiveTime));
    [done|].
  exfalso. apply (Hall (k, r0)); [done|simpl; lia|done].
Qed.

(** ** The calls one by one *)

(** X12: [startGame] returns [false] and changes nothing when the room is
    unknown or has fewer than two players.  Otherwise it returns [true]
    whatever the status of the room (a [playing] or [completed] room is
    started again): the room is [playing] with [currentPlayerIndex] 0,
    [isCurrentTurn] is set for the player at index 0 and for no other,
    and scores, [shotsRemaining], connections, host, settings and the
    other rooms are as before. *)
Theorem startGame_starts_whatever_the_status :
  (∀ st roomId now,
     (rooms_get st roomId = None ∨
      ∃ room, rooms_get st roomId = Some room ∧
              (length (GameRoom.players room) < 2)%nat) →
     startGame st roomId now = (st, Returned false)) ∧
  (∀ st roomId now room,
     rooms_get st roomId = Some room →
     (2 ≤ length (GameRoom.players room))%nat →
     ∃ st' room',
       startGame st roomId now = (st', Returned true) ∧
       rooms_get st' roomId = Some room' ∧
       (∀ k, k ≠ roomId → rooms_get st' k = rooms_get st k) ∧
       GameRoom.status room' = playing ∧
       GameRoom.currentPlayerIndex room' = 0 ∧
       GameRoom.lastActivity room' = now ∧
       GameRoom.hostId room' = GameRoom.hostId room ∧
       same_settings room room' ∧
       ∀ j, GameRoom.players room' !! j =
            Player.set_isCurrentTurn (bool_decide (j = 0%nat))
              <$> GameRoom.players room !! j).
Proof.
  split.
  - intros st roomId now [Hget|(room & Hget & Hlen)]; unfold startGame;
      rewrite Hget; [done|].
    by assert ((Z.of_nat (length (GameRoom.players room)) <? 2) = true) as ->
      by (apply Z.ltb_lt; lia).
  - intros st roomId now room Hget Hlen. unfold startGame. rewrite Hget.
    assert ((Z.of_nat (length (GameRoom.players room)) <? 2) = false) as ->
      by (apply Z.ltb_ge; lia).
    eexists _, _. split; [done|]. split; [apply rooms_get_set_eq|].
    split; [intros k Hk; by apply rooms_get_set_ne|].
    simpl. unfold same_settings. simpl. split_and!; try done.
    intros j. by rewrite list_lookup_imap.
Qed.

(** X13: [addPlayerToRoom] returns [false] and changes nothing when the
    room is unknown, when it already has [maxPlayers] players or more,
    or when its status is not [waiting]; this holds whoever the player
    is, so a player who is already in a full room cannot re-join it. *)
Theorem addPlayerToRoom_refuses st roomId player now :
  (rooms_get st roomId = None ∨
   ∃ room, rooms_get st roomId = Some room ∧
           (GameRoom.maxPlayers room
              ≤ Z.of_nat (length (GameRoom.players room)) ∨
            GameRoom.status room ≠ waiting)) →
  addPlayerToRoom st roomId player now = (st, Returned false).
Proof.
  unfold addPlayerToRoom. intros [Hget|(room & Hget & Hno)]; rewrite Hget; [done|].
  destruct (_ <=? _) eqn:Hfull; [done|]. apply Z.leb_gt in Hfull.
  destruct Hno as [?|Hst]; [lia|]. by rewrite bool_decide_eq_false_2.
Qed.

(** X14: on a [waiting] room with fewer than [maxPlayers] players
    [addPlayerToRoom] returns [true].  A player whose id is new to the
    room is appended at the end with score 0, the room's
    [shotsPerPlayer], connected and without the turn, whatever the
    caller put in those fields.  A player whose id is already in the
    room replaces the first player with that id, in place, with the
    room's [shotsPerPlayer] and connected, and with the score and
    [isCurrentTurn] the caller gave.  The other players, the room's
    other fields and the other rooms are as before. *)
Theorem addPlayerToRoom_joins st roomId player now room :
  rooms_get st roomId = Some room →
  GameRoom.status room = waiting →
  Z.of_nat (length (GameRoom.players room)) < GameRoom.maxPlayers room →
  ∃ st' room',
    addPlayerToRoom st roomId player now = (st', Returned true) ∧
    rooms_get st' roomId = Some room' ∧
    (∀ k, k ≠ roomId → rooms_get st' k = rooms_get st k) ∧
    GameRoom.status room' = waiting ∧
    GameRoom.currentPlayerIndex room' = GameRoom.currentPlayerIndex room ∧
    GameRoom.hostId room' = GameRoom.hostId room ∧
    GameRoom.lastActivity room' = now ∧
    same_settings room room' ∧
    ((∀ q, q ∈ GameRoom.players room → Player.id q ≠ Player.id player) →
     GameRoom.players room' =
       GameRoom.players room ++
         [Player.mk (Player.id player) (Player.name player)
            (Player.walletAddress player) 0 (GameRoom.shotsPerPlayer room)
            true false]) ∧
    (∀ i q, find_player (Player.id player) (GameRoom.players room)
            = Some (i, q) →
     GameRoom.players room' =
       <[i := Player.mk (Player.id player) (Player.name player)
                (Player.walletAddress player) (Player.score player)
                (GameRoom.shotsPerPlayer room) true
                (Player.isCurrentTurn player)]> (GameRoom.players room)).
Proof.
  intros Hget Hst Hroom. unfold addPlayerToRoom. rewrite Hget, Hst.
  assert ((GameRoom.maxPlayers room
             <=? Z.of_nat (length (GameRoom.players room))) = false) as ->
    by (apply Z.leb_gt; lia).
  simpl. eexists _, _. split; [done|]. split; [apply rooms_get_set_eq|].
  split; [intros k Hk; by apply rooms_get_set_ne|].
  unfold same_settings. simpl. split_and!; try done.
  - intros Hnew. apply find_player_None in Hnew. by rewrite Hnew.
  - intros i q ->. done.
Qed.

(** X16: [updatePlayerInRoom] returns [false] and changes nothing when
    the room is unknown or has no player with the id of the given
    player.  Otherwise it returns [true] and puts the given player, as
    it is, in the place of the first player with that id: no check of
    turn, score, shots or connection is made, and everything else but
    [lastActivity] is as before. *)
Theorem updatePlayerInRoom_replaces_one :
  (∀ st roomId updatedPlayer now,
     (rooms_get st roomId = None ∨
      ∃ room, rooms_get st roomId = Some room ∧
              ∀ q, q ∈ GameRoom.players room →
                   Player.id q ≠ Player.id updatedPlayer) →
     updatePlayerInRoom st roomId updatedPlayer now = (st, Returned false)) ∧
  (∀ st roomId updatedPlayer now room i q,
     rooms_get st roomId = Some room →
     find_player (Player.id updatedPlayer) (GameRoom.players room)
       = Some (i, q) →
     ∃ st' room',
       updatePlayerInRoom st roomId updatedPlayer now = (st', Returned true) ∧
       rooms_get st' roomId = Some room' ∧
       (∀ k, k ≠ roomId → rooms_get st' k = rooms_get st k) ∧
       GameRoom.players room' !! i = Some updatedPlayer ∧
       (∀ j, j ≠ i →
             GameRoom.players room' !! j = GameRoom.players room !! j) ∧
       length (GameRoom.players room') = length (GameRoom.players room) ∧
       GameRoom.status room' = GameRoom.status room ∧
       GameRoom.currentPlayerIndex room' = GameRoom.currentPlayerIndex room ∧
       GameRoom.hostId room' = GameRoom.hostId room ∧
       GameRoom.lastActivity room' = now ∧
       same_settings room room').
Proof.
  split.
  - intros st roomId updatedPlayer now [Hget|(room & Hget & Hnone)];
      unfold updatePlayerInRoom; rewrite Hget; [done|].
    apply find_player_None in Hnone. by rewrite Hnone.
  - intros st roomId updatedPlayer now room i q Hget Hfind.
    unfold updatePlayerInRoom. rewrite Hget, Hfind.
    destruct (find_player_Some _ _ _ _ Hfind) as (Hi & _ & _).
    pose proof (lookup_lt_Some _ _ _ Hi) as Hlt.
    eexists _, _. split; [done|]. split; [apply rooms_get_set_eq|].
    split; [intros k Hk; by apply rooms_get_set_ne|].
    unfold same_settings. simpl. split_and!; try done.
    + by apply list_lookup_insert_eq.
    + intros j Hj. by apply list_lookup_insert_ne.
    + apply length_insert.
Qed.

(** X17: [updateRoom] on a room of the store returns [true] and writes
    the given fields over the room, the others staying as they were,
    except that [lastActivity] is always the time of the call, also when
    the updates give one.  The room stays under the id it was stored
    under even when the updates give another [id]: the ids of the store
    and every other room are as before. *)
Theorem updateRoom_keeps_the_key st roomId updates now room :
  rooms_get st roomId = Some room →
  ∃ st' room',
    updateRoom st roomId updates now = (st', Returned true) ∧
    st'.*1 = st.*1 ∧
    rooms_get st' roomId = Some room' ∧
    (∀ k, k ≠ roomId → rooms_get st' k = rooms_get st k) ∧
    GameRoom.lastActivity room' = now ∧
    GameRoom.id room' = default (GameRoom.id room) (RoomUpdates.id updates) ∧
    GameRoom.name room' =
      default (GameRoom.name room) (RoomUpdates.name updates) ∧
    GameRoom.hostId room' =
      default (GameRoom.hostId room) (RoomUpdates.hostId updates) ∧
    GameRoom.players room' =
      default (GameRoom.players room) (RoomUpdates.players updates) ∧
    GameRoom.maxPlayers room' =
      default (GameRoom.maxPlayers room) (RoomUpdates.maxPlayers updates) ∧
    GameRoom.status room' =
      default (GameRoom.status room) (RoomUpdates.status updates) ∧
    GameRoom.currentPlayerIndex room' =
      default (GameRoom.currentPlayerIndex room)
        (RoomUpdates.currentPlayerIndex updates) ∧
    GameRoom.shotsPerPlayer room' =
      default (GameRoom.shotsPerPlayer room)
        (RoomUpdates.shotsPerPlayer updates) ∧
    GameRoom.rewardAmount room' =
      default (GameRoom.rewardAmount room) (RoomUpdates.rewardAmount updates) ∧
    GameRoom.created room' =
      default (GameRoom.created room) (RoomUpdates.created updates).
Proof.
  intros Hget. unfold updateRoom. rewrite Hget.
  eexists _, _. split; [done|]. split; [by eapply keys_set_present|].
  split; [apply rooms_get_set_eq|].
  split; [intros k Hk; by apply rooms_get_set_ne|]. done.
Qed.

(** X18: a call that names an id under which the store has no room
    changes nothing and returns its negative result ([null] for
    [getRoom] and [getWinner], [false] for the others); none throws. *)
Theorem unknown_room_is_refused st roomId :
  rooms_get st roomId = None →
  (∀ now, getRoom st roomId now = (st, None)) ∧
  (∀ player now,
     addPlayerToRoom st roomId player now = (st, Returned false)) ∧
  (∀ playerId now,
     removePlayerFromRoom st roomId playerId now = (st, Returned false)) ∧
  (∀ updatedPlayer now,
     updatePlayerInRoom st roomId updatedPlayer now = (st, Returned false)) ∧
  (∀ updates now, updateRoom st roomId updates now = (st, Returned false)) ∧
  (∀ now, startGame st roomId now = (st, Returned false)) ∧
  (∀ now, nextTurn st roomId now = (st, Returned false)) ∧
  (∀ playerId s now,
     updatePlayerScore st roomId playerId s now = (st, Returned false)) ∧
  (∀ now, resetGame st roomId now = (st, Returned false)) ∧
  removeRoom st roomId = (st, Returned false) ∧
  getWinner st roomId = None.
Proof.
  intros Hget.
  unfold getRoom, addPlayerToRoom, removePlayerFromRoom, updatePlayerInRoom,
    updateRoom, startGame, nextTurn, updatePlayerScore, resetGame, removeRoom,
    getWinner.
  rewrite Hget. split_and!; done.
Qed.

(** X19: [createRoom] stores the new room under the fresh id, after the
    rooms that were there, which it leaves as they were.  The new room
    is [waiting] with the host as its only player.  As long as nothing
    is called on it, [getActiveRooms] lists it after every
    [cleanupInactiveRooms] run up to 24 hours after its creation, and a
    [cleanupInactiveRooms] run later than that deletes it.  It has no
    winner, and [startGame] on it returns [false] and changes nothing as
    long as nobody else has joined. *)
Theorem createRoom_stores_a_waiting_room st roomId hostId hostName
    walletAddress roomName maxPlayers shotsPerPlayer rewardAmount
    created_at now :
  reachable any_op st →
  rooms_get st roomId = None →
  let '(st', room) :=
    createRoom st roomId hostId hostName walletAddress roomName maxPlayers
      shotsPerPlayer rewardAmount created_at now in
  rooms_get st' roomId = Some room ∧
  (∀ k, k ≠ roomId → rooms_get st' k = rooms_get st k) ∧
  st'.*1 = st.*1 ++ [roomId] ∧
  GameRoom.status room = waiting ∧
  GameRoom.hostId room = hostId ∧
  GameRoom.players room =
    [Player.mk hostId hostName walletAddress 0 shotsPerPlayer true true] ∧
  GameRoom.lastActivity room = now ∧
  (∀ later, later - now ≤ maxInactiveTime →
     room ∈ getActiveRooms (cleanupInactiveRooms st' later) later) ∧
  (∀ later, maxInactiveTime < later - now →
     rooms_get (cleanupInactiveRooms st' later) roomId = None) ∧
  getWinner st' roomId = None ∧
  (∀ later, startGame st' roomId later = (st', Returned false)).
Proof.
  intros Hreach Hfresh. simpl.
  set (room := GameRoom.mk _ _ _ _ _ _ _ _ _ _ _).
  assert (NoDup (rooms_set st roomId room).*1) as Hnodup
    by (apply NoDup_keys_set; by eapply reachable_keys_NoDup).
  split; [apply rooms_get_set_eq|].
  split; [intros k Hk; by apply rooms_get_set_ne|].
  split; [by apply keys_set_absent|].
  split_and!; try done.
  - intros later Hlater. unfold getActiveRooms.
    rewrite sort_newest_first_perm, list_elem_of_In, filter_In,
      <- list_elem_of_In.
    split; [|done]. eapply rooms_get_values.
    apply (cleanup_lookup _ later roomId room Hnodup).
    split; [apply rooms_get_set_eq|done].
  - intros later Hlater.
    destruct (rooms_get (cleanupInactiveRooms _ later) roomId) as [r|] eqn:Hget;
      [|done].
    apply (cleanup_lookup _ later roomId r Hnodup) in Hget as [Hget Hidle].
    rewrite rooms_get_set_eq in Hget. injection Hget as <-.
    simpl in Hidle. lia.
  - unfold getWinner. by rewrite rooms_get_set_eq.
  - intros later. unfold startGame. by rewrite rooms_get_set_eq.
Qed.

(** ** Leaving a game in progress *)

(** On a [playing] room with a player and [currentPlayerIndex >= 0],
    [nextTurn] returns [true]. *)
Lemma nextTurn_returns st roomId now r :
  rooms_get st roomId = Some r → GameRoom.status r = playing →
  GameRoom.players r ≠ [] → 0 ≤ GameRoom.currentPlayerIndex r →
  (nextTurn st roomId now).2 = Returned true.
Proof.
  intros Hget Hst Hps Hc. rewrite (nextTurn_playing _ _ _ _ Hget Hst Hps).
  pose proof (js_increment_pos _ Hc) as Hsum.
  pose proof (scan_from (GameRoom.players r)
                (js_add (GameRoom.currentPlayerIndex r) 1 - 1)
                Hps ltac:(lia)) as Hscan.
  cbv zeta in Hscan.
  replace (js_add (GameRoom.currentPlayerIndex r) 1 - 1 + 1)
    with (js_add (GameRoom.currentPlayerIndex r) 1) in Hscan by lia.
  by destruct (scan _ _ _ _).
Qed.

Lemma marked_disconnected_lookup r i p j :
  GameRoom.players r !! i = Some p →
  GameRoom.players (marked_disconnected i p r) !! j =
    (λ q, if decide (j = i) then Player.set_isConnected false q else q)
      <$> GameRoom.players r !! j.
Proof.
  intros Hi. unfold marked_disconnected. simpl.
  destruct (decide (j = i)) as [->|Hne].
  - rewrite list_lookup_insert_eq by (by eapply lookup_lt_Some).
    by rewrite Hi.
  - rewrite list_lookup_insert_ne by done. by destruct (_ !! j).
Qed.

Lemma turn_step_seats now r r' :
  turn_step now r r' →
  ∀ j q', GameRoom.players r' !! j = Some q' →
    ∃ q, GameRoom.players r !! j = Some q ∧ same_seat q q' ∧
         Player.isConnected q' = Player.isConnected q.
Proof.
  destruct 1 as [r Hst Hps|r i p Hst Hi Hel]; simpl; intros j q' Hq'.
  - exists q'. by unfold same_seat.
  - rewrite lookup_turn_given in Hq'.
    destruct (GameRoom.players r !! j) as [q|]; simpl in Hq'; [|done].
    injection Hq' as <-. exists q. by unfold same_seat.
Qed.

(** The room of [removePlayerFromRoom] before its removal test, when the
    room is [playing]. *)
Lemma leave_playing_keeps now r i p r1 :
  GameRoom.status r = playing → GameRoom.players r !! i = Some p →
  leave_step now r i p r1 →
  (∀ j q', GameRoom.players r1 !! j = Some q' →
     ∃ q, GameRoom.players r !! j = Some q ∧ same_seat q q' ∧
          Player.isConnected q' =
            if decide (j = i) then false else Player.isConnected q) ∧
  length (GameRoom.players r1) = length (GameRoom.players r) ∧
  (Player.isCurrentTurn p = false →
   GameRoom.status r1 = playing ∧
   GameRoom.currentPlayerIndex r1 = GameRoom.currentPlayerIndex r ∧
   ∀ j q', GameRoom.players r1 !! j = Some q' →
     ∃ q, GameRoom.players r !! j = Some q ∧
          Player.isCurrentTurn q' = Player.isCurrentTurn q) ∧
  (Player.isCurrentTurn p = true →
   GameRoom.status r1 = completed ∨
   (GameRoom.status r1 = playing ∧
    ∃ j q, j ≠ i ∧ GameRoom.players r !! j = Some q ∧ eligible q ∧
           GameRoom.currentPlayerIndex r1 = Z.of_nat j ∧
           ∀ j' q', GameRoom.players r1 !! j' = Some q' →
                    Player.isCurrentTurn q' = bool_decide (j' = j))).
Proof.
  intros Hst Hi Hleave.
  assert (∀ j q', GameRoom.players (marked_disconnected i p r) !! j = Some q' →
            ∃ q, GameRoom.players r !! j = Some q ∧ same_seat q q' ∧
                 Player.isConnected q' =
                   (if decide (j = i) then false else Player.isConnected q) ∧
                 Player.isCurrentTurn q' = Player.isCurrentTurn q) as Hmarked.
  { intros j q'. rewrite (marked_disconnected_lookup _ _ _ _ Hi).
    destruct (GameRoom.players r !! j) as [q|]; simpl; [|done].
    intros [= <-]. exists q. unfold same_seat. by destruct (decide (j = i)). }
  assert (length (GameRoom.players (marked_disconnected i p r))
          = length (GameRoom.players r)) as Hlen
    by (unfold marked_disconnected; simpl; apply length_insert).
  destruct Hleave as [Hno|_ Hturn|r1 _ Hturn Hstep]; [done| |].
  - split_and!; [|done| |by rewrite Hturn].
    + intros j q' Hq'. destruct (Hmarked j q' Hq') as (q & ? & ? & ? & _). eauto.
    + intros _. split_and!; [done|done|].
      intros j q' Hq'. destruct (Hmarked j q' Hq') as (q & ? & _ & _ & ?). eauto.
  - split_and!; [| |by rewrite Hturn|].
    + intros j q' Hq'.
      destruct (turn_step_seats _ _ _ Hstep j q' Hq') as (q1 & Hq1 & Hs1 & Hc1).
      destruct (Hmarked j q1 Hq1) as (q & Hq & Hs & Hc & _).
      exists q. unfold same_seat in *. split_and!; try done; intuition congruence.
    + rewrite <- Hlen. inversion Hstep; subst; simpl; [done|].
      by rewrite length_alter, length_fmap.
    + intros _. inversion Hstep as [? _ _|? j q1 _ Hj Hel]; subst; simpl;
        [by left|right].
      split; [done|].
      destruct (Hmarked j q1 Hj) as (q & Hq & Hs & Hc & _).
      assert (j ≠ i) as Hne.
      { intros ->. rewrite decide_True in Hc by done.
        destruct Hel as [_ Hcon]. congruence. }
      rewrite decide_False in Hc by done.
      exists j, q. split_and!; try done.
      * destruct Hel as [Hshots Hcon]. destruct Hs as (_ & _ & _ & _ & Hsh).
        split; congruence.
      * intros j' q'. rewrite lookup_turn_given.
        destruct (_ !! j'); simpl; [|done]. by intros [= <-].
Qed.

(** X15: [removePlayerFromRoom] on a [playing] room (with
    [currentPlayerIndex >= 0]) returns [true] and never takes the player
    out of the list.  If no other player is connected the room is removed
    from the store.  Otherwise the room stays with the same players in
    the same order and with the same scores and [shotsRemaining]; only
    the leaver's [isConnected] becomes false.  If it was not the
    leaver's turn, status, [currentPlayerIndex] and every [isCurrentTurn]
    are as before; if it was, the game is [completed] or the turn is
    with another player, connected and with shots left.  [hostId]
    changes only when the leaver was the host, to the first connected
    player. *)
Theorem removePlayerFromRoom_playing_keeps_the_seat
    st roomId playerId now room i p :
  rooms_get st roomId = Some room →
  GameRoom.status room = playing →
  find_player playerId (GameRoom.players room) = Some (i, p) →
  0 ≤ GameRoom.currentPlayerIndex room →
  ∃ st',
    removePlayerFromRoom st roomId playerId now = (st', Returned true) ∧
    (∀ k, k ≠ roomId → rooms_get st' k = rooms_get st k) ∧
    ((∀ j q, GameRoom.players room !! j = Some q → j ≠ i →
             Player.isConnected q = false) →
     rooms_get st' roomId = None) ∧
    ((∃ j q, GameRoom.players room !! j = Some q ∧ j ≠ i ∧
             Player.isConnected q = true) →
     ∃ room',
       rooms_get st' roomId = Some room' ∧
       GameRoom.lastActivity room' = now ∧
       same_settings room room' ∧
       length (GameRoom.players room') = length (GameRoom.players room) ∧
       (∀ j q', GameRoom.players room' !! j = Some q' →
          ∃ q, GameRoom.players room !! j = Some q ∧ same_seat q q' ∧
               Player.isConnected q' =
                 if decide (j = i) then false else Player.isConnected q) ∧
       (Player.isCurrentTurn p = false →
        GameRoom.status room' = playing ∧
        GameRoom.currentPlayerIndex room' = GameRoom.currentPlayerIndex room ∧
        ∀ j q', GameRoom.players room' !! j = Some q' →
          ∃ q, GameRoom.players room !! j = Some q ∧
               Player.isCurrentTurn q' = Player.isCurrentTurn q) ∧
       (Player.isCurrentTurn p = true →
        GameRoom.status room' = completed ∨
        (GameRoom.status room' = playing ∧
         ∃ j q, j ≠ i ∧ GameRoom.players room !! j = Some q ∧ eligible q ∧
                GameRoom.currentPlayerIndex room' = Z.of_nat j ∧
                ∀ j' q', GameRoom.players room' !! j' = Some q' →
                         Player.isCurrentTurn q' = bool_decide (j' = j))) ∧
       (playerId ≠ GameRoom.hostId room →
        GameRoom.hostId room' = GameRoom.hostId room) ∧
       (playerId = GameRoom.hostId room →
        ∃ j q', GameRoom.players room' !! j = Some q' ∧
                Player.isConnected q' = true ∧
                (∀ j' q'', GameRoom.players room' !! j' = Some q'' →
                           (j' < j)%nat → Player.isConnected q'' = false) ∧
                GameRoom.hostId room' = Player.id q')).
Proof.
  intros Hget Hst Hfind Hcpi.
  destruct (find_player_Some _ _ _ _ Hfind) as (Hi & Hid & _).
  destruct (removePlayerFromRoom_cases st roomId playerId now)
    as [[_ [Hnone|(r & Hr & Hnone)]]
       |(r & i' & p' & Hr & Hfind' & [(_ & _ & Hthrown & _)|(r1 & Hleave & Hrun)])];
    try congruence.
  - assert (r = room) as -> by congruence.
    assert (i' = i ∧ p' = p) as [-> ->] by (split; congruence).
    exfalso.
    pose proof (nextTurn_returns
                  (rooms_set st roomId (marked_disconnected i p room)) roomId now
                  (marked_disconnected i p room)) as Hret.
    rewrite Hthrown in Hret. simpl in Hret.
    assert (Thrown = Returned true) as Habs; [apply Hret|done]; try done.
    + apply rooms_get_set_eq.
    + unfold marked_disconnected. simpl. intros Hnil.
      apply (f_equal length) in Hnil. rewrite length_insert in Hnil.
      apply lookup_lt_Some in Hi. simpl in Hnil. lia.
  - assert (r = room) as -> by congruence.
    assert (i' = i ∧ p' = p) as [-> ->] by (split; congruence).
    destruct (leave_playing_keeps _ _ _ _ _ Hst Hi Hleave)
      as (Hseats & Hlen & Hsame & Hpassed).
    destruct (leave_step_keeps _ _ _ _ _ Hi Hleave) as (_ & _ & Hhost & Hset).
    eexists. split; [exact Hrun|].
    split.
    { intros k Hk. destruct (room_gone r1).
      - by apply rooms_get_delete_ne.
      - by apply rooms_get_set_ne. }
    destruct (room_gone r1) eqn:Hgone.
    + split; [intros _; apply rooms_get_delete_eq|].
      intros (j & q & Hq & Hne & Hcon). exfalso.
      unfold room_gone in Hgone. apply orb_true_iff in Hgone as [Hnil|Hall].
      * apply bool_decide_eq_true_1 in Hnil. apply lookup_lt_Some in Hq. lia.
      * apply forallb_disconnected in Hall.
        destruct (lookup_lt_is_Some_2 (GameRoom.players r1) j) as [q' Hq'];
          [apply lookup_lt_Some in Hq; lia|].
        destruct (Hseats j q' Hq') as (q0 & Hq0 & _ & Hc).
        rewrite decide_False in Hc by done.
        pose proof (Forall_lookup_1 _ _ _ _ Hall Hq') as Hdis. simpl in Hdis.
        congruence.
    + destruct (room_gone_false _ Hgone) as (j & q' & Hfirst).
      pose proof Hfirst as Hfirst'.
      apply list_find_Some in Hfirst' as (Hj & Hcon & Hbefore).
      destruct (Hseats j q' Hj) as (q & Hq & _ & Hc).
      assert (j ≠ i) as Hne
        by (intros ->; rewrite decide_True in Hc by done; congruence).
      rewrite decide_False in Hc by done.
      split.
      { intros Hall. exfalso. specialize (Hall j q Hq Hne). congruence. }
      intros _.
      destruct (reassign_host_keeps playerId r1) as (Hps' & Hst' & Hcpi' & Hset').
      eexists. split; [apply rooms_get_set_eq|].
      split; [done|].
      split.
      { destruct Hset as (? & ? & ? & ? & ? & ?).
        destruct Hset' as (? & ? & ? & ? & ? & ?).
        unfold same_settings. simpl. split_and!; congruence. }
      simpl. rewrite Hps', Hst', Hcpi'.
      do 4 (split; [done|]).
      unfold reassign_host. rewrite Hfirst, Hhost.
      assert ((0 <? Z.of_nat (length (GameRoom.players r1))) = true) as ->
        by (apply Z.ltb_lt; apply lookup_lt_Some in Hj; lia).
      split.
      * intros Hnot. by rewrite bool_decide_eq_false_2.
      * intros Hhostleft. rewrite bool_decide_eq_true_2 by done. simpl.
        exists j, q'. split_and!; try done.
        intros j' q'' Hj' Hlt. specialize (Hbefore j' q'' Hj' Hlt).
        by destruct (Player.isConnected q'').
Qed.

(** ** No [TypeError] without [updateRoom] *)

Lemma turn_step_index now r r' :
  turn_step now r r' →
  0 ≤ GameRoom.currentPlayerIndex r → 0 ≤ GameRoom.currentPlayerIndex r'.
Proof. destruct 1; simpl; lia. Qed.

Lemma room_step_index now op r r' :
  checked_op [] op → room_step now op r r' →
  0 ≤ GameRoom.currentPlayerIndex r → 0 ≤ GameRoom.currentPlayerIndex r'.
Proof.
  intros Hop Hstep Hc.
  destruct Hstep as [| | |k playerId r i p r1 Hfind Hleave Hgone| | | |
                     |k r r' Hturn| | |]; simpl in *; try done.
  - destruct (reassign_host_keeps playerId r1) as (_ & _ & -> & _).
    destruct Hleave as [Hst|Hst Hp|r1 Hst Hp Hturn]; simpl; try done.
    by apply (turn_step_index _ _ _ Hturn).
  - by apply (turn_step_index _ _ _ Hturn).
Qed.

(** Every room of a store made without [updateRoom] has a player and a
    [currentPlayerIndex] that is not negative. *)
Lemma reachable_seated st :
  reachable checked_op st →
  ∀ k r, rooms_get st k = Some r →
    GameRoom.players r ≠ [] ∧ 0 ≤ GameRoom.currentPlayerIndex r.
Proof.
  intros Hreach k r Hget.
  assert (GameRoom.hostId r ∈ player_ids r ∧
          0 ≤ GameRoom.currentPlayerIndex r) as [Hhost Hc].
  { revert k r Hget.
    apply (reachable_rooms_ind checked_op
             (λ _ r, GameRoom.hostId r ∈ player_ids r ∧
                     0 ≤ GameRoom.currentPlayerIndex r)); [| |done].
    - intros st0 op now k r' _ _ Hnew. destruct op; try done.
      simpl in Hnew. subst r'. split; [apply list_elem_of_here|done].
    - intros st0 op now k r r' Hop [Hh Hc] Hstep. split.
      + apply (room_step_host now op r); [by destruct op|done|done].
      + apply (room_step_index now op r); [by destruct op|done|done]. }
  split; [|done]. intros Hnil. unfold player_ids in Hhost.
  rewrite Hnil in Hhost. by apply elem_of_nil in Hhost.
Qed.

(** X24: on every store that calls other than [updateRoom] can produce,
    no call throws.  [nextTurn], [resetGame] and [removePlayerFromRoom]
    have a [TypeError] path, taken on a room without players or with a
    negative [currentPlayerIndex]; such a store holds no such room
    ([reachable_seated]), so the three calls always return.  The other
    calls return on every store. *)
Theorem no_call_throws st :
  reachable checked_op st →
  ∀ roomId now,
    (nextTurn st roomId now).2 ≠ Thrown ∧
    (resetGame st roomId now).2 ≠ Thrown ∧
    (∀ playerId, (removePlayerFromRoom st roomId playerId now).2 ≠ Thrown) ∧
    (∀ player, (addPlayerToRoom st roomId player now).2 ≠ Thrown) ∧
    (∀ updatedPlayer,
       (updatePlayerInRoom st roomId updatedPlayer now).2 ≠ Thrown) ∧
    (startGame st roomId now).2 ≠ Thrown ∧
    (∀ playerId s,
       (updatePlayerScore st roomId playerId s now).2 ≠ Thrown) ∧
    (removeRoom st roomId).2 ≠ Thrown.
Proof.
  intros Hreach roomId now.
  pose proof (reachable_seated st Hreach roomId) as Hseated.
  split_and!.
  - destruct (nextTurn_cases st roomId now)
      as [[-> _]|[Hthrown|(r & r' & _ & _ & ->)]]; [done| |done].
    unfold nextTurn in Hthrown.
    destruct (rooms_get st roomId) as [r|] eqn:Hget; [|done].
    destruct (Hseated r eq_refl) as [Hps Hc].
    destruct (bool_decide (GameRoom.status r = playing)) eqn:Hst; [|done].
    apply bool_decide_eq_true_1 in Hst.
    pose proof (nextTurn_returns st roomId now r Hget Hst Hps Hc) as Hret.
    unfold nextTurn in Hret. rewrite Hget, bool_decide_eq_true_2 in Hret by done.
    simpl in Hthrown, Hret. by rewrite Hthrown in Hret.
  - unfold resetGame.
    destruct (rooms_get st roomId) as [r|] eqn:Hget; [|done].
    destruct (Hseated r eq_refl) as [Hps _].
    by destruct (GameRoom.players r).
  - intros playerId.
    destruct (removePlayerFromRoom_cases st roomId playerId now)
      as [[-> _]|(r & i & p & Hget & Hfind & [(Hst & _ & Hthrown & _)|(r1 & _ & ->)])];
      [done| |done].
    exfalso.
    destruct (Hseated r Hget) as [_ Hc].
    destruct (find_player_Some _ _ _ _ Hfind) as (Hi & _ & _).
    assert ((nextTurn (rooms_set st roomId (marked_disconnected i p r))
               roomId now).2 = Returned true) as Hret.
    { apply (nextTurn_returns _ _ _ (marked_disconnected i p r));
        [apply rooms_get_set_eq|done| |done].
      unfold marked_disconnected. simpl. intros Hnil.
      apply (f_equal length) in Hnil. rewrite length_insert in Hnil.
      apply lookup_lt_Some in Hi. simpl in Hnil. lia. }
    by rewrite Hthrown in Hret.
  - intros player. unfold addPlayerToRoom. repeat case_match; done.
  - intros updatedPlayer. unfold updatePlayerInRoom. repeat case_match; done.
  - unfold startGame. repeat case_match; done.
  - intros playerId s. unfold updatePlayerScore. repeat case_match; done.
  - unfold removeRoom. repeat case_match; done.
Qed.

(** ** The HTTP routes *)

Lemma given_Some s : s ≠ EmptyString → given (Some s) = Some s.
Proof. intros Hs. unfold given. by rewrite bool_decide_eq_false_2. Qed.

(** X20: the join route answers 400 and leaves the store as it is when a
    field is absent or empty, and 404 when the room is unknown.  When
    the room exists but is full or not [waiting] it answers 400 as well,
    but the store has changed: the room's [lastActivity] is the time of
    the request, because the route reads the room with [getRoom] before
    it tries to add the player. *)
Theorem joinRoute_refusals :
  (∀ st roomId playerId playerName walletAddress t1 t2 t3 message,
     (given playerId = None ∨ given playerName = None ∨
      given walletAddress = None) →
     joinRoute st roomId playerId playerName walletAddress t1 t2 t3 message =
       (st, Failure 400 "Missing required fields")) ∧
  (∀ st roomId playerId playerName walletAddress t1 t2 t3 message,
     playerId ≠ EmptyString → playerName ≠ EmptyString →
     walletAddress ≠ EmptyString →
     rooms_get st roomId = None →
     joinRoute st roomId (Some playerId) (Some playerName)
       (Some walletAddress) t1 t2 t3 message =
       (st, Failure 404 "Room not found")) ∧
  (∀ st roomId playerId playerName walletAddress t1 t2 t3 message room,
     playerId ≠ EmptyString → playerName ≠ EmptyString →
     walletAddress ≠ EmptyString →
     rooms_get st roomId = Some room →
     (GameRoom.maxPlayers room ≤ Z.of_nat (length (GameRoom.players room)) ∨
      GameRoom.status room ≠ waiting) →
     ∃ st',
       joinRoute st roomId (Some playerId) (Some playerName)
         (Some walletAddress) t1 t2 t3 message =
         (st', Failure 400 "Failed to join room") ∧
       rooms_get st' roomId = Some (GameRoom.set_lastActivity t1 room) ∧
       ∀ k, k ≠ roomId → rooms_get st' k = rooms_get st k).
Proof.
  split_and!.
  - intros st roomId playerId playerName walletAddress t1 t2 t3 message Hmiss.
    unfold joinRoute.
    destruct (given playerId), (given playerName), (given walletAddress);
      try done; by destruct Hmiss as [?|[?|?]].
  - intros st roomId playerId playerName walletAddress t1 t2 t3 message
      Hid Hname Hw Hget.
    unfold joinRoute. rewrite !given_Some by done.
    unfold getRoom. by rewrite Hget.
  - intros st roomId playerId playerName walletAddress t1 t2 t3 message room
      Hid Hname Hw Hget Hno.
    unfold joinRoute. rewrite !given_Some by done.
    unfold getRoom. rewrite Hget.
    unfold addPlayerToRoom. rewrite rooms_get_set_eq. simpl.
    assert ((if GameRoom.maxPlayers room
                  <=? Z.of_nat (length (GameRoom.players room))
             then true
             else negb (bool_decide (GameRoom.status room = waiting))) = true)
      as Hrefused.
    { destruct (_ <=? _) eqn:Hfull; [done|]. apply Z.leb_gt in Hfull.
      destruct Hno as [?|Hst]; [lia|]. by rewrite bool_decide_eq_false_2. }
    destruct (_ <=? _).
    + eexists. split; [done|]. split; [apply rooms_get_set_eq|].
      intros k Hk. by apply rooms_get_set_ne.
    + rewrite Hrefused.
      eexists. split; [done|]. split; [apply rooms_get_set_eq|].
      intros k Hk. by apply rooms_get_set_ne.
Qed.

(** X21: when the join route lets a player into a [waiting] room that is
    not full, it answers 200 with the room as stored, whose
    [lastActivity] is the time of the last read.  The player it stores
    always has score 0, the room's [shotsPerPlayer], [isConnected] true
    and [isCurrentTurn] false: appended when the id is new, and in the
    place of the first player with that id otherwise, whose score and
    turn flag are lost. *)
Theorem joinRoute_enters_without_progress st roomId playerId playerName
    walletAddress t1 t2 t3 message room :
  playerId ≠ EmptyString → playerName ≠ EmptyString →
  walletAddress ≠ EmptyString →
  rooms_get st roomId = Some room →
  GameRoom.status room = waiting →
  Z.of_nat (length (GameRoom.players room)) < GameRoom.maxPlayers room →
  let entrant :=
    Player.mk playerId playerName walletAddress 0
      (GameRoom.shotsPerPlayer room) true false in
  ∃ st' room',
    joinRoute st roomId (Some playerId) (Some playerName)
      (Some walletAddress) t1 t2 t3 message =
      (st', Success 200 (Some room')) ∧
    rooms_get st' roomId = Some room' ∧
    (∀ k, k ≠ roomId → rooms_get st' k = rooms_get st k) ∧
    GameRoom.lastActivity room' = t3 ∧
    GameRoom.status room' = waiting ∧
    GameRoom.hostId room' = GameRoom.hostId room ∧
    ((∀ q, q ∈ GameRoom.players room → Player.id q ≠ playerId) →
     GameRoom.players room' = GameRoom.players room ++ [entrant]) ∧
    (∀ i q, find_player playerId (GameRoom.players room) = Some (i, q) →
            GameRoom.players room' = <[i := entrant]> (GameRoom.players room)).
Proof.
  intros Hid Hname Hw Hget Hst Hroom entrant.
  unfold joinRoute. rewrite !given_Some by done.
  unfold getRoom at 1. rewrite Hget.
  unfold addPlayerToRoom. rewrite rooms_get_set_eq. simpl.
  assert ((GameRoom.maxPlayers room
             <=? Z.of_nat (length (GameRoom.players room))) = false) as ->
    by (apply Z.leb_gt; lia).
  rewrite Hst. simpl.
  unfold getRoom. rewrite rooms_get_set_eq. simpl.
  eexists _, _. split; [done|]. split; [apply rooms_get_set_eq|].
  split; [intros k Hk; by rewrite !rooms_get_set_ne|].
  simpl. split_and!; try done.
  - intros Hnew. apply find_player_None in Hnew. by rewrite Hnew.
  - intros i q ->. done.
Qed.

(** X22: when the only player of a room that is not [playing] leaves
    through the leave route, the route answers 200 with no room
    ([data: null]) and the room is gone from the store. *)
Theorem leaveRoute_last_player st roomId playerId t1 t2 message room p :
  playerId ≠ EmptyString →
  rooms_get st roomId = Some room →
  GameRoom.status room ≠ playing →
  GameRoom.players room = [p] → Player.id p = playerId →
  leaveRoute st roomId (Some playerId) t1 t2 message =
    (rooms_delete st roomId, Success 200 None) ∧
  rooms_get (rooms_delete st roomId) roomId = None.
Proof.
  intros Hid Hget Hst Hps Hp. split; [|apply rooms_get_delete_eq].
  unfold leaveRoute. rewrite given_Some by done.
  unfold removePlayerFromRoom. rewrite Hget, Hps.
  unfold find_player. simpl. rewrite decide_True by done. simpl.
  rewrite bool_decide_eq_false_2 by done.
  rewrite rooms_get_set_eq. simpl.
  unfold removeRoom. rewrite rooms_get_set_eq. simpl.
  rewrite rooms_delete_set.
  unfold getRoom. by rewrite rooms_get_delete_eq.
Qed.

(** X23: the score route changes the store only when it answers 200:
    whenever it answers an error, the code is 400 (a field is absent)
    or 404 (unknown room or player, or not the player's turn), and the
    store, [lastActivity] included, is as before. *)
Theorem scoreRoute_errors_change_nothing st roomId playerId score t1 t2
    message st' code error :
  scoreRoute st roomId playerId score t1 t2 message =
    (st', Failure code error) →
  st' = st ∧ (code = 400 ∨ code = 404).
Proof.
  unfold scoreRoute.
  destruct (given playerId) as [pid|]; [|intros [= <- <- _]; auto].
  destruct score as [s|]; [|intros [= <- <- _]; auto].
  destruct (updatePlayerScore st roomId pid s t1) as [st1 [[|]|]] eqn:Hrun.
  - by destruct (getRoom st1 roomId t2).
  - apply updatePlayerScore_inv in Hrun as [[_ ->]|[? _]]; [|done].
    intros [= <- <- _]. auto.
  - exfalso. revert Hrun. unfold updatePlayerScore.
    destruct (rooms_get st roomId); [|done].
    destruct (find_player _ _) as [[i p]|]; [|done].
    by destruct (negb _).
Qed.

(** ** The properties above on concrete games *)

Lemma created_room_store : created_room = [("R", created_room_R)].
Proof. by vm_compute. Qed.

Lemma started_game_reachable : reachable checked_op started_game.
Proof. unfold started_game; cbv zeta; by_calls. Qed.

Lemma started_game_get :
  rooms_get [("R", started_room)] "R" = Some started_room.
Proof. by vm_compute. Qed.

Lemma waiting_room_get :
  rooms_get [("R", waiting_room_R)] "R" = Some waiting_room_R.
Proof. by vm_compute. Qed.

Lemma waiting_room_started :
  run [("R", waiting_room_R)] (OpStartGame "R") 3 = [("R", started_room)].
Proof. by vm_compute. Qed.

Lemma status_changes_only_by_witness :
  rooms_get (run waiting_room (OpStartGame "R") 3) "R" = Some started_room ∧
  GameRoom.status started_room = playing.
Proof.
  rewrite waiting_room_store, waiting_room_started.
  split; [apply started_game_get|].
  destruct (status_changes_only_by [("R", waiting_room_R)] (OpStartGame "R") 3
              "R" waiting_room_R started_room)
    as [[_ H]|[(_ & _ & H)|[[_ H]|(u & H & _)]]];
    done.
Defined.

Lemma settings_written_only_by_updateRoom_witness :
  same_settings waiting_room_R started_room.
Proof.
  apply (settings_written_only_by_updateRoom [("R", waiting_room_R)]
           (OpStartGame "R") 3 "R"); [done|done|apply waiting_room_get|].
  rewrite waiting_room_started. apply started_game_get.
Defined.

Lemma player_ids_change_only_by_join_and_leave_witness :
  player_ids started_room = player_ids waiting_room_R.
Proof.
  destruct (player_ids_change_only_by_join_and_leave [("R", waiting_room_R)]
              (OpStartGame "R") 3 "R" waiting_room_R started_room)
    as [H|[(? & ? & _)|(? & ? & ? & _)]]; done.
Defined.

Lemma host_is_a_player_witness :
  GameRoom.players started_room ≠ [] ∧
  ∃ p, p ∈ GameRoom.players started_room ∧
       Player.id p = GameRoom.hostId started_room.
Proof.
  apply (host_is_a_player started_game started_game_reachable "R").
  rewrite started_game_store. apply started_game_get.
Defined.

Lemma player_ids_are_unique_witness : NoDup (player_ids started_room).
Proof.
  apply (player_ids_are_unique started_game started_game_reachable "R").
  rewrite started_game_store. apply started_game_get.
Defined.

Lemma players_within_maxPlayers_witness :
  Z.of_nat (length (GameRoom.players started_room))
  ≤ Z.max 1 (GameRoom.maxPlayers started_room).
Proof.
  apply (players_within_maxPlayers started_game started_game_reachable "R").
  rewrite started_game_store. apply started_game_get.
Defined.

Lemma room_is_stored_under_its_id_witness : GameRoom.id started_room = "R".
Proof.
  apply (room_is_stored_under_its_id started_game started_game_reachable).
  rewrite started_game_store. apply started_game_get.
Defined.

Lemma removeRoom_deletes_witness :
  rooms_get (removeRoom started_game "R").1 "R" = None ∧
  removeRoom (removeRoom started_game "R").1 "R" =
    ((removeRoom started_game "R").1, Returned false).
Proof.
  destruct (removeRoom_deletes started_game "R") as (_ & H1 & _ & H2).
  by split.
Defined.

Lemma started_game_any_reachable : reachable any_op started_game.
Proof. unfold started_game; cbv zeta; by_calls. Qed.

Lemma cleanupInactiveRooms_removes_exactly_stale_witness :
  rooms_get (cleanupInactiveRooms started_game 100) "R" = Some started_room.
Proof.
  apply (cleanupInactiveRooms_removes_exactly_stale started_game 100
           started_game_any_reachable).
  rewrite started_game_store. split; [apply started_game_get|by vm_compute].
Defined.

Lemma getRoom_postpones_cleanup_witness :
  rooms_get (cleanupInactiveRooms (getRoom started_game "R" 50).1 60) "R" =
    Some (GameRoom.set_lastActivity 50 started_room).
Proof.
  apply (getRoom_postpones_cleanup started_game "R" 50 60 started_room
           started_game_any_reachable).
  - rewrite started_game_store. apply started_game_get.
  - by vm_compute.
Defined.

Lemma getActiveRooms_after_cleanup_is_fresh_witness :
  started_room ∈ getActiveRooms (cleanupInactiveRooms started_game 100) 100 ∧
  100 - GameRoom.lastActivity started_room ≤ maxInactiveTime.
Proof.
  assert (started_room
          ∈ getActiveRooms (cleanupInactiveRooms started_game 100) 100) as Hin.
  { rewrite started_game_store.
    assert (getActiveRooms (cleanupInactiveRooms [("R", started_room)] 100) 100
            = [started_room]) as -> by (by vm_compute).
    apply list_elem_of_here. }
  split; [done|].
  by destruct (getActiveRooms_after_cleanup_is_fresh started_game 100
                 started_room Hin).
Defined.

Lemma startGame_starts_whatever_the_status_witness :
  ∃ st' room',
    startGame started_game "R" 9 = (st', Returned true) ∧
    rooms_get st' "R" = Some room' ∧
    GameRoom.status room' = playing ∧
    GameRoom.lastActivity room' = 9.
Proof.
  destruct startGame_starts_whatever_the_status as [_ Hstart].
  rewrite started_game_store.
  destruct (Hstart [("R", started_room)] "R" 9 started_room started_game_get)
    as (st' & room' & ? & ? & _ & ? & _ & ? & _); [simpl; lia|].
  by exists st', room'.
Defined.

Lemma addPlayerToRoom_refuses_witness :
  addPlayerToRoom started_game "R" (joiner "C") 9 =
    (started_game, Returned false).
Proof.
  apply addPlayerToRoom_refuses. right. rewrite started_game_store.
  exists started_room. split; [apply started_game_get|]. by right.
Defined.

Lemma addPlayerToRoom_joins_witness :
  ∃ st' room',
    addPlayerToRoom waiting_room "R" (joiner "C") 9 = (st', Returned true) ∧
    rooms_get st' "R" = Some room' ∧
    GameRoom.lastActivity room' = 9.
Proof.
  rewrite waiting_room_store.
  destruct (addPlayerToRoom_joins [("R", waiting_room_R)] "R" (joiner "C") 9
              waiting_room_R waiting_room_get)
    as (st' & room' & ? & ? & _ & _ & _ & _ & ? & _); [done|simpl; lia|].
  by exists st', room'.
Defined.

Lemma removePlayerFromRoom_playing_keeps_the_seat_witness :
  ∃ st', removePlayerFromRoom started_game "R" "A" 9 = (st', Returned true).
Proof.
  rewrite started_game_store.
  destruct (removePlayerFromRoom_playing_keeps_the_seat [("R", started_room)]
              "R" "A" 9 started_room 0%nat (Player.mk "A" "A" "G" 0 1 true true)
              started_game_get)
    as (st' & ? & _); [done|by vm_compute|simpl; lia|].
  by exists st'.
Defined.

Lemma updatePlayerInRoom_replaces_one_witness :
  ∃ st' room',
    updatePlayerInRoom started_game "R" (joiner "B") 9 = (st', Returned true) ∧
    rooms_get st' "R" = Some room' ∧
    GameRoom.players room' !! 1%nat = Some (joiner "B").
Proof.
  destruct updatePlayerInRoom_replaces_one as [_ Hput].
  rewrite started_game_store.
  destruct (Hput [("R", started_room)] "R" (joiner "B") 9 started_room 1%nat
              (Player.mk "B" "B" "G" 0 1 true false) started_game_get)
    as (st' & room' & ? & ? & _ & ? & _); [by vm_compute|].
  by exists st', room'.
Defined.

Lemma updateRoom_keeps_the_key_witness :
  ∃ st' room',
    updateRoom started_game "R" (rename_to "Q") 9 = (st', Returned true) ∧
    st'.*1 = started_game.*1 ∧
    rooms_get st' "R" = Some room' ∧
    GameRoom.id room' = "Q".
Proof.
  rewrite started_game_store.
  destruct (updateRoom_keeps_the_key [("R", started_room)] "R" (rename_to "Q")
              9 started_room started_game_get)
    as (st' & room' & ? & ? & ? & _ & _ & ? & _).
  by exists st', room'.
Defined.

Lemma unknown_room_is_refused_witness :
  removeRoom started_game "Q" = (started_game, Returned false) ∧
  getWinner started_game "Q" = None.
Proof.
  destruct (unknown_room_is_refused started_game "Q") as (_ & _ & _ & _ & _ & _
    & _ & _ & _ & ? & ?); [|done].
  rewrite started_game_store. by vm_compute.
Defined.

Lemma createRoom_stores_a_waiting_room_witness :
  rooms_get (createRoom [] "R" "A" "A" "G" "room" 4 1 10 1 1).1 "R" =
    Some (createRoom [] "R" "A" "A" "G" "room" 4 1 10 1 1).2.
Proof.
  pose proof (createRoom_stores_a_waiting_room [] "R" "A" "A" "G" "room"
                4 1 10 1 1 (reachable_empty any_op) eq_refl) as H.
  simpl in H. apply H.
Defined.

Lemma joinRoute_refusals_witness :
  ∃ st',
    joinRoute started_game "R" (Some "C") (Some "C") (Some "G") 7 8 9 "m" =
      (st', Failure 400 "Failed to join room") ∧
    rooms_get st' "R" = Some (GameRoom.set_lastActivity 7 started_room).
Proof.
  destruct joinRoute_refusals as (_ & _ & Hrefused).
  rewrite started_game_store.
  destruct (Hrefused [("R", started_room)] "R" "C" "C" "G" 7 8 9 "m"
              started_room)
    as (st' & ? & ? & _); try done; [by right|].
  by exists st'.
Defined.

Lemma joinRoute_enters_without_progress_witness :
  ∃ st' room',
    joinRoute waiting_room "R" (Some "C") (Some "C") (Some "G") 7 8 9 "m" =
      (st', Success 200 (Some room')) ∧
    rooms_get st' "R" = Some room' ∧
    GameRoom.lastActivity room' = 9.
Proof.
  rewrite waiting_room_store.
  destruct (joinRoute_enters_without_progress [("R", waiting_room_R)] "R"
              "C" "C" "G" 7 8 9 "m" waiting_room_R)
    as (st' & room' & ? & ? & _ & ? & _); try done; try (simpl; lia).
  by exists st', room'.
Defined.

Lemma leaveRoute_last_player_witness :
  leaveRoute created_room "R" (Some "A") 7 8 "m" =
    (rooms_delete created_room "R", Success 200 None).
Proof.
  rewrite created_room_store.
  apply (leaveRoute_last_player [("R", created_room_R)] "R" "A" 7 8 "m"
           created_room_R (Player.mk "A" "A" "G" 0 1 true true));
    by vm_compute.
Defined.

Lemma scoreRoute_errors_change_nothing_witness :
  scoreRoute started_game "R" (Some "B") (Some 5) 7 8 "m" =
    (started_game, Failure 404 "Failed to update score") ∧
  (404 = 400 ∨ 404 = 404).
Proof.
  assert (scoreRoute started_game "R" (Some "B") (Some 5) 7 8 "m" =
            (started_game, Failure 404 "Failed to update score")) as Hrun
    by (rewrite started_game_store; by vm_compute).
  split; [done|].
  by destruct (scoreRoute_errors_change_nothing _ _ _ _ _ _ _ _ _ _ Hrun).
Defined.

Lemma no_call_throws_witness :
  (nextTurn started_game "R" 9).2 ≠ Thrown ∧
  (resetGame started_game "R" 9).2 ≠ Thrown.
Proof.
  destruct (no_call_throws started_game started_game_reachable "R" 9)
    as (? & ? & _).
  by split.
Defined.
